(** * GitHub activity dashboard: data acquisition and reconciliation engine

    A shallow embedding of the engine of [all_user_commit] (class
    [AllUserCommit]) and of the retrying request executor of
    [GitHubDataEngine.makeRequest], followed by the properties of the
    date partitioner, the dual-query merger, the repository walker, the
    reconciler and the fetch budget.

    Conventions of the embedding.
    - A JavaScript [Date] built from a [YYYY-MM-DD] string is the number of
      days since 1970-01-01 (UTC), an integer of [Z]; [setDate(getDate()+n)]
      moves [n] days forward and [toISOString().split("T")[0]] reads the day
      back. That is the code in a process time zone without clock change;
      [Zoned.createDatePartitions] and
      [GitHubDataEngine.generateDatePartitions] are the loops on time values
      (milliseconds) in any time zone.
    - [async] methods are functions of the engine state ([totalFetched],
      [errors], [cancelled]) into a [Result]: a value, a thrown error, or
      [OutOfFuel] when a [while] loop was cut by the iteration bound.
    - The remote service is a record of functions from requests to
      responses ([Api]): it answers a request the same way each time. For
      the retrying executor, where the same request is sent again, the
      service is a function of the attempt number.
    - The write-only logs ([apiCalls], [github.log], console output), the
      sleeps between requests and the per-commit detail fields ([parents],
      [stats], [files], fetched by [getDetailedCommitInfo], which catches
      its own errors) are left out: no control flow reads them. *)

From Stdlib Require Import ZArith String Ascii List Lia DecimalString.
From stdpp Require Import base list strings gmap.
From Equations Require Import Equations.

Local Open Scope Z_scope.

(** ** JavaScript helpers *)

(** [Number.MAX_SAFE_INTEGER] *)
Definition MAX_SAFE_INTEGER : Z := 2 ^ 53 - 1.

(** [arr.length] as a JavaScript number. *)
Definition len {A} (l : list A) : Z := Z.of_nat (length l).

(** [arr.splice(-excess)] for [excess > 0]: drops the last [excess]
    entries (all of them when [excess] exceeds the length). *)
Definition splice_last {A} (excess : Z) (l : list A) : list A :=
  take (Z.to_nat (Z.max (len l - excess) 0)) l.

(** [arr.splice(n)] for [n >= 0]: keeps the first [n] entries. *)
Definition splice_from {A} (n : Z) (l : list A) : list A :=
  take (Z.to_nat n) l.

(** [arr.filter((x, index) => f(index, x))] *)
Fixpoint filter_index {A} (f : Z -> A -> bool) (index : Z) (l : list A) : list A :=
  match l with
  | [] => []
  | x :: l' =>
      if f index x then x :: filter_index f (index + 1) l'
      else filter_index f (index + 1) l'
  end.

(** [arr.findIndex(p)]: index of the first entry satisfying [p], or -1. *)
Fixpoint findIndex {A} (p : A -> bool) (l : list A) : Z :=
  match l with
  | [] => -1
  | x :: l' =>
      if p x then 0
      else let i := findIndex p l' in if i <? 0 then -1 else i + 1
  end.

(** [arr.find(p)]: position and value of the first entry satisfying [p]. *)
Fixpoint find_first {A} (p : A -> bool) (l : list A) : option (nat * A) :=
  match l with
  | [] => None
  | x :: l' =>
      if p x then Some (O, x)
      else match find_first p l' with
           | Some (i, y) => Some (S i, y)
           | None => None
           end
  end.

(** [s.split(c)] for a one-character separator. *)
Fixpoint split_char (c : ascii) (s : string) : list string :=
  match s with
  | EmptyString => [EmptyString]
  | String a s' =>
      if Ascii.eqb a c then EmptyString :: split_char c s'
      else match split_char c s' with
           | [] => [String a EmptyString]
           | w :: ws => String a w :: ws
           end
  end.

Definition is_space (a : ascii) : bool :=
  let n := nat_of_ascii a in
  (Nat.eqb n 32 || (Nat.leb 9 n && Nat.leb n 13))%bool.

Fixpoint trim_left (s : string) : string :=
  match s with
  | String a s' => if is_space a then trim_left s' else s
  | EmptyString => EmptyString
  end.

Fixpoint trim_right (s : string) : string :=
  match s with
  | EmptyString => EmptyString
  | String a s' =>
      match trim_right s' with
      | EmptyString => if is_space a then EmptyString else String a EmptyString
      | r => String a r
      end
  end.

(** [s.trim()] on ASCII white space. *)
Definition trim (s : string) : string := trim_right (trim_left s).

(** [hay.includes(needle)] *)
Fixpoint includes (needle hay : string) : bool :=
  (String.prefix needle hay ||
   match hay with
   | EmptyString => false
   | String _ hay' => includes needle hay'
   end)%bool.

(** [arr.slice(-2)] destructured as [[owner, repo]]; a missing component
    reads [undefined] and prints as such in a template literal. *)
Definition last_two (l : list string) : string * string :=
  match rev l with
  | b :: a :: _ => (a, b)
  | [a] => (a, "undefined"%string)
  | [] => ("undefined"%string, "undefined"%string)
  end.

(** ** The class [AllUserCommit] *)

Module AllUserCommit.

(** *** Date partitioner *)

Record Partition := { start : Z; end_ : Z }.

(** The [while (current < end)] loop of [createDatePartitions]; every
    iteration moves [current] eight days forward. Dates are day numbers:
    the loop as it runs where local time has no clock change (the loop on
    time values, for any time zone, is [Zoned.partition_loop]). *)
Equations? partition_loop (current end' : Z) : list Partition
  by wf (Z.to_nat (end' - current)) lt :=
  partition_loop current end' with Z_lt_dec current end' => {
    | left _ =>
        let partitionEnd := current + 7 in
        let partitionEnd := if end' <? partitionEnd then end' else partitionEnd in
        {| start := current; end_ := partitionEnd |}
          :: partition_loop (current + 8) end'
    | right _ => [] }.
Proof. lia. Qed.

Definition createDatePartitions (startDate endDate : Z) : list Partition :=
  partition_loop startDate endDate.

(** *** Data model *)

Inductive CommitType := direct | pull_request.

(** A commit record as built by [getRepositoryCommits] and
    [getPullRequestCommits]. *)
Record Commit := {
  sha : string;
  message : string;
  date : string;
  repository : string;
  type : CommitType;
  pullRequest : option Z;
  author : string;
  url : string }.

(** An entry of a commit listing of the remote service. *)
Record ApiCommit := {
  commit_sha : string;
  commit_message : string;
  commit_committer_date : string;
  commit_author_name : string;
  commit_html_url : string }.

Record Repository := {
  owner_login : string;
  name : string;
  full_name : string }.

(** An item of [GET /search/issues]. *)
Record PullRequest := {
  pr_id : Z;
  number : Z;
  repository_url : string;
  title : string }.

Record User := { login : string }.

(** A thrown value: a request error of the HTTP client (with its
    [status]), or a plain [Error] / failed [expect] (no [status]). *)
Record JsError := {
  status : option Z;
  error_message : string }.

Inductive Response (A : Type) :=
| Resolved (response_status : Z) (data : A)
| Rejected (error : JsError).
Arguments Resolved {A} _ _.
Arguments Rejected {A} _.

(** The remote service, one function per endpoint the engine calls. The
    search query is the query string together with the [created:a..b]
    qualifier of the partition, when there is one. *)
Record Api := {
  GET_user : string -> Response User;
  GET_user_repos : string -> Z -> Z -> Response (list Repository);
  GET_repo_commits :
    string -> string -> string -> Z -> Z -> option Partition ->
    Response (list ApiCommit);
  GET_search_issues :
    string -> option Partition -> Z -> Z -> Response (list PullRequest);
  GET_pull_commits : string -> string -> Z -> Response (list ApiCommit) }.

Record Config := {
  searchUser : string;
  org : option string;
  repo : option string;
  ignoreDateRange : bool;
  config_start : option Z;
  config_end : option Z;
  totalRecords : Z }.

(** Entries of [this.errors], one shape per operation. *)
Inductive ErrorEntry :=
| UserRepositoriesError (username error : string)
| RepositoryCommitsError (repository error : string)
| PullRequestCommitsError (pullRequest : Z) (repository error : string).

Record State := {
  totalFetched : Z;
  errors : list ErrorEntry;
  cancelled : bool }.

Definition set_totalFetched (n : Z) (s : State) : State :=
  {| totalFetched := n; errors := errors s; cancelled := cancelled s |}.

Definition push_error (e : ErrorEntry) (s : State) : State :=
  {| totalFetched := totalFetched s;
     errors := errors s ++ [e];
     cancelled := cancelled s |}.

(** *** Results of [async] methods *)

Inductive Result (A : Type) :=
| Return (a : A) (s : State)
| Throw (e : JsError) (s : State)
| OutOfFuel.
Arguments Return {A} _ _.
Arguments Throw {A} _ _.
Arguments OutOfFuel {A}.

Definition M (A : Type) : Type := State -> Result A.

Definition ret {A} (a : A) : M A := fun s => Return a s.

Definition throw {A} (e : JsError) : M A := fun s => Throw e s.

Definition bind {A B} (m : M A) (k : A -> M B) : M B := fun s =>
  match m s with
  | Return a s' => k a s'
  | Throw e s' => Throw e s'
  | OutOfFuel => OutOfFuel
  end.

Definition try_catch {A} (m : M A) (handler : JsError -> M A) : M A := fun s =>
  match m s with
  | Return a s' => Return a s'
  | Throw e s' => handler e s'
  | OutOfFuel => OutOfFuel
  end.

Notation "x <-- m ;; k" := (bind m (fun x => k))
  (at level 100, m at next level, right associativity).

(** JavaScript truthiness of an optional string: [undefined] and the empty
    string are falsy. *)
Definition truthy (o : option string) : bool :=
  match o with
  | Some s => negb (String.eqb s "")
  | None => false
  end.

Definition status_is (e : JsError) (code : Z) : bool :=
  match status e with
  | Some st => st =? code
  | None => false
  end.

(** *** The engine *)

Section Engine.

Variable config : Config.
Variable api : Api.

(** A failed [expect(...)] assertion: a thrown error without [status]. *)
Definition expect_failed : JsError :=
  {| status := None; error_message := "expect(received).toBe(expected)" |}.

(** [makeRequest]: the response data on status 200; a failed [expect] on
    another success status; the request error, re-thrown as it is. *)
Definition makeRequest {A} (response : Response A) : M A := fun s =>
  match response with
  | Resolved response_status data =>
      if response_status =? 200 then Return data s else Throw expect_failed s
  | Rejected error => Throw error s
  end.

Definition validateUser (username : string) : M User :=
  try_catch
    (user <-- makeRequest (GET_user api username) ;;
     if String.eqb (login user) username then ret user else throw expect_failed)
    (fun error =>
       if status_is error 404
       then throw {| status := None;
                     error_message := "User '" ++ username ++ "' not found" |}
       else throw {| status := None;
                     error_message :=
                       "Failed to validate user: " ++ error_message error |}).

Definition checkTotalRecordsLimit (s : State) : bool :=
  (0 <? totalRecords config) && (totalRecords config <=? totalFetched s).

Definition getRemainingRecords (s : State) : Z :=
  if totalRecords config =? 0 then MAX_SAFE_INTEGER
  else Z.max 0 (totalRecords config - totalFetched s).

Fixpoint getUserRepositories_loop (fuel : nat) (username : string) (page : Z)
    (repos : list Repository) (s : State) : Result (list Repository) :=
  match fuel with
  | O => OutOfFuel
  | S fuel' =>
      if cancelled s || checkTotalRecordsLimit s then Return repos s
      else
        let remainingRecords := getRemainingRecords s in
        match makeRequest
                (GET_user_repos api username page (Z.min 100 remainingRecords)) s
        with
        | Return response s =>
            if len response =? 0 then Return repos s
            else
              let repos := repos ++ response in
              let s := set_totalFetched (totalFetched s + len response) s in
              if len response <? 100 then Return repos s
              else if checkTotalRecordsLimit s then
                let excess := totalFetched s - totalRecords config in
                if 0 <? excess
                then Return (splice_last excess repos)
                            (set_totalFetched (totalRecords config) s)
                else Return repos s
              else getUserRepositories_loop fuel' username (page + 1) repos s
        | Throw error s =>
            Return repos
              (push_error (UserRepositoriesError username (error_message error)) s)
        | OutOfFuel => OutOfFuel
        end
  end.

Definition getUserRepositories (fuel : nat) (username : string)
  : M (list Repository) :=
  getUserRepositories_loop fuel username 1 [].

(** The [baseCommit] object of [getRepositoryCommits]. *)
Definition directCommit (owner repo : string) (commit : ApiCommit) : Commit :=
  {| sha := commit_sha commit;
     message := commit_message commit;
     date := commit_committer_date commit;
     repository := owner ++ "/" ++ repo;
     type := direct;
     pullRequest := None;
     author := commit_author_name commit;
     url := commit_html_url commit |}.

(** The [since] / [until] options of the commit listing:
    [if (dateRange && !this.config.ignoreDateRange)]. *)
Definition since_until (dateRange : option Partition) : option Partition :=
  match dateRange with
  | Some r => if negb (ignoreDateRange config) then Some r else None
  | None => None
  end.

Fixpoint getRepositoryCommits_loop (fuel : nat) (owner repo author : string)
    (dateRange : option Partition) (page : Z) (commits : list Commit)
    (s : State) : Result (list Commit) :=
  match fuel with
  | O => OutOfFuel
  | S fuel' =>
      if cancelled s || checkTotalRecordsLimit s then Return commits s
      else
        let perPage := 100 in
        let remainingRecords := getRemainingRecords s in
        match makeRequest
                (GET_repo_commits api owner repo author page
                   (Z.min perPage remainingRecords) (since_until dateRange)) s
        with
        | Return response s =>
            if len response =? 0 then Return commits s
            else
              let formatted := map (directCommit owner repo) response in
              let commits := commits ++ formatted in
              let s := set_totalFetched (totalFetched s + len formatted) s in
              if len response <? perPage then Return commits s
              else if checkTotalRecordsLimit s then
                let excess := totalFetched s - totalRecords config in
                if 0 <? excess
                then Return (splice_last excess commits)
                            (set_totalFetched (totalRecords config) s)
                else Return commits s
              else getRepositoryCommits_loop fuel' owner repo author dateRange
                     (page + 1) commits s
        | Throw error s =>
            if status_is error 409 || status_is error 404
            then Return commits s
            else Return commits
                   (push_error
                      (RepositoryCommitsError (owner ++ "/" ++ repo)
                         (error_message error)) s)
        | OutOfFuel => OutOfFuel
        end
  end.

Definition getRepositoryCommits (fuel : nat) (owner repo author : string)
    (dateRange : option Partition) : M (list Commit) :=
  getRepositoryCommits_loop fuel owner repo author dateRange 1 [].

(** [this.config.repo.split(",").map((r) => r.trim())] *)
Definition repoNames (r : string) : list string :=
  map trim (split_char "," r).

Definition includes_name (names : list string) (n : string) : bool :=
  existsb (String.eqb n) names.

(** The filter of [searchUserRepositoryCommits]. *)
Definition repo_selected (r : Repository) : bool :=
  if truthy (org config)
     && negb (String.eqb (owner_login r) (default ""%string (org config)))
  then false
  else if truthy (repo config)
  then includes_name (repoNames (default ""%string (repo config))) (name r)
  else true.

Fixpoint walk_repositories (fuel : nat) (searchUser : string)
    (dateRange : option Partition) (filteredRepos : list Repository)
    (allCommits : list Commit) (s : State) : Result (list Commit) :=
  match filteredRepos with
  | [] => Return allCommits s
  | r :: rest =>
      if cancelled s || checkTotalRecordsLimit s then Return allCommits s
      else
        match getRepositoryCommits fuel (owner_login r) (name r) searchUser
                dateRange s
        with
        | Return repoCommits s =>
            let allCommits := allCommits ++ repoCommits in
            if checkTotalRecordsLimit s then Return allCommits s
            else walk_repositories fuel searchUser dateRange rest allCommits s
        | Throw e s => Throw e s
        | OutOfFuel => OutOfFuel
        end
  end.

Definition searchUserRepositoryCommits (fuel : nat) (searchUser : string)
    (dateRange : option Partition) : M (list Commit) :=
  repos <-- getUserRepositories fuel searchUser ;;
  walk_repositories fuel searchUser dateRange (List.filter repo_selected repos) [].

Fixpoint searchPullRequestsForQuery_loop (fuel : nat) (query : string)
    (created : option Partition) (page : Z) (pullRequests : list PullRequest)
    (s : State) : Result (list PullRequest) :=
  match fuel with
  | O => OutOfFuel
  | S fuel' =>
      if cancelled s || checkTotalRecordsLimit s then Return pullRequests s
      else
        let perPage := 100 in
        let remainingRecords := getRemainingRecords s in
        match makeRequest
                (GET_search_issues api query created page
                   (Z.min perPage remainingRecords)) s
        with
        | Return items s =>
            if len items =? 0 then Return pullRequests s
            else
              let pullRequests := pullRequests ++ items in
              if len items <? perPage then Return pullRequests s
              else if checkTotalRecordsLimit s then
                let excess := len pullRequests - getRemainingRecords s in
                if 0 <? excess
                then Return (splice_last excess pullRequests) s
                else Return pullRequests s
              else searchPullRequestsForQuery_loop fuel' query created
                     (page + 1) pullRequests s
        | Throw error s =>
            if status_is error 422
               && includes "Only the first 1000" (error_message error)
            then Return pullRequests s
            else Throw error s
        | OutOfFuel => OutOfFuel
        end
  end.

Definition searchPullRequestsForQuery (fuel : nat) (query : string)
    (created : option Partition) : M (list PullRequest) :=
  searchPullRequestsForQuery_loop fuel query created 1 [].

(** [repoQueries.join(" OR ")] *)
Fixpoint join_OR (l : list string) : string :=
  match l with
  | [] => ""
  | [x] => x
  | x :: rest => x ++ " OR " ++ join_OR rest
  end.

(** The query string of [searchPullRequestsForUser]. *)
Definition buildQuery (baseQuery : string) : string :=
  (let query := baseQuery ++ " is:pr" in
  let query :=
    if truthy (org config)
    then query ++ " org:" ++ default ""%string (org config)
    else query in
  if truthy (repo config) then
    let names := repoNames (default ""%string (repo config)) in
    if truthy (org config) then
      let repoQueries :=
        map (fun n => "repo:" ++ default ""%string (org config) ++ "/" ++ n)
            names in
      baseQuery ++ " is:pr (" ++ join_OR repoQueries ++ ")"
    else
      let repoQueries := map (fun n => "repo:*/" ++ n) names in
      baseQuery ++ " is:pr (" ++ join_OR repoQueries ++ ")"
  else query)%string.

(** The [for (const partition of partitions)] loop. *)
Fixpoint search_partitions (fuel : nat) (query : string)
    (partitions : list Partition) (allPullRequests : list PullRequest)
    (s : State) : Result (list PullRequest) :=
  match partitions with
  | [] => Return allPullRequests s
  | partition :: rest =>
      if cancelled s || checkTotalRecordsLimit s then Return allPullRequests s
      else
        match searchPullRequestsForQuery fuel query (Some partition) s with
        | Return partitionResults s =>
            let allPullRequests := allPullRequests ++ partitionResults in
            if checkTotalRecordsLimit s then
              let excess := len allPullRequests - getRemainingRecords s in
              if 0 <? excess
              then Return (splice_last excess allPullRequests) s
              else Return allPullRequests s
            else search_partitions fuel query rest allPullRequests s
        | Throw e s => Throw e s
        | OutOfFuel => OutOfFuel
        end
  end.

Definition searchPullRequestsForUser (fuel : nat) (baseQuery : string)
    (dateRange : option Partition) : M (list PullRequest) :=
  let query := buildQuery baseQuery in
  match dateRange with
  | Some range =>
      if negb (ignoreDateRange config) then
        search_partitions fuel query
          (createDatePartitions (start range) (end_ range)) []
      else searchPullRequestsForQuery fuel query None
  | None => searchPullRequestsForQuery fuel query None
  end.

(** The duplicate test of the merge: same [number] and same
    [repository_url]. *)
Definition same_pull_request (pr p : PullRequest) : bool :=
  (number p =? number pr) && String.eqb (repository_url p) (repository_url pr).

(** [allPullRequests.filter((pr, index, self) =>
       index === self.findIndex((p) => ...))] *)
Definition uniquePullRequests (allPullRequests : list PullRequest)
  : list PullRequest :=
  filter_index
    (fun index pr => index =? findIndex (same_pull_request pr) allPullRequests)
    0 allPullRequests.

(** The merge of the two result sets and the record limit applied to it. *)
Definition mergePullRequests (authorResults userResults : list PullRequest)
  : M (list PullRequest) := fun s =>
  let allPullRequests := authorResults ++ userResults in
  let uniquePRs := uniquePullRequests allPullRequests in
  if 0 <? totalRecords config then
    let remainingRecords := getRemainingRecords s in
    let uniquePRs :=
      if remainingRecords <? len uniquePRs
      then splice_from remainingRecords uniquePRs
      else uniquePRs in
    Return uniquePRs (set_totalFetched (totalFetched s + len uniquePRs) s)
  else Return uniquePRs s.

(** The two searches are awaited jointly; neither writes the engine state,
    so their interleaving is not observable and they are run in turn. *)
Definition searchPullRequestsWithPartitioning (fuel : nat) (searchUser : string)
    (dateRange : option Partition) : M (list PullRequest) :=
  authorResults <--
    searchPullRequestsForUser fuel ("author:" ++ searchUser) dateRange ;;
  userResults <--
    searchPullRequestsForUser fuel ("user:" ++ searchUser) dateRange ;;
  mergePullRequests authorResults userResults.

(** The [baseCommit] object of [getPullRequestCommits]. *)
Definition pullRequestCommit (owner repo : string) (pullNumber : Z)
    (commit : ApiCommit) : Commit :=
  {| sha := commit_sha commit;
     message := commit_message commit;
     date := commit_committer_date commit;
     repository := owner ++ "/" ++ repo;
     type := pull_request;
     pullRequest := Some pullNumber;
     author := commit_author_name commit;
     url := commit_html_url commit |}.

Definition getPullRequestCommits (owner repo : string) (pullNumber : Z)
  : M (list Commit) :=
  try_catch
    (commits <-- makeRequest (GET_pull_commits api owner repo pullNumber) ;;
     ret (map (pullRequestCommit owner repo pullNumber) commits))
    (fun error s =>
       Return []
         (push_error
            (PullRequestCommitsError pullNumber (owner ++ "/" ++ repo)
               (error_message error)) s)).

(** The [for (const pr of pullRequests)] loop of [analyzeUserCommits]. *)
Fixpoint fetch_pr_commits (pullRequests : list PullRequest)
    (allPrCommits : list Commit) (s : State) : Result (list Commit) :=
  match pullRequests with
  | [] => Return allPrCommits s
  | pr :: rest =>
      if cancelled s || checkTotalRecordsLimit s then Return allPrCommits s
      else
        let '(owner, repo) := last_two (split_char "/" (repository_url pr)) in
        match getPullRequestCommits owner repo (number pr) s with
        | Return commits s => fetch_pr_commits rest (allPrCommits ++ commits) s
        | Throw e s => Throw e s
        | OutOfFuel => OutOfFuel
        end
  end.

End Engine.

(** *** Reconciler *)

Definition same_sha (prCommit c : Commit) : bool :=
  String.eqb (sha c) (sha prCommit).

(** [directCommit.type = "pull_request";
     directCommit.pullRequest = prCommit.pullRequest] *)
Definition mark_pull_request (prCommit directCommit : Commit) : Commit :=
  {| sha := sha directCommit;
     message := message directCommit;
     date := date directCommit;
     repository := repository directCommit;
     type := pull_request;
     pullRequest := pullRequest prCommit;
     author := author directCommit;
     url := url directCommit |}.

(** One iteration of the first loop: the first direct commit with the sha
    of [prCommit], if any, is updated in place. *)
Definition reclassify (prCommit : Commit) (directCommits : list Commit)
  : list Commit :=
  match find_first (same_sha prCommit) directCommits with
  | Some (i, directCommit) =>
      <[ i := mark_pull_request prCommit directCommit ]> directCommits
  | None => directCommits
  end.

(** "Update direct commits that are actually part of PRs" *)
Fixpoint updateDirectCommits (prCommits directCommits : list Commit)
  : list Commit :=
  match prCommits with
  | [] => directCommits
  | prCommit :: rest => updateDirectCommits rest (reclassify prCommit directCommits)
  end.

(** "Add PR commits that weren't found in direct search" *)
Fixpoint addPrCommits (prCommits directCommits : list Commit) : list Commit :=
  match prCommits with
  | [] => directCommits
  | prCommit :: rest =>
      match find_first (same_sha prCommit) directCommits with
      | None => addPrCommits rest (directCommits ++ [prCommit])
      | Some _ => addPrCommits rest directCommits
      end
  end.

Definition reconcile (directCommits prCommits : list Commit) : list Commit :=
  addPrCommits prCommits (updateDirectCommits prCommits directCommits).

(** *** The run *)

(** [analyzeUserCommits]: the value of [this.commits] at the end of the
    run (the [userId] stamp of the final [map] is not recorded). *)
Definition analyzeUserCommits (config : Config) (api : Api) (fuel : nat)
  : M (list Commit) :=
  _ <-- validateUser api (searchUser config) ;;
  let dateRange :=
    if negb (ignoreDateRange config) then
      match config_start config, config_end config with
      | Some a, Some b => Some {| start := a; end_ := b |}
      | _, _ => None
      end
    else None in
  directCommits <--
    searchUserRepositoryCommits config api fuel (searchUser config) dateRange ;;
  fun s =>
    if negb (cancelled s) && negb (checkTotalRecordsLimit config s) then
      (pullRequests <--
         searchPullRequestsWithPartitioning config api fuel (searchUser config)
           dateRange ;;
       fun s =>
         if (0 <? len pullRequests) && negb (cancelled s)
            && negb (checkTotalRecordsLimit config s)
         then
           (prCommits <-- fetch_pr_commits config api pullRequests [] ;;
            ret (reconcile directCommits prCommits)) s
         else Return directCommits s) s
    else Return directCommits s.

(** *** The report: groups and summary *)

Record CommitStats := {
  stats_total : Z;
  stats_additions : Z;
  stats_deletions : Z }.

(** An entry of [this.commits] as the report reads it. The engine never
    reads the detail fields, the report does: the commit comes here with
    [stats] and [files] (the file names), each absent when the details were
    not fetched. *)
Record ReportCommit := {
  commit : Commit;
  stats : option CommitStats;
  files : option (list string) }.

(** A value of [groupCommitsByRepository]. *)
Record RepositoryGroup := {
  group_direct : Z;                  (* direct *)
  group_pull_request : Z;            (* pull_request *)
  group_commits : list ReportCommit; (* commits *)
  group_userId : string;
  totalAdditions : Z;
  totalDeletions : Z;
  totalFiles : Z }.

(** [if (commit.stats) { ... += commit.stats.additions }] and the like. *)
Definition additions_of (c : ReportCommit) : Z :=
  match stats c with Some st => stats_additions st | None => 0 end.

Definition deletions_of (c : ReportCommit) : Z :=
  match stats c with Some st => stats_deletions st | None => 0 end.

Definition files_of (c : ReportCommit) : Z :=
  match files c with Some fs => len fs | None => 0 end.

(** The property names every JS object inherits from [Object.prototype].
    [grouped] is an object literal, so for such a key [grouped[key]] is the
    inherited function (or the prototype itself), not [undefined]. *)
Definition inherited (key : string) : bool :=
  existsb (String.eqb key)
    ["__proto__"; "constructor"; "hasOwnProperty"; "isPrototypeOf";
     "propertyIsEnumerable"; "toLocaleString"; "toString"; "valueOf";
     "__defineGetter__"; "__defineSetter__"; "__lookupGetter__";
     "__lookupSetter__"]%string.

(** One iteration of the loop of [groupCommitsByRepository]. For an
    inherited key [!grouped[key]] is false, no group is created, and
    [grouped[key].commits.push] raises a [TypeError] ([None]), [commits]
    being [undefined] on the inherited value. *)
Definition addToRepositoryGroup (searchUser : string)
    (grouped : gmap string RepositoryGroup) (c : ReportCommit)
  : option (gmap string RepositoryGroup) :=
  let key := repository (commit c) in
  if inherited key then None else
  let g :=
    match grouped !! key with
    | Some g => g
    | None =>
        {| group_direct := 0; group_pull_request := 0; group_commits := [];
           group_userId := searchUser;
           totalAdditions := 0; totalDeletions := 0; totalFiles := 0 |}
    end in
  Some (<[ key :=
     {| group_direct :=
          match type (commit c) with
          | direct => group_direct g + 1
          | pull_request => group_direct g
          end;
        group_pull_request :=
          match type (commit c) with
          | direct => group_pull_request g
          | pull_request => group_pull_request g + 1
          end;
        group_commits := group_commits g ++ [c];
        group_userId := group_userId g;
        totalAdditions := totalAdditions g + additions_of c;
        totalDeletions := totalDeletions g + deletions_of c;
        totalFiles := totalFiles g + files_of c |} ]> grouped).

(** [None] is the [TypeError] that leaves the loop. *)
Definition groupCommitsByRepository (searchUser : string)
    (commits : list ReportCommit) : option (gmap string RepositoryGroup) :=
  fold_left
    (fun grouped c =>
       match grouped with
       | Some grouped => addToRepositoryGroup searchUser grouped c
       | None => None
       end)
    commits (Some ∅).

(** A value of [groupCommitsByPullRequest]. *)
Record PullRequestGroup := {
  pr_repository : string;             (* repository *)
  pr_pullRequest : option Z;          (* pullRequest *)
  pr_userId : string;
  pr_commits : list ReportCommit;     (* commits *)
  pr_totalAdditions : Z;
  pr_totalDeletions : Z;
  pr_totalFiles : Z }.

(** A number in a template literal. *)
Definition number_to_string (n : Z) : string :=
  NilZero.string_of_int (Z.to_int n).

(** [commit.type === "pull_request" && commit.pullRequest]: the number is
    set and is not zero. *)
Definition in_pull_request (c : ReportCommit) : bool :=
  match type (commit c), pullRequest (commit c) with
  | pull_request, Some n => negb (n =? 0)
  | _, _ => false
  end.

(** [`${commit.repository}#${commit.pullRequest}`]. The key holds a [#],
    which no inherited property name does, so [grouped[key]] is [undefined]
    until the loop sets it. *)
Definition pullRequestKey (c : ReportCommit) : string :=
  (repository (commit c) ++ "#"
   ++ match pullRequest (commit c) with
      | Some n => number_to_string n
      | None => "null"
      end)%string.

(** One iteration of the loop of [groupCommitsByPullRequest]. *)
Definition addToPullRequestGroup (searchUser : string)
    (grouped : gmap string PullRequestGroup) (c : ReportCommit)
  : gmap string PullRequestGroup :=
  if in_pull_request c then
    let key := pullRequestKey c in
    let g :=
      match grouped !! key with
      | Some g => g
      | None =>
          {| pr_repository := repository (commit c);
             pr_pullRequest := pullRequest (commit c);
             pr_userId := searchUser;
             pr_commits := [];
             pr_totalAdditions := 0; pr_totalDeletions := 0;
             pr_totalFiles := 0 |}
      end in
    <[ key :=
       {| pr_repository := pr_repository g;
          pr_pullRequest := pr_pullRequest g;
          pr_userId := pr_userId g;
          pr_commits := pr_commits g ++ [c];
          pr_totalAdditions := pr_totalAdditions g + additions_of c;
          pr_totalDeletions := pr_totalDeletions g + deletions_of c;
          pr_totalFiles := pr_totalFiles g + files_of c |} ]> grouped
  else grouped.

Definition groupCommitsByPullRequest (searchUser : string)
    (commits : list ReportCommit) : gmap string PullRequestGroup :=
  fold_left (addToPullRequestGroup searchUser) commits ∅.

(** The figures of [summary] in [generateReport] that are computed from the
    commits ([dateRange], which parses the commit dates, is left out). *)
Record Summary := {
  totalCommits : Z;
  directCommits : Z;
  pullRequestCommits : Z;
  uniqueRepositories : Z;
  summary_uniquePullRequests : Z;
  summary_totalAdditions : Z;
  summary_totalDeletions : Z;
  totalFilesChanged : Z;
  totalRecordsFetched : Z }.

Definition is_type (t : CommitType) (c : ReportCommit) : bool :=
  match type (commit c), t with
  | direct, direct => true
  | pull_request, pull_request => true
  | _, _ => false
  end.

(** [c.pullRequest] as a condition: set and not zero. *)
Definition has_pull_request (c : ReportCommit) : bool :=
  match pullRequest (commit c) with
  | Some n => negb (n =? 0)
  | None => false
  end.

Definition summary (commits : list ReportCommit) (s : State) : Summary :=
  {| totalCommits := len commits;
     directCommits := len (List.filter (is_type direct) commits);
     pullRequestCommits := len (List.filter (is_type pull_request) commits);
     uniqueRepositories :=
       Z.of_nat (size (list_to_set (map (fun c => repository (commit c)) commits)
                       : gset string));
     summary_uniquePullRequests :=
       Z.of_nat (size (list_to_set
                         (map (fun c => pullRequest (commit c))
                              (List.filter has_pull_request commits))
                       : gset (option Z)));
     summary_totalAdditions :=
       fold_left (fun sum c => sum + additions_of c) commits 0;
     summary_totalDeletions :=
       fold_left (fun sum c => sum + deletions_of c) commits 0;
     totalFilesChanged := fold_left (fun sum c => sum + files_of c) commits 0;
     totalRecordsFetched := totalFetched s |}.

End AllUserCommit.

Import AllUserCommit.

(** ** The command line: [main] *)

(** The date checks of [main] once both dates are set and well-formed
    (they are skipped under [--ignoreDateRange], and then no partition is
    made): the process exits with status 1 and one of these messages. *)
Inductive CliExit :=
| StartAfterEnd      (* "Start date must be before end date" *)
| StartInFuture      (* "Start date cannot be in the future" *)
| EndInFuture.       (* "End date cannot be in the future" *)

Definition validateDateLogic (startDate endDate today : Z) : CliExit + unit :=
  if endDate <? startDate then inl StartAfterEnd
  else if today <? startDate then inl StartInFuture
  else if today <? endDate then inl EndInFuture
  else inr tt.

(** [parseMetaTags]: every [key=value] tag sets one property of the
    result. [tag.split("=")] is destructured into its first two pieces, a
    missing or empty piece is falsy, and an assignment to [__proto__] of a
    string sets no property. *)
Definition setMetaTag (metaTags : gmap string string) (tag : string)
  : gmap string string :=
  match split_char "=" tag with
  | key :: value :: _ =>
      if negb (String.eqb key "") && negb (String.eqb value "")
      then if String.eqb key "__proto__" then metaTags
           else <[ key := value ]> metaTags
      else metaTags
  | _ => metaTags
  end.

Definition parseMetaTags (tags : list string) : gmap string string :=
  fold_left setMetaTag tags ∅.

(** ** Dates in the time zone of the process *)

(** [createDatePartitions] and [generateDatePartitions] move their dates
    with [setDate] and [setMonth], which work on local time, and print them
    with [toISOString], which is UTC. Here a [Date] is its time value, the
    milliseconds since the epoch, and the time zone is a parameter.

    A time zone is ECMAScript's [LocalTZA]: the offset of local time from
    UTC in milliseconds, [offset_at] for a UTC time value and
    [offset_of_local] for a local one (a local time that a clock change
    skips or repeats reads the offset in force before the change). *)
Record TimeZone := {
  offset_at : Z -> Z;
  offset_of_local : Z -> Z }.

Definition msPerDay : Z := 86400000.

Definition LocalTime (tz : TimeZone) (t : Z) : Z := t + offset_at tz t.

Definition UTC (tz : TimeZone) (t : Z) : Z := t - offset_of_local tz t.

(** [new Date("YYYY-MM-DD")]: midnight UTC of the day. *)
Definition parseDate (day : Z) : Z := day * msPerDay.

(** [d.toISOString().split("T")[0]], as a day number. *)
Definition isoDate (t : Z) : Z := t / msPerDay.

(** [d.setDate(d.getDate() + n)]: the same local time of day, [n] local
    days later. *)
Definition addDays (tz : TimeZone) (t n : Z) : Z :=
  UTC tz (LocalTime tz t + n * msPerDay).

(** Year and month (1 to 12) of a day number, in the proleptic Gregorian
    calendar. *)
Definition year_month (day : Z) : Z * Z :=
  let z := day + 719468 in
  let era := z / 146097 in
  let doe := z - era * 146097 in
  let yoe := (doe - doe / 1460 + doe / 36524 - doe / 146096) / 365 in
  let doy := doe - (365 * yoe + yoe / 4 - yoe / 100) in
  let mp := (5 * doy + 2) / 153 in
  let m := if mp <? 10 then mp + 3 else mp - 9 in
  (yoe + era * 400 + (if m <=? 2 then 1 else 0), m).

Definition leap_year (y : Z) : bool :=
  ((y mod 4 =? 0) && negb (y mod 100 =? 0)) || (y mod 400 =? 0).

Definition days_in_month (y m : Z) : Z :=
  if m =? 2 then (if leap_year y then 29 else 28)
  else if (m =? 4) || (m =? 6) || (m =? 9) || (m =? 11) then 30
  else 31.

(** [d.setMonth(d.getMonth() + 1)]: the same local day of the month and
    time of day in the next month, that is the length of the local month
    later (a day the next month does not have runs over into the month
    after). *)
Definition addMonth (tz : TimeZone) (t : Z) : Z :=
  let local := LocalTime tz t in
  let '(y, m) := year_month (local / msPerDay) in
  UTC tz (local + days_in_month y m * msPerDay).

Module Zoned.

(** The [while (current < end)] loop of [AllUserCommit.createDatePartitions]
    on time values; [None] when the iteration bound cuts it. *)
Fixpoint partition_loop (tz : TimeZone) (fuel : nat) (current end' : Z)
  : option (list Partition) :=
  match fuel with
  | O => None
  | S fuel =>
      if current <? end' then
        let partitionEnd := addDays tz current 7 in
        let partitionEnd := if end' <? partitionEnd then end' else partitionEnd in
        match partition_loop tz fuel (addDays tz current 8) end' with
        | Some partitions =>
            Some ({| start := isoDate current; end_ := isoDate partitionEnd |}
                    :: partitions)
        | None => None
        end
      else Some []
  end.

(** [createDatePartitions] for two [YYYY-MM-DD] dates, given as day
    numbers. *)
Definition createDatePartitions (tz : TimeZone) (fuel : nat)
    (startDate endDate : Z) : option (list Partition) :=
  partition_loop tz fuel (parseDate startDate) (parseDate endDate).

End Zoned.

(** ** The retrying request executor of [GitHubDataEngine] *)

Module GitHubDataEngine.

(** A request error with the two response headers the executor reads. *)
Record RequestError := {
  status : option Z;
  ratelimit_remaining : option string;   (* headers["x-ratelimit-remaining"] *)
  ratelimit_reset : Z;                   (* parseInt(headers["x-ratelimit-reset"]) *)
  message : string }.

(** What the service answers to one attempt; a failure comes with the
    value of [Date.now()] (milliseconds) read by the handler. *)
Inductive Reply (Data : Type) :=
| Ok (response_status : Z) (data : Data)
| Failed (error : RequestError) (now : Z).
Arguments Ok {Data} _ _.
Arguments Failed {Data} _ _.

Inductive Event :=
| Request             (* this.octokit.request(path, params) *)
| Sleep (seconds : Z) (* this.sleep(seconds) *).

Inductive Outcome (Data : Type) :=
| Returned (data : Data)
| Thrown (error : RequestError)
| Undefined.          (* the loop ran out: the function returns nothing *)
Arguments Returned {Data} _.
Arguments Thrown {Data} _.
Arguments Undefined {Data}.

Definition maxRetries : Z := 3.

(** [error.status === 403 &&
     error.response?.headers?.["x-ratelimit-remaining"] === "0"] *)
Definition rate_limited (error : RequestError) : bool :=
  match status error, ratelimit_remaining error with
  | Some st, Some r => (st =? 403) && String.eqb r "0"
  | _, _ => false
  end.

(** [error.status >= 400] *)
Definition status_ge_400 (error : RequestError) : bool :=
  match status error with
  | Some st => 400 <=? st
  | None => false
  end.

(** [Math.ceil(waitTime / 1000)] for the rate-limit wait. *)
Definition reset_wait (error : RequestError) (now : Z) : Z :=
  let resetTime := ratelimit_reset error * 1000 in
  let waitTime := Z.max (resetTime - now) 0 + 1000 in
  (waitTime + 999) / 1000.

Section Executor.

Context {Data : Type}.

(** The [while (retries < maxRetries)] loop; [sent] counts the requests
    issued so far and selects the service's answer. *)
Equations? retry_loop (server : nat -> Reply Data) (sent : nat) (retries : Z)
  : Outcome Data * list Event
  by wf (Z.to_nat (maxRetries - retries)) lt :=
  retry_loop server sent retries with Z_lt_dec retries maxRetries => {
    | right _ => (Undefined, [])
    | left _ with server sent => {
        | Ok _ data => (Returned data, [Request])
        | Failed error now with rate_limited error => {
            | true =>
                let r := retry_loop server (S sent) (retries + 1) in
                (fst r, Request :: Sleep (reset_wait error now) :: snd r)
            | false with status_ge_400 error && (retries <? maxRetries - 1) => {
                | true =>
                    let waitTime := 2 ^ retries in
                    let r := retry_loop server (S sent) (retries + 1) in
                    (fst r, Request :: Sleep waitTime :: snd r)
                | false => (Thrown error, [Request]) } } } }.
Proof. all: unfold maxRetries in *; lia. Qed.

(** What one call of [makeRequest] does: its result, the requests and
    sleeps in order, and the call counter afterwards. *)
Record Run := {
  outcome : Outcome Data;
  trace : list Event;
  apiCallCount : Z }.

(** [if (this.apiCallCount > 1) await this.sleep(this.options.delay)],
    after the counter was incremented. *)
Definition pause (apiCallCount delay : Z) : list Event :=
  if 1 <? apiCallCount + 1 then [Sleep delay] else [].

(** [makeRequest]: the call counter, the delay before every call but the
    first, then the retry loop. *)
Definition makeRequest (apiCallCount delay : Z) (server : nat -> Reply Data)
  : Run :=
  let r := retry_loop server O 0 in
  {| outcome := fst r;
     trace := pause apiCallCount delay ++ snd r;
     apiCallCount := apiCallCount + 1 |}.

End Executor.

(** Number of requests issued in a trace. *)
Fixpoint requests (t : list Event) : nat :=
  match t with
  | [] => O
  | Request :: t' => S (requests t')
  | Sleep _ :: t' => requests t'
  end.

(** *** Date partitions by type *)

(** The [switch (partitionType)] of [generateDatePartitions]:
    [setDate(getDate() + 1)], [setDate(getDate() + 7)] or
    [setMonth(getMonth() + 1)] on a copy of [current]. *)
Definition partition_step (tz : TimeZone) (partitionType : string)
    (current : Z) : Z :=
  if String.eqb partitionType "daily" then addDays tz current 1
  else if String.eqb partitionType "weekly" then addDays tz current 7
  else if String.eqb partitionType "monthly" then addMonth tz current
  else addDays tz current 7.

(** The [while (current < end)] loop of [generateDatePartitions] on time
    values; the next partition starts one local day after the end of this
    one. [None] when the iteration bound cuts the loop. *)
Fixpoint generate_loop (tz : TimeZone) (fuel : nat) (partitionType : string)
    (current end' : Z) : option (list Partition) :=
  match fuel with
  | O => None
  | S fuel =>
      if current <? end' then
        let partitionEnd := partition_step tz partitionType current in
        let partitionEnd := if end' <? partitionEnd then end' else partitionEnd in
        match generate_loop tz fuel partitionType (addDays tz partitionEnd 1)
                end' with
        | Some partitions =>
            Some ({| start := isoDate current; end_ := isoDate partitionEnd |}
                    :: partitions)
        | None => None
        end
      else Some []
  end.

(** [generateDatePartitions] for two [YYYY-MM-DD] dates, given as day
    numbers. *)
Definition generateDatePartitions (tz : TimeZone) (fuel : nat)
    (startDate endDate : Z) (partitionType : string)
  : option (list Partition) :=
  generate_loop tz fuel partitionType (parseDate startDate) (parseDate endDate).

(** *** The merge of [fetchPullRequests] *)

(** [combinedResults.filter((pr, index, self) =>
       index === self.findIndex((p) => p.id === pr.id))] *)
Definition uniquePRs (combinedResults : list PullRequest) : list PullRequest :=
  filter_index
    (fun index pr =>
       index =? findIndex (fun p => pr_id p =? pr_id pr) combinedResults)
    0 combinedResults.

(** One partition of [fetchPullRequests] once both queries have answered:
    the results are combined, deduplicated, appended and counted. *)
Definition combineResults (allPullRequests authorResults userResults
    : list PullRequest) (totalRecordsFetched : Z) : list PullRequest * Z :=
  let combinedResults := authorResults ++ userResults in
  let uniquePRs := uniquePRs combinedResults in
  (allPullRequests ++ uniquePRs, totalRecordsFetched + len uniquePRs).

End GitHubDataEngine.

(** ** Vocabulary of the properties *)

(** A day [d] lies in a partition when [start <= d <= end]. *)
Definition covers (p : Partition) (d : Z) : Prop := start p <= d <= end_ p.

Definition covered (ps : list Partition) (d : Z) : Prop :=
  Exists (fun p => covers p d) ps.

(** Consecutive partitions: the next one starts the day after the previous
    one ends. *)
Fixpoint contiguous (ps : list Partition) : Prop :=
  match ps with
  | p :: ((q :: _) as rest) => start q = end_ p + 1 /\ contiguous rest
  | _ => True
  end.

Definition distinct_shas (commits : list Commit) : Prop :=
  NoDup (map sha commits).

(** The invariant between the two classification fields of a commit. *)
Definition classified (c : Commit) : Prop :=
  type c = pull_request <-> pullRequest c <> None.

(** [c] is the entry at position [i] and no earlier entry has its sha. *)
Definition first_with_sha (l : list Commit) (i : nat) (c : Commit) : Prop :=
  l !! i = Some c /\
  forall j c', (j < i)%nat -> l !! j = Some c' -> sha c' <> sha c.

(** What the first loop does to one direct commit: every pull-request
    commit with its sha overwrites the two classification fields. *)
Definition relabel (c : Commit) (prCommits : list Commit) : Commit :=
  fold_left (fun c pc => if same_sha pc c then mark_pull_request pc c else c)
            prCommits c.



(** A property of the value an [async] method returns, when it returns. *)
Definition returns {A} (P : A -> Prop) (r : Result A) : Prop :=
  match r with
  | Return a _ => P a
  | Throw _ _ => True
  | OutOfFuel => True
  end.


(** ** Sample inputs *)

(** 2024-01-01 as a day number. *)
Definition day_2024_01_01 : Z := 19723.

Definition sample_commit (sha repository : string) (type : CommitType)
    (pullRequest : option Z) : Commit :=
  {| sha := sha; message := "Fix bug"; date := "2024-01-15T10:00:00Z";
     repository := repository; type := type; pullRequest := pullRequest;
     author := "octocat";
     url := "https://github.com/" ++ repository ++ "/commit/" ++ sha |}.

Definition sample_pr (id number : Z) (repository_url : string) : PullRequest :=
  {| pr_id := id; number := number; repository_url := repository_url;
     title := "Add feature" |}.

Definition unlimited : Config :=
  {| searchUser := "octocat"; org := None; repo := None;
     ignoreDateRange := true; config_start := None; config_end := None;
     totalRecords := 0 |}.

Definition initial_state : State :=
  {| totalFetched := 0; errors := []; cancelled := false |}.

(** A small account on a well-behaved service: one repository with 40
    commits of the user, three pull requests found by both searches, eleven
    commits in each pull request. Listings honour [page] and [per_page]. *)
Definition numbered (prefix : string) (n : nat) : string :=
  prefix ++ NilEmpty.string_of_uint (Nat.to_uint n).

Definition sample_api_commit (sha : string) : ApiCommit :=
  {| commit_sha := sha;
     commit_message := "Update";
     commit_committer_date := "2024-01-15T10:00:00Z";
     commit_author_name := "octocat";
     commit_html_url := "https://github.com/octocat/hello/commit/" ++ sha |}.

Definition page_of {A} (items : list A) (page per_page : Z) : list A :=
  take (Z.to_nat per_page) (drop (Z.to_nat ((page - 1) * per_page)) items).

Definition hello_url : string := "https://api.github.com/repos/octocat/hello".

Definition sample_api : Api :=
  {| GET_user := fun username => Resolved 200 {| login := username |};
     GET_user_repos := fun _ page per_page =>
       Resolved 200
         (page_of [ {| owner_login := "octocat"; name := "hello";
                       full_name := "octocat/hello" |} ] page per_page);
     GET_repo_commits := fun _ _ _ page per_page _ =>
       Resolved 200
         (page_of (map (fun n => sample_api_commit (numbered "d" n)) (seq 1 40))
                  page per_page);
     GET_search_issues := fun _ _ page per_page =>
       Resolved 200
         (page_of [ sample_pr 101 1 hello_url; sample_pr 102 2 hello_url;
                    sample_pr 103 3 hello_url ] page per_page);
     GET_pull_commits := fun _ _ pullNumber =>
       Resolved 200
         (map (fun k =>
                 sample_api_commit
                   (numbered (numbered "p" (Z.to_nat pullNumber) ++ "-") k))
              (seq 1 11)) |}.

(** The same account when every listing answers 404, 409 or 500. *)
Definition failing_api (code : Z) : Api :=
  let error := {| status := Some code; error_message := "request failed" |} in
  {| GET_user := fun username => Resolved 200 {| login := username |};
     GET_user_repos := fun _ _ _ => Rejected error;
     GET_repo_commits := fun _ _ _ _ _ _ => Rejected error;
     GET_search_issues := fun _ _ _ _ => Rejected error;
     GET_pull_commits := fun _ _ _ => Rejected error |}.

(** [--totalRecords 50 --ignoreDateRange] *)
Definition budget50 : Config :=
  {| searchUser := "octocat"; org := None; repo := None;
     ignoreDateRange := true; config_start := None; config_end := None;
     totalRecords := 50 |}.

(** A rate-limit answer (403, no quota left, reset at second 1000) and a
    server error. *)
Definition quota_exhausted : GitHubDataEngine.RequestError :=
  {| GitHubDataEngine.status := Some 403;
     GitHubDataEngine.ratelimit_remaining := Some "0"%string;
     GitHubDataEngine.ratelimit_reset := 1000;
     GitHubDataEngine.message := "API rate limit exceeded" |}.

Definition server_error : GitHubDataEngine.RequestError :=
  {| GitHubDataEngine.status := Some 502;
     GitHubDataEngine.ratelimit_remaining := Some "4999"%string;
     GitHubDataEngine.ratelimit_reset := 1000;
     GitHubDataEngine.message := "Bad Gateway" |}.

Definition network_error : GitHubDataEngine.RequestError :=
  {| GitHubDataEngine.status := None;
     GitHubDataEngine.ratelimit_remaining := None;
     GitHubDataEngine.ratelimit_reset := 0;
     GitHubDataEngine.message := "socket hang up" |}.

(** The service answers the listed replies in turn, then succeeds. *)
Definition scripted (replies : list (GitHubDataEngine.Reply string))
  : nat -> GitHubDataEngine.Reply string :=
  fun n => nth n replies (GitHubDataEngine.Ok 200 "data"%string).

(** ** Vocabulary of the further properties *)

(** The set of shas of a collection of commits. *)
Definition sha_set (commits : list Commit) : gset string :=
  list_to_set (sha <$> commits).

(** The only writes of an operation on the engine state: [n] more records
    counted, errors appended; the cancellation flag is not touched. *)
Definition counted (n : Z) (s s' : State) : Prop :=
  totalFetched s' = totalFetched s + n /\
  cancelled s' = cancelled s /\
  exists new_errors, errors s' = errors s ++ new_errors.

(** An operation that leaves the engine state as it found it, whether it
    returns or throws. *)
Definition unchanged {A} (s : State) (r : Result A) : Prop :=
  match r with
  | Return _ s' => s' = s
  | Throw _ s' => s' = s
  | OutOfFuel => True
  end.

(** A service that never answers a listing with more entries than the
    [per_page] it was asked for. *)
Definition honours_per_page (api : Api) : Prop :=
  (forall username page per_page response_status items,
      0 <= per_page ->
      GET_user_repos api username page per_page
        = Resolved response_status items ->
      len items <= per_page) /\
  (forall owner repo author page per_page range response_status items,
      0 <= per_page ->
      GET_repo_commits api owner repo author page per_page range
        = Resolved response_status items ->
      len items <= per_page).

(** ** Further sample inputs *)

(** A search that has ten full pages and is refused the eleventh, as the
    search API does past its first 1000 results. *)
Definition search_page (page : Z) : list PullRequest :=
  map (fun k => sample_pr (page * 1000 + Z.of_nat k) (page * 1000 + Z.of_nat k)
                  hello_url) (seq 1 100).

Definition search_ceiling_error : JsError :=
  {| status := Some 422;
     error_message := "Only the first 1000 search results are available" |}.

Definition capped_search_api : Api :=
  {| GET_user := fun username => Resolved 200 {| login := username |};
     GET_user_repos := fun _ _ _ => Resolved 200 [];
     GET_repo_commits := fun _ _ _ _ _ _ => Resolved 200 [];
     GET_search_issues := fun _ _ page _ =>
       if page <=? 10 then Resolved 200 (search_page page)
       else Rejected search_ceiling_error;
     GET_pull_commits := fun _ _ _ => Resolved 200 [] |}.

(** The commits one pull request contributes: those of its commit listing,
    or none when the listing fails. *)
Definition listed_commits (api : Api) (pr : PullRequest) : list Commit :=
  let '(owner, repo) := last_two (split_char "/" (repository_url pr)) in
  match GET_pull_commits api owner repo (number pr) with
  | Resolved response_status commits =>
      if response_status =? 200
      then map (pullRequestCommit owner repo (number pr)) commits
      else []
  | Rejected _ => []
  end.

(** A failed attempt after which [GitHubDataEngine.makeRequest] tries again
    when attempts are left: the rate limit, or a status of 400 or more. *)
Definition retryable (error : GitHubDataEngine.RequestError) : bool :=
  GitHubDataEngine.rate_limited error || GitHubDataEngine.status_ge_400 error.

(** A left-to-right pass that keeps an entry when no earlier entry has its
    key; [seen] holds the keys met so far. *)
Fixpoint first_by {A K} `{EqDecision K} (key : A -> K) (seen : list K)
    (l : list A) : list A :=
  match l with
  | [] => []
  | x :: l' =>
      if decide (key x ∈ seen)
      then first_by key (seen ++ [key x]) l'
      else x :: first_by key (seen ++ [key x]) l'
  end.

(** [s.includes(c)] for one character. *)
Fixpoint has_char (c : ascii) (s : string) : bool :=
  match s with
  | EmptyString => false
  | String a s' => Ascii.eqb a c || has_char c s'
  end.

(** The commits of one repository, in the order of the collection. *)
Definition repository_commits (r : string) (commits : list ReportCommit)
  : list ReportCommit :=
  List.filter (fun c => String.eqb (repository (commit c)) r) commits.

(** The commits of one pull-request group, in the order of the collection. *)
Definition pull_request_commits (key : string) (commits : list ReportCommit)
  : list ReportCommit :=
  List.filter (fun c => in_pull_request c && String.eqb (pullRequestKey c) key)
              commits.

Definition sum_of (f : ReportCommit -> Z) (commits : list ReportCommit) : Z :=
  fold_left (fun sum c => sum + f c) commits 0.

Definition sample_report_commit (sha repository : string) (type : CommitType)
    (pullRequest : option Z) (additions deletions : Z) : ReportCommit :=
  {| commit := sample_commit sha repository type pullRequest;
     stats := Some {| stats_total := additions + deletions;
                      stats_additions := additions;
                      stats_deletions := deletions |};
     files := Some ["README.md"%string] |}.

Definition sample_report_commits : list ReportCommit :=
  [sample_report_commit "a1" "octo/app" direct None 3 1;
   sample_report_commit "b2" "octo/lib" pull_request (Some 7) 2 2;
   sample_report_commit "c3" "octo/app" pull_request (Some 9) 5 0].

(** ** Time zones *)

(** No clock change between two dates: local time has one offset from UTC
    at every time from midnight UTC of [first] to midnight UTC of [last],
    read as a UTC time or as a local time. *)
Definition no_clock_change (tz : TimeZone) (first last : Z) : Prop :=
  exists offset,
    forall t, parseDate first <= t <= parseDate last ->
      offset_at tz t = offset /\ offset_of_local tz (t + offset) = offset.

Definition msPerHour : Z := 3600000.

Definition utc : TimeZone :=
  {| offset_at := fun _ => 0; offset_of_local := fun _ => 0 |}.

(** New York in 2024: UTC-5, and UTC-4 from 2024-03-10 07:00 UTC (local
    02:00 becomes 03:00) to 2024-11-03 06:00 UTC (local 02:00 becomes
    01:00). *)
Definition new_york : TimeZone :=
  let spring := (day_2024_01_01 + 69) * msPerDay in
  let autumn := (day_2024_01_01 + 307) * msPerDay in
  {| offset_at := fun t =>
       if (spring + 7 * msPerHour <=? t) && (t <? autumn + 6 * msPerHour)
       then -4 * msPerHour else -5 * msPerHour;
     offset_of_local := fun t =>
       if (spring + 3 * msPerHour <=? t) && (t <? autumn + 2 * msPerHour)
       then -4 * msPerHour else -5 * msPerHour |}.

(** ** Classification of commits *)

(** What the repository walk builds: a direct commit, no pull request. *)
Definition walked (c : Commit) : Prop :=
  type c = direct /\ pullRequest c = None.

(** What [getPullRequestCommits] builds for the pull request [pullNumber]. *)
Definition listed_in (pullNumber : Z) (c : Commit) : Prop :=
  type c = pull_request /\ pullRequest c = Some pullNumber.

(** [c] is classified as a commit of the pull request [pr], and the commit
    listing of [pr] holds an entry with its sha. *)
Definition commit_of (api : Api) (pr : PullRequest) (c : Commit) : Prop :=
  listed_in (number pr) c /\
  exists response_status commits x,
    (let '(owner, repo) := last_two (split_char "/" (repository_url pr)) in
     GET_pull_commits api owner repo (number pr))
    = Resolved response_status commits /\
    x ∈ commits /\ commit_sha x = sha c.

(** [c] was reclassified from, or is, a pull-request commit of the list:
    it has type [pull_request] and the pull-request number of an entry with
    its sha. *)
Definition reclassified_from (prCommits : list Commit) (c : Commit) : Prop :=
  exists prCommit,
    prCommit ∈ prCommits /\ sha prCommit = sha c /\
    type c = pull_request /\ pullRequest c = pullRequest prCommit.

(** An account with a fork: the user owns [octocat/hello], a fork of
    [octo-org/hello], of which they are a member, so that the listing of
    their repositories (type "all") has both. The commit [abc] is in both
    repositories and in pull request 5 of [octo-org/hello]. *)
Definition fork_api : Api :=
  {| GET_user := fun username => Resolved 200 {| login := username |};
     GET_user_repos := fun _ page per_page =>
       Resolved 200
         (page_of [ {| owner_login := "octocat"; name := "hello";
                       full_name := "octocat/hello" |};
                    {| owner_login := "octo-org"; name := "hello";
                       full_name := "octo-org/hello" |} ] page per_page);
     GET_repo_commits := fun owner _ _ page per_page _ =>
       Resolved 200
         (page_of (if String.eqb owner "octocat"
                   then [ sample_api_commit "abc"; sample_api_commit "def" ]
                   else [ sample_api_commit "abc" ])
                  page per_page);
     GET_search_issues := fun _ _ page per_page =>
       Resolved 200
         (page_of [ sample_pr 101 5 "https://api.github.com/repos/octo-org/hello" ]
                  page per_page);
     GET_pull_commits := fun _ _ _ =>
       Resolved 200 [ sample_api_commit "abc"; sample_api_commit "fff" ] |}.

(** The fields of a commit that reconciliation is about. *)
Definition classification (c : Commit) : string * string * CommitType * option Z :=
  (sha c, repository c, type c, pullRequest c).


(** * Properties *)

(** ** Date partitioner *)

Lemma partition_loop_step current end' :
  partition_loop current end' =
  if current <? end'
  then {| start := current;
          end_ := if end' <? current + 7 then end' else current + 7 |}
       :: partition_loop (current + 8) end'
  else [].
Proof.
  rewrite partition_loop_equation_1.
  destruct (Z_lt_dec current end') as [H|H]; simpl.
  - apply Z.ltb_lt in H. rewrite H. reflexivity.
  - apply Z.ltb_nlt in H. rewrite H. reflexivity.
Qed.

(** Induction along the loop: [current] moves towards [end']. *)
Lemma partition_loop_ind (P : Z -> Z -> Prop) :
  (forall c e, e <= c -> P c e) ->
  (forall c e, c < e -> P (c + 8) e -> P c e) ->
  forall c e, P c e.
Proof.
  intros Hstop Hstep c e.
  remember (Z.to_nat (e - c)) as n eqn:Hn.
  revert c Hn. induction (lt_wf n) as [n _ IH]. intros c Hn.
  destruct (Z_lt_dec c e) as [Hlt|Hge].
  - apply Hstep; [exact Hlt|].
    apply (IH (Z.to_nat (e - (c + 8)))); [lia | reflexivity].
  - apply Hstop. lia.
Qed.

Lemma partitions_empty startDate endDate :
  endDate <= startDate -> createDatePartitions startDate endDate = [].
Proof.
  intros H. unfold createDatePartitions. rewrite partition_loop_step.
  destruct (startDate <? endDate) eqn:E; [apply Z.ltb_lt in E; lia | reflexivity].
Qed.

(** Which days the partitions cover: the days of the range, but for the
    last day when it falls a multiple of 8 days after the start. *)
Lemma covered_iff startDate endDate d :
  covered (createDatePartitions startDate endDate) d <->
  startDate <= d <= endDate /\ startDate < endDate /\
  ~ (d = endDate /\ (endDate - startDate) mod 8 = 0).
Proof.
  unfold createDatePartitions, covered.
  revert d. pattern startDate, endDate. apply partition_loop_ind; clear.
  - intros c e Hge d. rewrite partition_loop_step.
    destruct (c <? e) eqn:E; [apply Z.ltb_lt in E; lia|].
    rewrite Exists_nil. lia.
  - intros c e Hlt IH d. rewrite partition_loop_step.
    apply Z.ltb_lt in Hlt as Hb. rewrite Hb.
    rewrite Exists_cons, IH. unfold covers; simpl.
    replace (e - (c + 8)) with (e - c + (-1) * 8) by lia.
    rewrite Z.mod_add by lia.
    assert (Hm : 0 < e - c < 8 -> (e - c) mod 8 <> 0)
      by (intros ?; rewrite Z.mod_small; lia).
    assert (H8 : e - c = 8 -> (e - c) mod 8 = 0)
      by (intros ->; reflexivity).
    destruct (e <? c + 7) eqn:E7;
      [apply Z.ltb_lt in E7 | apply Z.ltb_ge in E7]; lia.
Qed.

(** The partitions are contiguous: each starts the day after the previous
    one ends. *)
Lemma partitions_contiguous startDate endDate :
  contiguous (createDatePartitions startDate endDate).
Proof.
  unfold createDatePartitions.
  pattern startDate, endDate. apply partition_loop_ind; clear.
  - intros c e Hge. rewrite partition_loop_step.
    destruct (c <? e) eqn:E; [apply Z.ltb_lt in E; lia | exact I].
  - intros c e Hlt IH. rewrite partition_loop_step.
    apply Z.ltb_lt in Hlt as Hb. rewrite Hb.
    revert IH. rewrite (partition_loop_step (c + 8) e).
    destruct (c + 8 <? e) eqn:E8; [|intros _; exact I].
    intros IH. split; [|exact IH]. simpl.
    apply Z.ltb_lt in E8.
    destruct (e <? c + 7) eqn:E7; [apply Z.ltb_lt in E7|]; lia.
Qed.

(** Away from the boundary case every day of the range is covered. *)
Lemma partitions_cover startDate endDate d :
  (endDate - startDate) mod 8 <> 0 ->
  startDate <= d <= endDate ->
  covered (createDatePartitions startDate endDate) d.
Proof.
  intros Hm Hd. apply covered_iff.
  assert (startDate <> endDate).
  { intros ->. apply Hm. rewrite Z.sub_diag. reflexivity. }
  lia.
Qed.

(** The scenario of the specification: 2024-01-01 to 2024-01-10. *)
Example partition_scenario :
  createDatePartitions day_2024_01_01 (day_2024_01_01 + 9) =
  [ {| start := day_2024_01_01; end_ := day_2024_01_01 + 7 |};
    {| start := day_2024_01_01 + 8; end_ := day_2024_01_01 + 9 |} ].
Proof. reflexivity. Qed.

(** C2: when the end date falls a multiple of 8 days after the start date
    (the start date itself included), the last day of the range lies in no
    partition, so the partitions do not cover the range [start, end]. *)
Theorem createDatePartitions_misses_boundary_day startDate k :
  0 <= k ->
  ~ covered (createDatePartitions startDate (startDate + 8 * k))
            (startDate + 8 * k).
Proof.
  intros Hk Hc. apply covered_iff in Hc.
  destruct Hc as (_ & _ & Hn). apply Hn. split; [reflexivity|].
  replace (startDate + 8 * k - startDate) with (k * 8) by lia.
  apply Z.mod_mul. lia.
Qed.

Lemma createDatePartitions_misses_boundary_day_witness :
  0 <= 1 /\
  createDatePartitions day_2024_01_01 (day_2024_01_01 + 8 * 1) =
    [ {| start := day_2024_01_01; end_ := day_2024_01_01 + 7 |} ] /\
  ~ covered (createDatePartitions day_2024_01_01 (day_2024_01_01 + 8 * 1))
            (day_2024_01_01 + 8 * 1).
Proof.
  split; [lia|]. split; [reflexivity|].
  apply (createDatePartitions_misses_boundary_day day_2024_01_01 1). lia.
Defined.

(** C7 (as stated, refuted): a single-day range yields no partition at all,
    and a range whose start is after its end yields the empty list, not a
    failure. *)
Lemma createDatePartitions_degenerate_counterexample :
  createDatePartitions day_2024_01_01 day_2024_01_01
    <> [ {| start := day_2024_01_01; end_ := day_2024_01_01 |} ] /\
  createDatePartitions (day_2024_01_01 + 1) day_2024_01_01 = [].
Proof. split; [discriminate | reflexivity]. Qed.

(** C7 (amended): [createDatePartitions] raises no error; for a start date
    strictly after the end date it returns the empty list, and such a range
    is rejected beforehand by the date check of [main]. *)
Theorem start_after_end_rejected_by_main startDate endDate today :
  endDate < startDate ->
  createDatePartitions startDate endDate = [] /\
  validateDateLogic startDate endDate today = inl StartAfterEnd.
Proof.
  intros H. split.
  - apply partitions_empty. lia.
  - unfold validateDateLogic. apply Z.ltb_lt in H. rewrite H. reflexivity.
Qed.

Lemma start_after_end_rejected_by_main_witness :
  day_2024_01_01 < day_2024_01_01 + 1 /\
  createDatePartitions (day_2024_01_01 + 1) day_2024_01_01 = [] /\
  validateDateLogic (day_2024_01_01 + 1) day_2024_01_01 (day_2024_01_01 + 30)
    = inl StartAfterEnd.
Proof.
  split; [unfold day_2024_01_01; lia|].
  apply (start_after_end_rejected_by_main
           (day_2024_01_01 + 1) day_2024_01_01 (day_2024_01_01 + 30)).
  unfold day_2024_01_01; lia.
Defined.

(** ** Reconciler *)

Lemma same_sha_true pc c : same_sha pc c = true <-> sha c = sha pc.
Proof. unfold same_sha. apply String.eqb_eq. Qed.

Lemma same_sha_false pc c : same_sha pc c = false <-> sha c <> sha pc.
Proof. unfold same_sha. apply String.eqb_neq. Qed.

Lemma find_first_Some {A} (p : A -> bool) l i x :
  find_first p l = Some (i, x) ->
  l !! i = Some x /\ p x = true /\
  forall j y, (j < i)%nat -> l !! j = Some y -> p y = false.
Proof.
  revert i. induction l as [|a l IH]; intros i H; simpl in H; [discriminate|].
  destruct (p a) eqn:Ea.
  - inversion H; subst. repeat split; [exact Ea|]. intros j y Hj. lia.
  - destruct (find_first p l) as [[k z]|] eqn:Ef; [|discriminate].
    inversion H; subst. destruct (IH k eq_refl) as (Hl & Hp & Hb).
    repeat split; [exact Hl | exact Hp |].
    intros [|j] y Hj Hy; simpl in Hy.
    + congruence.
    + apply (Hb j); [lia | exact Hy].
Qed.

Lemma find_first_None {A} (p : A -> bool) l :
  find_first p l = None <-> forall x, x ∈ l -> p x = false.
Proof.
  induction l as [|a l IH]; simpl.
  - split; [intros _ x Hx; inversion Hx | reflexivity].
  - destruct (p a) eqn:Ea.
    + split; [discriminate|]. intros H.
      rewrite (H a) in Ea by apply list_elem_of_here. discriminate.
    + destruct (find_first p l) as [[k z]|] eqn:Ef.
      * split; [discriminate|]. intros H.
        assert (Hn : Some (k, z) = None); [|discriminate].
        apply IH. intros x Hx. apply H. apply list_elem_of_further, Hx.
      * split; [|reflexivity]. intros _ x Hx.
        apply elem_of_cons in Hx as [->|Hx]; [exact Ea|].
        apply IH; [reflexivity | exact Hx].
Qed.

(** The first entry satisfying [p], located. *)
Lemma find_first_at {A} (p : A -> bool) l i x :
  l !! i = Some x -> p x = true ->
  (forall j y, (j < i)%nat -> l !! j = Some y -> p y = false) ->
  find_first p l = Some (i, x).
Proof.
  revert i. induction l as [|a l IH]; intros i Hl Hp Hb; [discriminate|].
  simpl. destruct i as [|i]; simpl in Hl.
  - inversion Hl; subst. rewrite Hp. reflexivity.
  - rewrite (Hb O a); [| lia | reflexivity].
    rewrite (IH i Hl Hp); [reflexivity|].
    intros j y Hj Hy. apply (Hb (S j)); [lia | exact Hy].
Qed.

Lemma sha_mark_pull_request pc c : sha (mark_pull_request pc c) = sha c.
Proof. reflexivity. Qed.

(** Reclassification leaves every sha, and so the length, as it is. *)
Lemma reclassify_shas pc l : map sha (reclassify pc l) = map sha l.
Proof.
  unfold reclassify.
  destruct (find_first (same_sha pc) l) as [[i c]|] eqn:E; [|reflexivity].
  apply find_first_Some in E as (Hl & _ & _).
  change (sha <$> <[i:=mark_pull_request pc c]> l = sha <$> l).
  rewrite list_fmap_insert. apply list_insert_id.
  rewrite list_lookup_fmap, Hl. reflexivity.
Qed.

Lemma updateDirectCommits_shas prs l :
  map sha (updateDirectCommits prs l) = map sha l.
Proof.
  revert l. induction prs as [|pc prs IH]; intros l; simpl; [reflexivity|].
  rewrite IH. apply reclassify_shas.
Qed.

Lemma updateDirectCommits_length prs l :
  length (updateDirectCommits prs l) = length l.
Proof.
  rewrite <- (length_map sha), updateDirectCommits_shas. apply length_map.
Qed.

Lemma addPrCommits_distinct prs l :
  distinct_shas l -> distinct_shas (addPrCommits prs l).
Proof.
  unfold distinct_shas.
  revert l. induction prs as [|pc prs IH]; intros l Hnd; simpl; [exact Hnd|].
  destruct (find_first (same_sha pc) l) as [[i c]|] eqn:E.
  - apply IH, Hnd.
  - apply IH. rewrite map_app. simpl.
    apply NoDup_app. split; [exact Hnd|]. split; [|apply NoDup_singleton].
    intros x Hx Hx'. apply list_elem_of_singleton in Hx'. subst x.
    apply (list_elem_of_fmap sha) in Hx as (c & Hc & Hin).
    pose proof (proj1 (find_first_None _ _) E c Hin) as Hf.
    apply same_sha_false in Hf. congruence.
Qed.

(** When the direct commits have pairwise distinct shas, no two entries of
    the reconciled collection share a sha, whatever the pull-request
    commits are. *)
Lemma reconcile_distinct_shas directCommits prCommits :
  distinct_shas directCommits ->
  distinct_shas (reconcile directCommits prCommits).
Proof.
  intros H. unfold reconcile. apply addPrCommits_distinct.
  unfold distinct_shas. rewrite updateDirectCommits_shas. exact H.
Qed.

(** The second loop only appends. *)
Lemma addPrCommits_extends prs l : exists added, addPrCommits prs l = l ++ added.
Proof.
  revert l. induction prs as [|pc prs IH]; intros l; simpl.
  - exists []. rewrite app_nil_r. reflexivity.
  - destruct (find_first (same_sha pc) l); [apply IH|].
    destruct (IH (l ++ [pc])) as [added ->].
    exists (pc :: added). rewrite <- app_assoc. reflexivity.
Qed.

(** C1: reconciliation removes no entry, so a sha that the direct commits
    repeat is repeated in its output, whatever the pull-request commits
    are; and a run reaches that state: a commit that the repository walk
    meets in a fork and in its upstream stays twice in the final
    collection. *)
Theorem reconcile_keeps_repeated_sha :
  (forall directCommits prCommits,
      ~ distinct_shas directCommits ->
      ~ distinct_shas (reconcile directCommits prCommits)) /\
  match analyzeUserCommits unlimited fork_api 10 initial_state with
  | Return commits _ =>
      map sha commits = ["abc"; "def"; "abc"; "fff"]%string /\
      ~ distinct_shas commits
  | Throw _ _ => False
  | OutOfFuel => False
  end.
Proof.
  split.
  - intros directCommits prCommits Hrepeated Hdistinct. apply Hrepeated.
    unfold reconcile, distinct_shas in *.
    destruct (addPrCommits_extends prCommits
                (updateDirectCommits prCommits directCommits))
      as [added Hadded].
    rewrite Hadded, map_app in Hdistinct.
    apply NoDup_app in Hdistinct as [Hdistinct _].
    rewrite updateDirectCommits_shas in Hdistinct. exact Hdistinct.
  - vm_compute. split; [reflexivity|]. intros Hdistinct.
    apply NoDup_cons in Hdistinct as [Hfirst _]. apply Hfirst.
    apply list_elem_of_further, list_elem_of_here.
Qed.

Lemma reclassify_hit pc l i c :
  first_with_sha l i c -> sha pc = sha c ->
  reclassify pc l = <[ i := mark_pull_request pc c ]> l.
Proof.
  intros [Hl Hfirst] Hsha. unfold reclassify.
  rewrite (find_first_at (same_sha pc) l i c); [reflexivity | exact Hl | |].
  - apply same_sha_true. congruence.
  - intros j y Hj Hy. apply same_sha_false. rewrite Hsha. eapply Hfirst; eauto.
Qed.

Lemma reclassify_miss pc l i c :
  l !! i = Some c -> sha pc <> sha c -> reclassify pc l !! i = Some c.
Proof.
  intros Hl Hsha. unfold reclassify.
  destruct (find_first (same_sha pc) l) as [[k d]|] eqn:E; [|exact Hl].
  apply find_first_Some in E as (Hk & Hp & _). apply same_sha_true in Hp.
  rewrite list_lookup_insert_ne; [exact Hl|].
  intros ->. rewrite Hl in Hk. inversion Hk; subst. congruence.
Qed.

Lemma lookup_same_sha (l l' : list Commit) j c' :
  map sha l' = map sha l -> l' !! j = Some c' ->
  exists c, l !! j = Some c /\ sha c = sha c'.
Proof.
  intros Hm Hj.
  assert (H : (sha <$> l) !! j = Some (sha c')).
  { change (sha <$> l) with (map sha l). rewrite <- Hm.
    change (map sha l') with (sha <$> l').
    rewrite list_lookup_fmap, Hj. reflexivity. }
  rewrite list_lookup_fmap in H.
  destruct (l !! j) as [c|]; [|discriminate].
  exists c. split; [reflexivity|]. simpl in H. congruence.
Qed.

Lemma reclassify_step pc l i c :
  first_with_sha l i c ->
  first_with_sha (reclassify pc l) i
    (if same_sha pc c then mark_pull_request pc c else c).
Proof.
  intros Hf. pose proof Hf as [Hl Hfirst].
  assert (Hi : (i < length l)%nat) by (eapply lookup_lt_Some; eauto).
  split.
  - destruct (same_sha pc c) eqn:E.
    + apply same_sha_true in E.
      rewrite (reclassify_hit pc l i c Hf) by congruence.
      apply list_lookup_insert_eq, Hi.
    + apply same_sha_false in E. apply reclassify_miss; [exact Hl | congruence].
  - intros j c' Hj Hc'.
    destruct (lookup_same_sha l _ j c' (reclassify_shas pc l) Hc')
      as (d & Hd & Hsd).
    rewrite <- Hsd.
    replace (sha (if same_sha pc c then mark_pull_request pc c else c))
      with (sha c) by (destruct (same_sha pc c); reflexivity).
    eapply Hfirst; eauto.
Qed.

Lemma updateDirectCommits_at prs l i c :
  first_with_sha l i c ->
  first_with_sha (updateDirectCommits prs l) i (relabel c prs).
Proof.
  revert l c. induction prs as [|pc prs IH]; intros l c Hf; simpl; [exact Hf|].
  apply IH, reclassify_step, Hf.
Qed.

Lemma relabel_sha c prs : sha (relabel c prs) = sha c.
Proof.
  unfold relabel.
  revert c. induction prs as [|p prs IH]; intros c; simpl; [reflexivity|].
  rewrite IH. destruct (same_sha p c); reflexivity.
Qed.

Lemma mark_relabel pc c prs :
  mark_pull_request pc (relabel c prs) = mark_pull_request pc c.
Proof.
  unfold relabel.
  revert c. induction prs as [|p prs IH]; intros c; simpl; [reflexivity|].
  rewrite IH. destruct (same_sha p c); reflexivity.
Qed.

Lemma relabel_untouched c prs :
  (forall p, p ∈ prs -> sha p <> sha c) -> relabel c prs = c.
Proof.
  unfold relabel.
  revert c. induction prs as [|p prs IH]; intros c H; simpl; [reflexivity|].
  assert (E : same_sha p c = false).
  { apply same_sha_false. intros Heq. apply (H p); [apply list_elem_of_here|].
    congruence. }
  rewrite E. apply IH. intros q Hq. apply H, list_elem_of_further, Hq.
Qed.

(** The last pull-request commit with the sha decides. *)
Lemma relabel_last c before pc after :
  sha pc = sha c ->
  (forall p, p ∈ after -> sha p <> sha c) ->
  relabel c (before ++ pc :: after) = mark_pull_request pc c.
Proof.
  intros Hsha Hafter. unfold relabel. rewrite fold_left_app. simpl.
  fold (relabel c before).
  assert (E : same_sha pc (relabel c before) = true).
  { apply same_sha_true. rewrite relabel_sha. congruence. }
  rewrite E, mark_relabel.
  apply (relabel_untouched (mark_pull_request pc c) after). exact Hafter.
Qed.

(** A direct commit that is the first entry with its sha and whose sha
    appears among the pull-request commits keeps its place and its other
    fields, gets type [pull_request] and the pull-request number of the last
    pull-request commit with that sha. *)
Lemma reconcile_reclassifies_first_copy directCommits before prCommit after i c :
  first_with_sha directCommits i c ->
  sha prCommit = sha c ->
  (forall p, p ∈ after -> sha p <> sha c) ->
  reconcile directCommits (before ++ prCommit :: after) !! i
    = Some (mark_pull_request prCommit c).
Proof.
  intros [Hl Hfirst] Hsha Hafter.
  destruct (updateDirectCommits_at (before ++ prCommit :: after)
              directCommits i c (conj Hl Hfirst)) as [Hu _].
  rewrite (relabel_last c before prCommit after Hsha Hafter) in Hu.
  unfold reconcile.
  destruct (addPrCommits_extends (before ++ prCommit :: after)
              (updateDirectCommits (before ++ prCommit :: after) directCommits))
    as [added ->].
  rewrite lookup_app_l; [exact Hu|]. eapply lookup_lt_Some; eauto.
Qed.

(** An entry that comes after another entry with the same sha is never the
    one [find] returns. *)
Lemma reclassify_later pc l i c j c' :
  l !! i = Some c -> (j < i)%nat -> l !! j = Some c' -> sha c' = sha c ->
  reclassify pc l !! i = Some c.
Proof.
  intros Hl Hj Hc' Hsha. unfold reclassify.
  destruct (find_first (same_sha pc) l) as [[k d]|] eqn:E; [|exact Hl].
  apply find_first_Some in E as (Hk & Hp & Hbefore).
  rewrite list_lookup_insert_ne; [exact Hl|].
  intros ->. rewrite Hl in Hk. inversion Hk; subst d.
  specialize (Hbefore j c' Hj Hc').
  apply same_sha_true in Hp. apply same_sha_false in Hbefore. congruence.
Qed.

Lemma updateDirectCommits_later prs l i c j c' :
  l !! i = Some c -> (j < i)%nat -> l !! j = Some c' -> sha c' = sha c ->
  updateDirectCommits prs l !! i = Some c.
Proof.
  revert l c'. induction prs as [|pc prs IH]; intros l c' Hl Hj Hc' Hsha;
    simpl; [exact Hl|].
  destruct (lookup_same_sha (reclassify pc l) l j c'
              (eq_sym (reclassify_shas pc l)) Hc') as (d & Hd & Hsd).
  apply (IH (reclassify pc l) d).
  - eapply reclassify_later; eauto.
  - exact Hj.
  - exact Hd.
  - congruence.
Qed.

Lemma reconcile_lookup_direct directCommits prCommits i c :
  updateDirectCommits prCommits directCommits !! i = Some c ->
  reconcile directCommits prCommits !! i = Some c.
Proof.
  intros H. unfold reconcile.
  destruct (addPrCommits_extends prCommits
              (updateDirectCommits prCommits directCommits)) as [added ->].
  rewrite lookup_app_l; [exact H|]. eapply lookup_lt_Some; eauto.
Qed.

(** C4: of the direct commits with one sha only the first is reclassified:
    a direct commit that comes after another entry with its sha keeps type
    [direct] and no pull-request number, although its sha is among the
    pull-request commits; and a run reaches that state: the commit [abc],
    met in a fork and in its upstream and listed in pull request 5, ends as
    a pull-request commit of the fork and as a direct commit of the
    upstream. *)
Theorem reconcile_reclassifies_first_copy_only :
  (forall directCommits prCommits i j c c' prCommit,
      (j < i)%nat ->
      directCommits !! j = Some c' -> directCommits !! i = Some c ->
      sha c' = sha c -> walked c ->
      prCommit ∈ prCommits -> sha prCommit = sha c ->
      exists c'', reconcile directCommits prCommits !! i = Some c'' /\
                  sha c'' = sha prCommit /\ walked c'') /\
  match analyzeUserCommits unlimited fork_api 10 initial_state with
  | Return commits _ =>
      map classification commits
      = [ ("abc", "octocat/hello", pull_request, Some 5);
          ("def", "octocat/hello", direct, None);
          ("abc", "octo-org/hello", direct, None);
          ("fff", "octo-org/hello", pull_request, Some 5) ]%string
  | Throw _ _ => False
  | OutOfFuel => False
  end.
Proof.
  split.
  - intros directCommits prCommits i j c c' prCommit Hj Hc' Hc Hsha Hw _ Hpr.
    exists c. split; [|split; [congruence | exact Hw]].
    apply reconcile_lookup_direct.
    eapply updateDirectCommits_later; eauto.
  - vm_compute. reflexivity.
Qed.

(** Reconciliation keeps the two classification fields in step: what it
    reclassifies or appends has type [pull_request] and the number of a
    pull-request commit with its sha; the rest is as the walk built it. *)
Lemma reclassify_labelled all pc l :
  pc ∈ all ->
  Forall (fun c => walked c \/ reclassified_from all c) l ->
  Forall (fun c => walked c \/ reclassified_from all c) (reclassify pc l).
Proof.
  intros Hpc Hl. unfold reclassify.
  destruct (find_first (same_sha pc) l) as [[i c]|] eqn:E; [|exact Hl].
  apply find_first_Some in E as (_ & Hsha & _). apply same_sha_true in Hsha.
  apply Forall_insert; [exact Hl|].
  right. exists pc. repeat split; [exact Hpc | symmetry; exact Hsha].
Qed.

Lemma updateDirectCommits_labelled all prs l :
  (forall pc, pc ∈ prs -> pc ∈ all) ->
  Forall (fun c => walked c \/ reclassified_from all c) l ->
  Forall (fun c => walked c \/ reclassified_from all c)
         (updateDirectCommits prs l).
Proof.
  revert l. induction prs as [|pc prs IH]; intros l Hprs Hl; simpl; [exact Hl|].
  apply IH.
  - intros q Hq. apply Hprs, list_elem_of_further, Hq.
  - apply reclassify_labelled; [apply Hprs, list_elem_of_here | exact Hl].
Qed.

Lemma addPrCommits_labelled all prs l :
  (forall pc, pc ∈ prs -> pc ∈ all /\ type pc = pull_request) ->
  Forall (fun c => walked c \/ reclassified_from all c) l ->
  Forall (fun c => walked c \/ reclassified_from all c) (addPrCommits prs l).
Proof.
  revert l. induction prs as [|pc prs IH]; intros l Hprs Hl; simpl; [exact Hl|].
  assert (Hrest : forall q, q ∈ prs -> q ∈ all /\ type q = pull_request)
    by (intros q Hq; apply Hprs, list_elem_of_further, Hq).
  destruct (find_first (same_sha pc) l); apply IH; try assumption.
  apply Forall_app. split; [exact Hl|]. apply Forall_singleton.
  destruct (Hprs pc (list_elem_of_here _ _)) as [Hin Htype].
  right. exists pc. repeat split; assumption.
Qed.

Lemma reconcile_labelled directCommits prCommits :
  Forall walked directCommits ->
  Forall (fun pc => type pc = pull_request) prCommits ->
  Forall (fun c => walked c \/ reclassified_from prCommits c)
         (reconcile directCommits prCommits).
Proof.
  intros Hd Hp. unfold reconcile. rewrite Forall_forall in Hp.
  apply addPrCommits_labelled; [intros pc Hpc; split; auto|].
  apply updateDirectCommits_labelled; [auto|].
  eapply Forall_impl; [exact Hd|]. intros c Hc. left. exact Hc.
Qed.

(** ** Dual-query merger *)




Lemma findIndex_range {A} (p : A -> bool) l : -1 <= findIndex p l < len l.
Proof.
  unfold len. induction l as [|x l IH]; simpl; [lia|].
  destruct (p x); [lia|].
  destruct (findIndex p l <? 0) eqn:E;
    [apply Z.ltb_lt in E | apply Z.ltb_ge in E]; lia.
Qed.

Lemma findIndex_found {A} (p : A -> bool) l :
  existsb p l = true -> 0 <= findIndex p l.
Proof.
  induction l as [|x l IH]; simpl; [discriminate|].
  destruct (p x); simpl; [lia|]. intros H. specialize (IH H).
  destruct (findIndex p l <? 0) eqn:E; [apply Z.ltb_lt in E|]; lia.
Qed.

Lemma findIndex_app {A} (p : A -> bool) a b :
  findIndex p (a ++ b) =
  if existsb p a then findIndex p a
  else if findIndex p b <? 0 then -1 else len a + findIndex p b.
Proof.
  unfold len. induction a as [|x a IH]; simpl.
  - destruct (findIndex p b <? 0) eqn:E; [|lia].
    apply Z.ltb_lt in E. pose proof (findIndex_range p b). lia.
  - destruct (p x); simpl; [reflexivity|]. rewrite IH.
    destruct (existsb p a); [reflexivity|].
    destruct (findIndex p b <? 0) eqn:E; [reflexivity|].
    apply Z.ltb_ge in E.
    destruct (Z.of_nat (length a) + findIndex p b <? 0) eqn:E';
      [apply Z.ltb_lt in E'|]; lia.
Qed.












Example merge_sample :
  mergePullRequests unlimited
    [ sample_pr 1 7 "https://api.github.com/repos/octocat/hello";
      sample_pr 2 8 "https://api.github.com/repos/octocat/hello" ]
    [ sample_pr 1 7 "https://api.github.com/repos/octocat/hello";
      sample_pr 3 7 "https://api.github.com/repos/octocat/world" ]
    initial_state
  = Return [ sample_pr 1 7 "https://api.github.com/repos/octocat/hello";
             sample_pr 2 8 "https://api.github.com/repos/octocat/hello";
             sample_pr 3 7 "https://api.github.com/repos/octocat/world" ]
           initial_state.
Proof. reflexivity. Qed.

(** ** Repository walker and error handling *)

Lemma makeRequest_state {A} (response : Response A) s :
  (exists a, makeRequest response s = Return a s) \/
  (exists e, makeRequest response s = Throw e s).
Proof.
  unfold makeRequest. destruct response as [st d|e].
  - destruct (st =? 200); [left | right]; eauto.
  - right. eauto.
Qed.

(** One iteration of the commit listing whose request is answered 409 or
    404: the loop ends with the commits it holds and the state it had. *)
Lemma getRepositoryCommits_loop_skip
    config api fuel owner repo author dateRange page commits s error :
  cancelled s = false ->
  checkTotalRecordsLimit config s = false ->
  GET_repo_commits api owner repo author page
    (Z.min 100 (getRemainingRecords config s)) (since_until config dateRange)
    = Rejected error ->
  status error = Some 409 \/ status error = Some 404 ->
  getRepositoryCommits_loop config api (S fuel) owner repo author dateRange
    page commits s
  = Return commits s.
Proof.
  intros Hc Hl Hreq Hst. simpl. rewrite Hc, Hl, Hreq. simpl.
  unfold status_is. destruct Hst as [-> | ->]; reflexivity.
Qed.

(** The walk goes on with the next repository after a skipped one. *)
Lemma walk_continues_after_skipped_repository
    config api fuel user dateRange r rest allCommits s error :
  cancelled s = false ->
  checkTotalRecordsLimit config s = false ->
  GET_repo_commits api (owner_login r) (name r) user 1
    (Z.min 100 (getRemainingRecords config s)) (since_until config dateRange)
    = Rejected error ->
  status error = Some 409 \/ status error = Some 404 ->
  walk_repositories config api (S fuel) user dateRange (r :: rest) allCommits s
  = walk_repositories config api (S fuel) user dateRange rest allCommits s.
Proof.
  intros Hc Hl Hreq Hst.
  cbn [walk_repositories]. rewrite Hc, Hl. cbn [orb].
  unfold getRepositoryCommits.
  rewrite (getRepositoryCommits_loop_skip config api fuel _ _ _ _ _ _ _
             error Hc Hl Hreq Hst).
  rewrite Hl, app_nil_r. reflexivity.
Qed.

Lemma set_totalFetched_twice n m s :
  set_totalFetched n (set_totalFetched m s) = set_totalFetched n s.
Proof. reflexivity. Qed.

Lemma set_totalFetched_same s : set_totalFetched (totalFetched s + 0) s = s.
Proof. destruct s. unfold set_totalFetched. simpl. rewrite Z.add_0_r. reflexivity. Qed.

Lemma per_page_unlimited config s :
  totalRecords config = 0 -> Z.min 100 (getRemainingRecords config s) = 100.
Proof. intros H. unfold getRemainingRecords. rewrite H. reflexivity. Qed.

Lemma no_limit_unlimited config s :
  totalRecords config = 0 -> checkTotalRecordsLimit config s = false.
Proof. intros H. unfold checkTotalRecordsLimit. rewrite H. reflexivity. Qed.

(** A whole listing without record limit: full pages are gathered one after
    the other, and the page answered 409 or 404 ends the listing with all
    the commits of the pages before it; [length pages + 1] iterations are
    enough. *)
Lemma getRepositoryCommits_pages_then_skip
    config api owner repo author dateRange error pages :
  totalRecords config = 0 ->
  status error = Some 409 \/ status error = Some 404 ->
  forall fuel page commits s,
    cancelled s = false ->
    (forall i items, pages !! i = Some items ->
       len items = 100 /\
       GET_repo_commits api owner repo author (page + Z.of_nat i) 100
         (since_until config dateRange) = Resolved 200 items) ->
    GET_repo_commits api owner repo author (page + len pages) 100
      (since_until config dateRange) = Rejected error ->
    (length pages < fuel)%nat ->
    getRepositoryCommits_loop config api fuel owner repo author dateRange
      page commits s
    = Return (commits ++ map (directCommit owner repo) (concat pages))
        (set_totalFetched (totalFetched s + 100 * len pages) s).
Proof.
  intros Hcfg Hst. induction pages as [|items pages IH];
    intros fuel page commits s Hc Hpages Hlast Hfuel.
  - destruct fuel as [|fuel]; [simpl in Hfuel; lia|].
    unfold len in *. simpl in Hlast. rewrite Z.add_0_r in Hlast.
    simpl concat. simpl map. rewrite app_nil_r.
    change (100 * Z.of_nat (length (@nil (list ApiCommit)))) with 0.
    rewrite set_totalFetched_same.
    apply (getRepositoryCommits_loop_skip _ _ _ _ _ _ _ _ _ _ error);
      [exact Hc | apply no_limit_unlimited, Hcfg | | exact Hst].
    rewrite per_page_unlimited by exact Hcfg. exact Hlast.
  - destruct fuel as [|fuel]; [simpl in Hfuel; lia|].
    destruct (Hpages O items eq_refl) as [Hlen Hreq].
    rewrite Z.add_0_r in Hreq.
    cbn [getRepositoryCommits_loop].
    rewrite Hc, (no_limit_unlimited config s Hcfg). cbn [orb].
    rewrite (per_page_unlimited config s Hcfg), Hreq.
    cbn [makeRequest Z.eqb Pos.eqb].
    rewrite Hlen. cbn [Z.eqb Z.ltb Z.compare Pos.compare Pos.compare_cont].
    rewrite no_limit_unlimited by exact Hcfg.
    rewrite IH.
    + f_equal.
      * rewrite <- app_assoc, <- map_app. reflexivity.
      * rewrite set_totalFetched_twice. f_equal.
        unfold len in *. rewrite length_map. simpl length.
        cbn [totalFetched set_totalFetched]. lia.
    + exact Hc.
    + intros i its Hi. destruct (Hpages (S i) its Hi) as [Hl Hr].
      split; [exact Hl|]. rewrite <- Hr. f_equal. lia.
    + rewrite <- Hlast. f_equal. unfold len. simpl length. lia.
    + simpl in Hfuel. lia.
Qed.

(** C8: when the commit listing of a repository fails with status 409 or
    404, [getRepositoryCommits] returns the commits gathered so far for that
    repository (none when the first page fails), records no error, raises
    nothing, and the walk goes on with the next repository. *)
Theorem getRepositoryCommits_skips_409_404
    config api fuel owner repo author dateRange page commits s error :
  cancelled s = false ->
  checkTotalRecordsLimit config s = false ->
  GET_repo_commits api owner repo author page
    (Z.min 100 (getRemainingRecords config s)) (since_until config dateRange)
    = Rejected error ->
  status error = Some 409 \/ status error = Some 404 ->
  getRepositoryCommits_loop config api (S fuel) owner repo author dateRange
    page commits s
  = Return commits s /\
  (page = 1 -> commits = [] ->
   getRepositoryCommits config api (S fuel) owner repo author dateRange s
     = Return [] s /\
   forall r rest allCommits,
     owner_login r = owner -> name r = repo ->
     walk_repositories config api (S fuel) author dateRange (r :: rest)
       allCommits s
     = walk_repositories config api (S fuel) author dateRange rest
         allCommits s).
Proof.
  intros Hc Hl Hreq Hst. split.
  - apply (getRepositoryCommits_loop_skip _ _ _ _ _ _ _ _ _ _ error); assumption.
  - intros -> ->. split.
    + apply (getRepositoryCommits_loop_skip _ _ _ _ _ _ _ _ _ _ error);
        assumption.
    + intros r rest allCommits <- <-.
      apply (walk_continues_after_skipped_repository _ _ _ _ _ _ _ _ _ error);
        assumption.
Qed.

Lemma getRepositoryCommits_skips_409_404_witness :
  getRepositoryCommits_loop unlimited (failing_api 409) 1 "octocat" "hello"
    "octocat" None 2
    [ sample_commit "abc" "octocat/hello" direct None ]
    {| totalFetched := 100; errors := []; cancelled := false |}
  = Return [ sample_commit "abc" "octocat/hello" direct None ]
      {| totalFetched := 100; errors := []; cancelled := false |}.
Proof.
  apply (getRepositoryCommits_skips_409_404 unlimited (failing_api 409) 0
           "octocat" "hello" "octocat" None 2
           [ sample_commit "abc" "octocat/hello" direct None ]
           {| totalFetched := 100; errors := []; cancelled := false |}
           {| status := Some 409; error_message := "request failed" |});
    [reflexivity | reflexivity | reflexivity | left; reflexivity].
Defined.





(** ** The run: classification of the collected commits *)

Lemma walked_directCommit owner repo c : walked (directCommit owner repo c).
Proof. split; reflexivity. Qed.

Lemma walked_classified c : walked c -> classified c.
Proof.
  intros [Ht Hn]. unfold classified. rewrite Ht, Hn.
  split; [discriminate | congruence].
Qed.

Lemma listed_in_classified n c : listed_in n c -> classified c.
Proof.
  intros [Ht Hn]. unfold classified. rewrite Ht, Hn.
  split; [discriminate | reflexivity].
Qed.

Lemma Forall_splice_last {A} (P : A -> Prop) excess l :
  Forall P l -> Forall P (splice_last excess l).
Proof. apply Forall_take. Qed.

Lemma returns_bind {A B} (P : A -> Prop) (Q : B -> Prop) (m : M A) (k : A -> M B) s :
  returns P (m s) ->
  (forall a s', P a -> returns Q (k a s')) ->
  returns Q (bind m k s).
Proof.
  unfold bind. destruct (m s) as [a s'|e s'|]; simpl; auto.
Qed.

Lemma getRepositoryCommits_loop_walked
    config api fuel owner repo author dateRange page commits s :
  Forall walked commits ->
  returns (Forall walked)
    (getRepositoryCommits_loop config api fuel owner repo author dateRange
       page commits s).
Proof.
  revert page commits s. induction fuel as [|fuel IH]; intros page commits s Hc;
    simpl; [exact I|].
  destruct (cancelled s || checkTotalRecordsLimit config s); [exact Hc|].
  destruct (makeRequest _ s) as [response s1|e s1|]; [| |exact I].
  - assert (Hall : Forall walked
                     (commits ++ map (directCommit owner repo) response)).
    { apply Forall_app. split; [exact Hc|].
      apply Forall_forall. intros c Hin.
      apply (list_elem_of_fmap (directCommit owner repo)) in Hin
        as (x & -> & _).
      apply walked_directCommit. }
    repeat match goal with
           | |- returns _ (if ?b then _ else _) => destruct b
           end;
      try (simpl; first [exact Hc | exact Hall
                         | apply Forall_splice_last, Hall]).
    apply IH, Hall.
  - destruct (status_is e 409 || status_is e 404); exact Hc.
Qed.

Lemma walk_repositories_walked
    config api fuel user dateRange repos allCommits s :
  Forall walked allCommits ->
  returns (Forall walked)
    (walk_repositories config api fuel user dateRange repos allCommits s).
Proof.
  revert allCommits s. induction repos as [|r rest IH]; intros allCommits s Hc;
    simpl; [exact Hc|].
  destruct (cancelled s || checkTotalRecordsLimit config s); [exact Hc|].
  pose proof (getRepositoryCommits_loop_walked config api fuel
                (owner_login r) (name r) user dateRange 1 [] s (Forall_nil_2 _))
    as Hrepo.
  unfold getRepositoryCommits.
  destruct (getRepositoryCommits_loop _ _ _ _ _ _ _ _ _ s)
    as [repoCommits s1|e s1|]; [|exact I|exact I].
  simpl in Hrepo.
  assert (Hall : Forall walked (allCommits ++ repoCommits))
    by (apply Forall_app; split; assumption).
  destruct (checkTotalRecordsLimit config s1); [exact Hall | apply IH, Hall].
Qed.

Lemma searchUserRepositoryCommits_walked config api fuel user dateRange s :
  returns (Forall walked)
    (searchUserRepositoryCommits config api fuel user dateRange s).
Proof.
  unfold searchUserRepositoryCommits.
  apply (returns_bind (fun _ => True)).
  - destruct (getUserRepositories _ _ _ _ s); exact I.
  - intros repos s' _. apply walk_repositories_walked. constructor.
Qed.

(** What [getPullRequestCommits] returns was built from the commit listing
    of that pull request. *)
Lemma getPullRequestCommits_built api owner repo n s commits s' :
  getPullRequestCommits api owner repo n s = Return commits s' ->
  Forall (fun c =>
            listed_in n c /\
            exists response_status items x,
              GET_pull_commits api owner repo n
                = Resolved response_status items /\
              x ∈ items /\ commit_sha x = sha c) commits.
Proof.
  unfold getPullRequestCommits, try_catch, bind, ret, makeRequest.
  destruct (GET_pull_commits api owner repo n) as [st items|e] eqn:E.
  - destruct (st =? 200); intros H; inversion H; subst; [|constructor].
    apply Forall_forall. intros c Hin.
    apply (list_elem_of_fmap (pullRequestCommit owner repo n)) in Hin
      as (x & -> & Hx).
    split; [split; reflexivity|]. exists st, items, x. repeat split. exact Hx.
  - intros H. inversion H; subst. constructor.
Qed.

Lemma fetch_pr_commits_built config api prs allPrCommits s commits s' :
  fetch_pr_commits config api prs allPrCommits s = Return commits s' ->
  Forall (fun c => c ∈ allPrCommits \/ exists pr, pr ∈ prs /\ commit_of api pr c)
         commits.
Proof.
  revert allPrCommits s. induction prs as [|pr rest IH]; intros acc s; simpl.
  - intros H. inversion H; subst. apply Forall_forall. intros c Hc. left. exact Hc.
  - destruct (cancelled s || checkTotalRecordsLimit config s).
    { intros H. inversion H; subst. apply Forall_forall. intros c Hc.
      left. exact Hc. }
    destruct (last_two (split_char "/" (repository_url pr)))
      as [owner repo] eqn:Erepo.
    destruct (getPullRequestCommits api owner repo (number pr) s)
      as [listed s1|e s1|] eqn:Elisted; [|discriminate|discriminate].
    intros H. apply IH in H.
    apply getPullRequestCommits_built in Elisted.
    rewrite Forall_forall in Elisted.
    eapply Forall_impl; [exact H|]. simpl.
    intros c [Hc | (q & Hq & Hof)].
    + apply elem_of_app in Hc as [Hc | Hc]; [left; exact Hc|].
      right. exists pr. split; [apply list_elem_of_here|].
      unfold commit_of. rewrite Erepo.
      destruct (Elisted c Hc) as [Hin Hfrom]. split; assumption.
    + right. exists q. split; [apply list_elem_of_further, Hq | exact Hof].
Qed.

(** C9: every commit of the collection the run ends with has type
    [pull_request] exactly when its [pullRequest] field is set. The
    repository walk builds its commits with type [direct] and no pull
    request; the listing of the commits of a pull request builds them with
    type [pull_request] and the number of that pull request;
    reconciliation sets both fields together, from a pull-request commit
    with the same sha. So a commit of the final collection is either as the
    walk built it, or has type [pull_request] and the number of a pull
    request that the search of this run returned and whose commit listing
    holds its sha. *)
Theorem final_commits_classified config api fuel :
  (forall owner repo author dateRange s commits s',
      getRepositoryCommits config api fuel owner repo author dateRange s
        = Return commits s' ->
      Forall walked commits) /\
  (forall user dateRange s commits s',
      searchUserRepositoryCommits config api fuel user dateRange s
        = Return commits s' ->
      Forall walked commits) /\
  (forall owner repo pullNumber s commits s',
      getPullRequestCommits api owner repo pullNumber s = Return commits s' ->
      Forall (listed_in pullNumber) commits) /\
  (forall directCommits prCommits,
      Forall walked directCommits ->
      Forall (fun prCommit => type prCommit = pull_request) prCommits ->
      Forall (fun c => walked c \/ reclassified_from prCommits c)
             (reconcile directCommits prCommits)) /\
  (forall s commits s',
      analyzeUserCommits config api fuel s = Return commits s' ->
      Forall classified commits /\
      exists pullRequests,
        (pullRequests = [] \/
         exists dateRange s2 s3,
           searchPullRequestsWithPartitioning config api fuel
             (searchUser config) dateRange s2 = Return pullRequests s3) /\
        Forall (fun c => walked c \/
                         exists pr, pr ∈ pullRequests /\ commit_of api pr c)
               commits).
Proof.
  split; [|split; [|split; [|split]]].
  - intros owner repo author dateRange s commits s' Hrun.
    pose proof (getRepositoryCommits_loop_walked config api fuel owner repo
                  author dateRange 1 [] s (Forall_nil_2 _)) as H.
    unfold getRepositoryCommits in Hrun. rewrite Hrun in H. exact H.
  - intros user dateRange s commits s' Hrun.
    pose proof (searchUserRepositoryCommits_walked config api fuel user
                  dateRange s) as H.
    rewrite Hrun in H. exact H.
  - intros owner repo pullNumber s commits s' Hrun.
    apply getPullRequestCommits_built in Hrun.
    eapply Forall_impl; [exact Hrun|]. intros c [Hc _]. exact Hc.
  - apply reconcile_labelled.
  - intros s commits s' Hrun.
    assert (Hfinal :
      exists pullRequests,
        (pullRequests = [] \/
         exists dateRange s2 s3,
           searchPullRequestsWithPartitioning config api fuel
             (searchUser config) dateRange s2 = Return pullRequests s3) /\
        Forall (fun c => walked c \/
                         exists pr, pr ∈ pullRequests /\ commit_of api pr c)
               commits).
    { revert Hrun. unfold analyzeUserCommits. unfold bind at 1.
      destruct (validateUser api (searchUser config) s) as [u s1|e s1|];
        [|discriminate|discriminate].
      unfold bind at 1.
      match goal with
      | |- match searchUserRepositoryCommits ?c ?a ?f ?u ?d ?s with _ => _ end
           = _ -> _ =>
          pose proof (searchUserRepositoryCommits_walked c a f u d s) as Hwalk;
          destruct (searchUserRepositoryCommits c a f u d s)
            as [directCommits s2|e s2|]; [|discriminate|discriminate];
          set (dateRange := d) in *
      end.
      simpl in Hwalk.
      assert (Hdirect :
        Forall (fun c => walked c \/
                         exists pr, pr ∈ @nil PullRequest /\ commit_of api pr c)
               directCommits).
      { eapply Forall_impl; [exact Hwalk|]. intros c Hc. left. exact Hc. }
      destruct (negb (cancelled s2) && negb (checkTotalRecordsLimit config s2)).
      2:{ intros H. inversion H; subst. exists []. split; [left; reflexivity|].
          exact Hdirect. }
      unfold bind at 1.
      destruct (searchPullRequestsWithPartitioning config api fuel
                  (searchUser config) dateRange s2)
        as [pullRequests s3|e s3|] eqn:Hsearch; [|discriminate|discriminate].
      destruct ((0 <? len pullRequests) && negb (cancelled s3)
                && negb (checkTotalRecordsLimit config s3)).
      2:{ intros H. inversion H; subst. exists []. split; [left; reflexivity|].
          exact Hdirect. }
      unfold bind, ret.
      destruct (fetch_pr_commits config api pullRequests [] s3)
        as [prCommits s4|e s4|] eqn:Hfetch; [|discriminate|discriminate].
      intros H. inversion H; subst. clear H.
      exists pullRequests. split; [right; eauto|].
      apply fetch_pr_commits_built in Hfetch.
      rewrite Forall_forall in Hfetch.
      assert (Hpr : Forall (fun pc => type pc = pull_request) prCommits).
      { apply Forall_forall. intros pc Hpc.
        destruct (Hfetch pc Hpc) as [Hnil | (pr & _ & [[Ht _] _])];
          [inversion Hnil | exact Ht]. }
      eapply Forall_impl; [exact (reconcile_labelled _ _ Hwalk Hpr)|].
      simpl. intros c [Hc | (pc & Hpc & Hsha & Ht & Hn)]; [left; exact Hc|].
      right. destruct (Hfetch pc Hpc) as [Hnil | (pr & Hin & Hof)];
        [inversion Hnil|].
      exists pr. split; [exact Hin|].
      destruct Hof as [[_ Hnum] (st & items & x & Hget & Hx & Hxsha)].
      split; [split; [exact Ht | congruence]|].
      exists st, items, x. repeat split; [exact Hget | exact Hx | congruence]. }
    split; [|exact Hfinal].
    destruct Hfinal as (pullRequests & _ & Hall).
    eapply Forall_impl; [exact Hall|]. simpl.
    intros c [Hc | (pr & _ & [Hc _])];
      [apply walked_classified, Hc | eapply listed_in_classified, Hc].
Qed.

Lemma final_commits_classified_witness :
  exists commits s',
    analyzeUserCommits unlimited fork_api 10 initial_state = Return commits s' /\
    map classification commits
    = [ ("abc", "octocat/hello", pull_request, Some 5);
        ("def", "octocat/hello", direct, None);
        ("abc", "octo-org/hello", direct, None);
        ("fff", "octo-org/hello", pull_request, Some 5) ]%string /\
    Forall classified commits.
Proof.
  destruct (analyzeUserCommits unlimited fork_api 10 initial_state)
    as [commits s'|e s'|] eqn:Hrun; [|vm_compute in Hrun; discriminate..].
  exists commits, s'. split; [reflexivity|]. split.
  - vm_compute in Hrun. inversion Hrun. reflexivity.
  - apply (proj2 (proj2 (proj2 (proj2
             (final_commits_classified unlimited fork_api 10))))
             initial_state commits s' Hrun).
Defined.

(** ** Fetch budget *)

(** C3: with a limit of 50 records, a run that meets 1 repository, 40 of
    its commits, 3 pull requests and their 33 commits counts 44 records and
    hands 73 commits to the report: pull-request commits are neither
    counted nor truncated. *)
Theorem budget_exceeded_by_pull_request_commits :
  match analyzeUserCommits budget50 sample_api 10 initial_state with
  | Return commits s =>
      totalRecords budget50 = 50 /\ len commits = 73 /\
      totalFetched s = 44 /\ errors s = []
  | Throw _ _ => False
  | OutOfFuel => False
  end.
Proof. vm_compute. repeat split. Qed.

(** ** Request executor *)

Module RetryFacts.
Import GitHubDataEngine.

Section Facts.

Context {Data : Type}.
Implicit Types (server : nat -> Reply Data).

Lemma retry_loop_step server sent retries :
  retry_loop server sent retries =
  if retries <? maxRetries then
    match server sent with
    | Ok _ data => (Returned data, [Request])
    | Failed error now =>
        if rate_limited error then
          let r := retry_loop server (S sent) (retries + 1) in
          (fst r, Request :: Sleep (reset_wait error now) :: snd r)
        else if status_ge_400 error && (retries <? maxRetries - 1) then
          let r := retry_loop server (S sent) (retries + 1) in
          (fst r, Request :: Sleep (2 ^ retries) :: snd r)
        else (Thrown error, [Request])
    end
  else (Undefined, []).
Proof.
  rewrite retry_loop_equation_1.
  destruct (Z_lt_dec retries maxRetries) as [H|H]; simpl.
  - rewrite (proj2 (Z.ltb_lt _ _) H).
    destruct (server sent) as [st d|e now]; simpl; [reflexivity|].
    destruct (rate_limited e); simpl; [reflexivity|].
    destruct (status_ge_400 e && (retries <? maxRetries - 1)); reflexivity.
  - rewrite (proj2 (Z.ltb_nlt _ _) H). reflexivity.
Qed.

(** At most [maxRetries - retries] requests are issued from a loop state. *)
Lemma requests_bound server sent retries :
  (requests (snd (retry_loop server sent retries))
   <= Z.to_nat (maxRetries - retries))%nat.
Proof.
  remember (Z.to_nat (maxRetries - retries)) as n eqn:Hn.
  revert sent retries Hn. induction n as [|n IH]; intros sent retries Hn;
    rewrite retry_loop_step.
  - destruct (retries <? maxRetries) eqn:E; [apply Z.ltb_lt in E; lia|].
    simpl. lia.
  - destruct (retries <? maxRetries) eqn:E; [|simpl; lia].
    apply Z.ltb_lt in E.
    assert (Hn' : n = Z.to_nat (maxRetries - (retries + 1))) by lia.
    destruct (server sent) as [st d|e now]; [simpl; lia|].
    destruct (rate_limited e).
    + simpl. specialize (IH (S sent) (retries + 1) Hn'). lia.
    + destruct (status_ge_400 e && (retries <? maxRetries - 1)).
      * simpl. specialize (IH (S sent) (retries + 1) Hn'). lia.
      * simpl. lia.
Qed.

(** A thrown error is the error of one of the attempts, as it was. *)
Lemma thrown_unmodified server sent retries e :
  fst (retry_loop server sent retries) = Thrown e ->
  exists k now, server k = Failed e now.
Proof.
  remember (Z.to_nat (maxRetries - retries)) as n eqn:Hn.
  revert sent retries Hn. induction n as [|n IH]; intros sent retries Hn;
    rewrite retry_loop_step.
  - destruct (retries <? maxRetries) eqn:E; [apply Z.ltb_lt in E; lia|].
    discriminate.
  - destruct (retries <? maxRetries) eqn:E; [|discriminate].
    apply Z.ltb_lt in E.
    assert (Hn' : n = Z.to_nat (maxRetries - (retries + 1))) by lia.
    destruct (server sent) as [st d|e' now] eqn:Es; [discriminate|].
    destruct (rate_limited e'); [simpl; apply (IH _ _ Hn')|].
    destruct (status_ge_400 e' && (retries <? maxRetries - 1));
      [simpl; apply (IH _ _ Hn')|].
    simpl. intros H. inversion H; subst. eauto.
Qed.

End Facts.
End RetryFacts.

Section RetryPolicy.

Import GitHubDataEngine.

Context {Data : Type}.

Lemma requests_app t1 t2 :
  requests (t1 ++ t2) = (requests t1 + requests t2)%nat.
Proof.
  induction t1 as [|[|n] t1 IH]; simpl;
    [reflexivity | rewrite IH; reflexivity | exact IH].
Qed.

Lemma requests_pause apiCallCount delay : requests (pause apiCallCount delay) = O.
Proof. unfold pause. destruct (1 <? apiCallCount + 1); reflexivity. Qed.

(** The loop unrolled: three attempts at most. *)
Lemma retry_loop_unrolled (server : nat -> Reply Data) :
  retry_loop server O 0 =
  match server O with
  | Ok _ d => (Returned d, [Request])
  | Failed e0 now0 =>
      let next w :=
        match server 1%nat with
        | Ok _ d => (Returned d, [Request; Sleep w; Request])
        | Failed e1 now1 =>
            let last w' :=
              match server 2%nat with
              | Ok _ d =>
                  (Returned d, [Request; Sleep w; Request; Sleep w'; Request])
              | Failed e2 now2 =>
                  if rate_limited e2
                  then (Undefined,
                        [Request; Sleep w; Request; Sleep w'; Request;
                         Sleep (reset_wait e2 now2)])
                  else (Thrown e2,
                        [Request; Sleep w; Request; Sleep w'; Request])
              end in
            if rate_limited e1 then last (reset_wait e1 now1)
            else if status_ge_400 e1 then last 2
            else (Thrown e1, [Request; Sleep w; Request])
        end in
      if rate_limited e0 then next (reset_wait e0 now0)
      else if status_ge_400 e0 then next 1
      else (Thrown e0, [Request])
  end.
Proof.
  rewrite RetryFacts.retry_loop_step. cbn [Z.ltb Z.compare maxRetries].
  destruct (server O) as [st0 d0|e0 now0]; [reflexivity|].
  assert (H3 : forall sent, retry_loop server sent (0 + 1 + 1 + 1) = (Undefined, [])).
  { intros sent. rewrite RetryFacts.retry_loop_step. reflexivity. }
  assert (H2 : forall w w',
    (fst (retry_loop server 2%nat (0 + 1 + 1)),
     Request :: Sleep w :: Request :: Sleep w'
       :: snd (retry_loop server 2%nat (0 + 1 + 1)))
    = match server 2%nat with
      | Ok _ d => (Returned d, [Request; Sleep w; Request; Sleep w'; Request])
      | Failed e2 now2 =>
          if rate_limited e2
          then (Undefined,
                [Request; Sleep w; Request; Sleep w'; Request;
                 Sleep (reset_wait e2 now2)])
          else (Thrown e2, [Request; Sleep w; Request; Sleep w'; Request])
      end).
  { intros w w'. rewrite RetryFacts.retry_loop_step.
    change (0 + 1 + 1 <? maxRetries) with true. cbv iota.
    destruct (server 2%nat) as [st2 d2|e2 now2]; [reflexivity|].
    destruct (rate_limited e2).
    - cbv zeta. rewrite H3. reflexivity.
    - replace (status_ge_400 e2 && (0 + 1 + 1 <? maxRetries - 1)) with false
        by (rewrite andb_false_r; reflexivity).
      reflexivity. }
  assert (H1 : forall w,
    (fst (retry_loop server 1%nat (0 + 1)),
     Request :: Sleep w :: snd (retry_loop server 1%nat (0 + 1)))
    = match server 1%nat with
      | Ok _ d => (Returned d, [Request; Sleep w; Request])
      | Failed e1 now1 =>
          if rate_limited e1
          then (fst (retry_loop server 2%nat (0 + 1 + 1)),
                Request :: Sleep w :: Request :: Sleep (reset_wait e1 now1)
                  :: snd (retry_loop server 2%nat (0 + 1 + 1)))
          else if status_ge_400 e1
          then (fst (retry_loop server 2%nat (0 + 1 + 1)),
                Request :: Sleep w :: Request :: Sleep 2
                  :: snd (retry_loop server 2%nat (0 + 1 + 1)))
          else (Thrown e1, [Request; Sleep w; Request])
      end).
  { intros w. rewrite RetryFacts.retry_loop_step.
    change (0 + 1 <? maxRetries) with true. cbv iota.
    destruct (server 1%nat) as [st1 d1|e1 now1]; [reflexivity|].
    destruct (rate_limited e1); [reflexivity|].
    change (0 + 1 <? maxRetries - 1) with true. rewrite andb_true_r.
    destruct (status_ge_400 e1); reflexivity. }
  change (0 <? maxRetries - 1) with true. rewrite andb_true_r.
  cbv zeta.
  destruct (rate_limited e0).
  - rewrite (H1 (reset_wait e0 now0)).
    destruct (server 1%nat) as [st1 d1|e1 now1]; [reflexivity|].
    destruct (rate_limited e1); [apply H2|].
    destruct (status_ge_400 e1); [apply H2 | reflexivity].
  - destruct (status_ge_400 e0); [|reflexivity].
    change (2 ^ 0) with 1. rewrite (H1 1).
    destruct (server 1%nat) as [st1 d1|e1 now1]; [reflexivity|].
    destruct (rate_limited e1); [apply H2|].
    destruct (status_ge_400 e1); [apply H2 | reflexivity].
Qed.

(** C6 (amended): [GitHubDataEngine.makeRequest] issues at most 3 requests.
    When the first or the second attempt fails with 403 and no quota left,
    it sleeps until the reset (plus one second) and issues the next
    attempt, whatever that attempt brings: the wait counts as one of the 3
    attempts, so a rate-limited request can be retried twice. When the
    first or the second attempt fails otherwise with a status of 400 or
    more, it sleeps 2^retries seconds (1, then 2) and issues the next
    attempt. A third failure that is not a rate limit is thrown as it is,
    with no further wait. A failure with a lower status or with none is
    thrown at once, as it is, at whatever attempt. *)
Theorem executor_retry_policy (count delay : Z) (server : nat -> Reply Data) :
  let run := GitHubDataEngine.makeRequest count delay server in
  let wait (retries : Z) (error : RequestError) (now : Z) :=
    if rate_limited error then reset_wait error now else 2 ^ retries in
  (requests (trace run) <= 3)%nat /\
  (forall e0 now0,
      server O = Failed e0 now0 -> rate_limited e0 = true ->
      exists rest,
        trace run
        = pause count delay
          ++ Request :: Sleep (reset_wait e0 now0) :: Request :: rest) /\
  (forall e0 now0,
      server O = Failed e0 now0 ->
      rate_limited e0 = false -> status_ge_400 e0 = true ->
      exists rest,
        trace run = pause count delay ++ Request :: Sleep 1 :: Request :: rest) /\
  (forall e0 now0 e1 now1,
      server O = Failed e0 now0 ->
      rate_limited e0 || status_ge_400 e0 = true ->
      server 1%nat = Failed e1 now1 -> rate_limited e1 = true ->
      exists rest,
        trace run
        = pause count delay
          ++ [Request; Sleep (wait 0 e0 now0);
              Request; Sleep (reset_wait e1 now1); Request] ++ rest /\
        requests rest = O) /\
  (forall e0 now0 e1 now1,
      server O = Failed e0 now0 ->
      rate_limited e0 || status_ge_400 e0 = true ->
      server 1%nat = Failed e1 now1 ->
      rate_limited e1 = false -> status_ge_400 e1 = true ->
      exists rest,
        trace run
        = pause count delay
          ++ [Request; Sleep (wait 0 e0 now0);
              Request; Sleep 2; Request] ++ rest /\
        requests rest = O) /\
  (forall e0 now0 e1 now1 e2 now2,
      server O = Failed e0 now0 ->
      rate_limited e0 || status_ge_400 e0 = true ->
      server 1%nat = Failed e1 now1 ->
      rate_limited e1 || status_ge_400 e1 = true ->
      server 2%nat = Failed e2 now2 -> rate_limited e2 = false ->
      outcome run = Thrown e2 /\
      trace run
      = pause count delay
        ++ [Request; Sleep (wait 0 e0 now0);
            Request; Sleep (wait 1 e1 now1); Request]) /\
  (forall k e now,
      (k <= 2)%nat ->
      (forall j, (j < k)%nat ->
         exists ej nowj,
           server j = Failed ej nowj /\
           rate_limited ej || status_ge_400 ej = true) ->
      server k = Failed e now ->
      rate_limited e = false -> status_ge_400 e = false ->
      outcome run = Thrown e /\ requests (trace run) = S k) /\
  (forall e, outcome run = Thrown e -> exists k now, server k = Failed e now).
Proof.
  cbv zeta. unfold GitHubDataEngine.makeRequest. cbn [outcome trace].
  repeat apply conj.
  - rewrite requests_app, requests_pause.
    apply (RetryFacts.requests_bound server O 0).
  - intros e0 now0 H0 Hr0.
    rewrite retry_loop_unrolled, H0, Hr0.
    destruct (server 1%nat) as [st1 d1|e1 now1]; [eexists; reflexivity|].
    destruct (rate_limited e1); [|destruct (status_ge_400 e1)];
      try (eexists; reflexivity);
      destruct (server 2%nat) as [st2 d2|e2 now2];
      try destruct (rate_limited e2); eexists; reflexivity.
  - intros e0 now0 H0 Hr0 Hs0.
    rewrite retry_loop_unrolled, H0, Hr0, Hs0.
    destruct (server 1%nat) as [st1 d1|e1 now1]; [eexists; reflexivity|].
    destruct (rate_limited e1); [|destruct (status_ge_400 e1)];
      try (eexists; reflexivity);
      destruct (server 2%nat) as [st2 d2|e2 now2];
      try destruct (rate_limited e2); eexists; reflexivity.
  - intros e0 now0 e1 now1 H0 Hretry0 H1 Hr1.
    rewrite retry_loop_unrolled, H0, H1, Hr1.
    destruct (rate_limited e0); [|simpl in Hretry0; rewrite Hretry0];
      destruct (server 2%nat) as [st2 d2|e2 now2];
      try destruct (rate_limited e2);
      eexists; (split; [reflexivity | reflexivity]).
  - intros e0 now0 e1 now1 H0 Hretry0 H1 Hr1 Hs1.
    rewrite retry_loop_unrolled, H0, H1, Hr1, Hs1.
    destruct (rate_limited e0); [|simpl in Hretry0; rewrite Hretry0];
      destruct (server 2%nat) as [st2 d2|e2 now2];
      try destruct (rate_limited e2);
      eexists; (split; [reflexivity | reflexivity]).
  - intros e0 now0 e1 now1 e2 now2 H0 Hretry0 H1 Hretry1 H2 Hr2.
    rewrite retry_loop_unrolled, H0, H1, H2, Hr2.
    destruct (rate_limited e0); [|simpl in Hretry0; rewrite Hretry0];
      (destruct (rate_limited e1); [|simpl in Hretry1; rewrite Hretry1]);
      split; reflexivity.
  - intros k e now Hk Hbefore Hfail Hr Hs.
    rewrite requests_app, requests_pause, retry_loop_unrolled.
    destruct k as [|[|[|k]]]; [| | |lia].
    + rewrite Hfail, Hr, Hs. split; reflexivity.
    + destruct (Hbefore O) as (e0 & now0 & H0 & Hretry0); [lia|].
      rewrite H0, Hfail, Hr, Hs.
      destruct (rate_limited e0); [|simpl in Hretry0; rewrite Hretry0];
        split; reflexivity.
    + destruct (Hbefore O) as (e0 & now0 & H0 & Hretry0); [lia|].
      destruct (Hbefore 1%nat) as (e1 & now1 & H1 & Hretry1); [lia|].
      rewrite H0, H1, Hfail, Hr.
      destruct (rate_limited e0); [|simpl in Hretry0; rewrite Hretry0];
        (destruct (rate_limited e1); [|simpl in Hretry1; rewrite Hretry1]);
        split; reflexivity.
  - apply RetryFacts.thrown_unmodified.
Qed.

End RetryPolicy.

(** C6 (as stated, refuted): a request that meets the rate limit twice is
    issued three times, that is retried twice. *)
Lemma rate_limit_retried_twice_counterexample :
  let run :=
    GitHubDataEngine.makeRequest 0 6
      (scripted [ GitHubDataEngine.Failed quota_exhausted 990000;
                  GitHubDataEngine.Failed quota_exhausted 1001000 ]) in
  GitHubDataEngine.outcome run = GitHubDataEngine.Returned "data"%string /\
  GitHubDataEngine.trace run
  = [ GitHubDataEngine.Request; GitHubDataEngine.Sleep 11;
      GitHubDataEngine.Request; GitHubDataEngine.Sleep 1;
      GitHubDataEngine.Request ] /\
  GitHubDataEngine.requests (GitHubDataEngine.trace run) <> 2%nat.
Proof. vm_compute. repeat split; discriminate. Qed.

Lemma executor_retry_policy_witness :
  let run :=
    GitHubDataEngine.makeRequest 1 6
      (scripted [ GitHubDataEngine.Failed quota_exhausted 990000;
                  GitHubDataEngine.Failed server_error 1001000;
                  GitHubDataEngine.Failed server_error 3000000 ]) in
  GitHubDataEngine.outcome run = GitHubDataEngine.Thrown server_error /\
  GitHubDataEngine.trace run
  = GitHubDataEngine.pause 1 6
    ++ [ GitHubDataEngine.Request; GitHubDataEngine.Sleep 11;
         GitHubDataEngine.Request; GitHubDataEngine.Sleep 2;
         GitHubDataEngine.Request ].
Proof.
  apply (proj1 (proj2 (proj2 (proj2 (proj2 (proj2
           (executor_retry_policy 1 6
              (scripted [ GitHubDataEngine.Failed quota_exhausted 990000;
                          GitHubDataEngine.Failed server_error 1001000;
                          GitHubDataEngine.Failed server_error 3000000 ])))))))
           quota_exhausted 990000 server_error 1001000 server_error 3000000);
    reflexivity.
Defined.

(** * Further properties *)

(** ** Date partitioner: shape of the partitions *)

Lemma partitions_within startDate endDate :
  Forall (fun p => startDate <= start p <= end_ p /\ end_ p <= endDate /\
                   end_ p - start p <= 7)
         (createDatePartitions startDate endDate).
Proof.
  unfold createDatePartitions.
  pattern startDate, endDate. apply partition_loop_ind; clear.
  - intros c e Hge. rewrite partition_loop_step.
    destruct (c <? e) eqn:E; [apply Z.ltb_lt in E; lia | constructor].
  - intros c e Hlt IH. rewrite partition_loop_step.
    apply Z.ltb_lt in Hlt as Hb. rewrite Hb. constructor.
    + simpl. destruct (e <? c + 7) eqn:E7;
        [apply Z.ltb_lt in E7 | apply Z.ltb_ge in E7]; lia.
    + eapply Forall_impl; [exact IH|]. simpl. intros p Hp. lia.
Qed.

(** The number of partitions, that is of search queries per search. *)
Lemma partitions_count startDate endDate :
  startDate <= endDate ->
  len (createDatePartitions startDate endDate) = (endDate - startDate + 7) / 8.
Proof.
  unfold createDatePartitions, len.
  pattern startDate, endDate. apply partition_loop_ind; clear.
  - intros c e Hge Hle. assert (e = c) by lia. subst e.
    rewrite partition_loop_step, Z.ltb_irrefl, Z.sub_diag. reflexivity.
  - intros c e Hlt IH _. rewrite partition_loop_step.
    apply Z.ltb_lt in Hlt as Hb. rewrite Hb. cbn [length].
    destruct (Z_le_dec (c + 8) e) as [Hle|Hgt].
    + rewrite Nat2Z.inj_succ, IH by exact Hle.
      replace (e - c + 7) with (e - (c + 8) + 7 + 1 * 8) by lia.
      rewrite Z.div_add by lia. lia.
    + rewrite partition_loop_step.
      destruct (c + 8 <? e) eqn:E; [apply Z.ltb_lt in E; lia|].
      cbn [length]. apply Z.div_unique with (r := e - c - 1); lia.
Qed.

(** *** In the time zone of the process *)

Lemma parseDate_ltb a b : (parseDate a <? parseDate b) = (a <? b).
Proof.
  unfold parseDate, msPerDay.
  destruct (a <? b) eqn:E; [apply Z.ltb_lt in E | apply Z.ltb_ge in E].
  - apply Z.ltb_lt. lia.
  - apply Z.ltb_ge. lia.
Qed.

Lemma isoDate_parseDate d : isoDate (parseDate d) = d.
Proof. unfold isoDate, parseDate, msPerDay. apply Z.div_mul. discriminate. Qed.

(** Without clock change [setDate] moves by whole days of 24 hours. *)
Lemma addDays_steady tz first last day n :
  no_clock_change tz first last ->
  first <= day <= last -> first <= day + n <= last ->
  addDays tz (parseDate day) n = parseDate (day + n).
Proof.
  intros (offset & Hsteady) Hday Hnext.
  unfold addDays, UTC, LocalTime.
  destruct (Hsteady (parseDate day)) as [-> _];
    [unfold parseDate, msPerDay in *; lia|].
  replace (parseDate day + offset + n * msPerDay)
    with (parseDate (day + n) + offset) by (unfold parseDate; lia).
  destruct (Hsteady (parseDate (day + n))) as [_ ->];
    [unfold parseDate, msPerDay in *; lia|].
  lia.
Qed.

Lemma parseDate_min a b :
  (if parseDate a <? parseDate b then parseDate a else parseDate b)
  = parseDate (if a <? b then a else b).
Proof. rewrite parseDate_ltb. destruct (a <? b); reflexivity. Qed.

(** UTC has no clock change, and New York has none from 2024-01-01 to
    2024-03-09. *)
Lemma utc_steady first last : no_clock_change utc first last.
Proof. exists 0. intros t _. split; reflexivity. Qed.

Lemma new_york_winter first last :
  day_2024_01_01 <= first -> last <= day_2024_01_01 + 68 ->
  no_clock_change new_york first last.
Proof.
  intros Hfirst Hlast. exists (-5 * msPerHour). intros t Ht.
  unfold new_york, offset_at, offset_of_local.
  unfold parseDate, msPerDay, msPerHour, day_2024_01_01 in *.
  rewrite (proj2 (Z.leb_gt _ t)) by lia.
  rewrite (proj2 (Z.leb_gt _ (t + _))) by lia.
  split; reflexivity.
Qed.

(** Where the clock does not change, the loop on time values is the loop
    on day numbers. *)
Lemma partition_loop_steady tz first last fuel current end' :
  no_clock_change tz first last -> first <= current -> end' + 8 <= last ->
  (Z.to_nat (end' - current) < fuel)%nat ->
  Zoned.partition_loop tz fuel (parseDate current) (parseDate end')
  = Some (partition_loop current end').
Proof.
  intros Hsteady. revert current.
  induction fuel as [|fuel IH]; intros current Hfirst Hlast Hfuel; [lia|].
  cbn [Zoned.partition_loop]. rewrite partition_loop_step, parseDate_ltb.
  destruct (current <? end') eqn:E; [apply Z.ltb_lt in E | reflexivity].
  rewrite !(addDays_steady tz first last) by (assumption || lia).
  rewrite IH by lia. rewrite parseDate_min, !isoDate_parseDate. reflexivity.
Qed.

(** X1: where the process time zone has no clock change from the start
    date to eight days after the end date, [createDatePartitions] cuts the
    range of dates into the partitions of the day-number loop: they are
    contiguous (each starts the day after the previous one ends), lie
    inside the range, span at most eight days each, and cover every day of
    the range before the end date; a range of [n] days' difference is cut
    into [(n + 7) / 8] partitions. As many iterations as the range has days
    are enough. *)
Theorem createDatePartitions_shape tz fuel startDate endDate :
  no_clock_change tz startDate (endDate + 8) ->
  (Z.to_nat (endDate - startDate) < fuel)%nat ->
  exists partitions,
    Zoned.createDatePartitions tz fuel startDate endDate = Some partitions /\
    partitions = createDatePartitions startDate endDate /\
    contiguous partitions /\
    Forall (fun p => startDate <= start p <= end_ p /\ end_ p <= endDate /\
                     end_ p - start p <= 7) partitions /\
    (forall d, startDate <= d < endDate -> covered partitions d) /\
    (startDate <= endDate ->
     len partitions = (endDate - startDate + 7) / 8).
Proof.
  intros Hsteady Hfuel. exists (createDatePartitions startDate endDate).
  split.
  { apply (partition_loop_steady tz startDate (endDate + 8));
      (assumption || lia). }
  split; [reflexivity|].
  split; [apply partitions_contiguous|].
  split; [apply partitions_within|].
  split; [|apply partitions_count].
  intros d Hd. apply covered_iff. lia.
Qed.

Lemma createDatePartitions_shape_witness :
  exists partitions,
    Zoned.createDatePartitions new_york 10 day_2024_01_01 (day_2024_01_01 + 9)
      = Some partitions /\
    len partitions = 2.
Proof.
  destruct (createDatePartitions_shape new_york 10 day_2024_01_01
              (day_2024_01_01 + 9)) as (partitions & Hrun & _ & _ & _ & _ & Hn).
  - apply new_york_winter; lia.
  - vm_compute. lia.
  - exists partitions. split; [exact Hrun|].
    rewrite Hn by lia. reflexivity.
Defined.

(** Where the clock changes inside the range the partitions depend on the
    time zone: in New York the week that starts on 2024-03-03 ends on the
    day the next one starts, since [current] has moved to 23:00 UTC. *)
Lemma createDatePartitions_new_york :
  Zoned.createDatePartitions new_york 10 (day_2024_01_01 + 62)
    (day_2024_01_01 + 79)
  = Some [ {| start := day_2024_01_01 + 62; end_ := day_2024_01_01 + 69 |};
           {| start := day_2024_01_01 + 69; end_ := day_2024_01_01 + 76 |};
           {| start := day_2024_01_01 + 77; end_ := day_2024_01_01 + 79 |} ].
Proof. vm_compute. reflexivity. Qed.

(** ** Reconciler: what is kept, what is added *)

Lemma updateDirectCommits_other prs l i c :
  l !! i = Some c ->
  (forall pc, pc ∈ prs -> sha pc <> sha c) ->
  updateDirectCommits prs l !! i = Some c.
Proof.
  revert l. induction prs as [|pc prs IH]; intros l Hl Hno; simpl; [exact Hl|].
  apply IH.
  - apply reclassify_miss; [exact Hl|]. apply Hno, list_elem_of_here.
  - intros q Hq. apply Hno, list_elem_of_further, Hq.
Qed.

(** X2: reconciliation leaves a direct commit exactly as it was, at the same
    position, when no pull-request commit has its sha, and also when an
    earlier direct commit has the same sha. *)
Theorem reconcile_leaves_other_commits directCommits prCommits i c :
  directCommits !! i = Some c ->
  (forall pc, pc ∈ prCommits -> sha pc <> sha c) \/
  (exists j c', (j < i)%nat /\ directCommits !! j = Some c' /\ sha c' = sha c) ->
  reconcile directCommits prCommits !! i = Some c.
Proof.
  intros Hl [Hno | (j & c' & Hj & Hc' & Hsha)]; apply reconcile_lookup_direct.
  - apply updateDirectCommits_other; assumption.
  - eapply updateDirectCommits_later; eauto.
Qed.

Lemma reconcile_leaves_other_commits_witness :
  reconcile [ sample_commit "abc" "octocat/hello" direct None;
              sample_commit "def" "octocat/hello" direct None ]
            [ sample_commit "abc" "octocat/hello" pull_request (Some 5) ]
    !! 1%nat
  = Some (sample_commit "def" "octocat/hello" direct None).
Proof.
  apply reconcile_leaves_other_commits; [reflexivity|].
  left. intros pc Hpc. apply list_elem_of_singleton in Hpc. subst pc.
  discriminate.
Defined.

Lemma sha_set_app l k : sha_set (l ++ k) = sha_set l ∪ sha_set k.
Proof. unfold sha_set. rewrite fmap_app. apply list_to_set_app_L. Qed.

Lemma sha_set_cons c l : sha_set (c :: l) = {[ sha c ]} ∪ sha_set l.
Proof. reflexivity. Qed.

Lemma elem_of_sha_set k l : k ∈ sha_set l <-> exists c, c ∈ l /\ sha c = k.
Proof.
  unfold sha_set. rewrite elem_of_list_to_set, list_elem_of_fmap.
  split; intros (c & H1 & H2); exists c; auto.
Qed.

Lemma find_first_sha pc l :
  (exists r, find_first (same_sha pc) l = Some r) <-> sha pc ∈ sha_set l.
Proof.
  rewrite elem_of_sha_set. split.
  - intros ([i c] & E). apply find_first_Some in E as (Hl & Hp & _).
    exists c. split; [eapply list_elem_of_lookup_2; eauto|].
    apply same_sha_true, Hp.
  - intros (c & Hin & Hs).
    destruct (find_first (same_sha pc) l) as [r|] eqn:E; [eauto|].
    pose proof (proj1 (find_first_None _ _) E c Hin) as Hf.
    apply same_sha_false in Hf. congruence.
Qed.

Lemma sha_set_nil : sha_set [] = ∅.
Proof. reflexivity. Qed.

(** Equality of two sets of shas, element by element. *)
Ltac by_elements :=
  apply set_eq; intros ?;
  rewrite ?elem_of_union, ?elem_of_difference, ?elem_of_union,
    ?elem_of_singleton, ?elem_of_empty;
  try tauto.

Lemma sha_set_snoc l c : sha_set (l ++ [c]) = sha_set l ∪ {[ sha c ]}.
Proof. rewrite sha_set_app, sha_set_cons, sha_set_nil. by_elements. Qed.

Lemma addPrCommits_sha_set prs l :
  sha_set (addPrCommits prs l) = sha_set l ∪ sha_set prs.
Proof.
  revert l. induction prs as [|pc prs IH]; intros l; simpl.
  - rewrite sha_set_nil. by_elements.
  - rewrite sha_set_cons.
    destruct (find_first (same_sha pc) l) as [r|] eqn:E; rewrite IH.
    + assert (Hin : sha pc ∈ sha_set l) by (apply find_first_sha; eauto).
      by_elements. intuition (subst; auto).
    + rewrite sha_set_snoc. by_elements.
Qed.

Lemma addPrCommits_length prs l :
  length (addPrCommits prs l)
  = (length l + size (sha_set prs ∖ sha_set l))%nat.
Proof.
  revert l. induction prs as [|pc prs IH]; intros l; simpl.
  - rewrite sha_set_nil.
    replace (∅ ∖ sha_set l) with (∅ : gset string) by by_elements.
    rewrite size_empty. lia.
  - rewrite sha_set_cons.
    destruct (find_first (same_sha pc) l) as [r|] eqn:E; rewrite IH.
    + assert (Hin : sha pc ∈ sha_set l) by (apply find_first_sha; eauto).
      replace (({[sha pc]} ∪ sha_set prs) ∖ sha_set l)
        with (sha_set prs ∖ sha_set l); [reflexivity|].
      by_elements. intuition (subst; try contradiction; auto).
    + assert (Hn : sha pc ∉ sha_set l).
      { intros Hin. apply find_first_sha in Hin as [r Hr]. congruence. }
      rewrite length_app, sha_set_snoc. cbn [length].
      revert Hn. generalize (sha_set prs) (sha_set l) (sha pc).
      clear. intros R L k Hn.
      assert (E : ({[k]} ∪ R) ∖ L = {[k]} ∪ R ∖ (L ∪ {[k]})).
      { by_elements.
        match goal with x : string |- _ =>
          destruct (decide (x = k)) as [->|?]; tauto end. }
      rewrite E, (size_union (C := gset string) {[k]}).
      * rewrite size_singleton. lia.
      * apply elem_of_disjoint. intros x.
        rewrite elem_of_singleton, elem_of_difference, elem_of_union,
          elem_of_singleton. tauto.
Qed.

Lemma updateDirectCommits_sha_set prs l :
  sha_set (updateDirectCommits prs l) = sha_set l.
Proof.
  unfold sha_set.
  change (sha <$> updateDirectCommits prs l) with (map sha (updateDirectCommits prs l)).
  rewrite updateDirectCommits_shas. reflexivity.
Qed.

(** X3: the shas of the reconciled collection are those of the direct
    commits and of the pull-request commits, no more and no less; the direct
    commits keep their order at the front; and the length of the result is
    the number of direct commits plus the number of distinct shas that only
    the pull-request commits have. *)
Theorem reconcile_shas_and_length directCommits prCommits :
  sha_set (reconcile directCommits prCommits)
    = sha_set directCommits ∪ sha_set prCommits /\
  map sha (take (length directCommits) (reconcile directCommits prCommits))
    = map sha directCommits /\
  length (reconcile directCommits prCommits)
    = (length directCommits
       + size (sha_set prCommits ∖ sha_set directCommits))%nat.
Proof.
  unfold reconcile. split; [|split].
  - rewrite addPrCommits_sha_set, updateDirectCommits_sha_set. reflexivity.
  - destruct (addPrCommits_extends prCommits
                (updateDirectCommits prCommits directCommits)) as [added ->].
    rewrite <- (updateDirectCommits_length prCommits directCommits).
    rewrite take_app_length. apply updateDirectCommits_shas.
  - rewrite addPrCommits_length, updateDirectCommits_sha_set,
      updateDirectCommits_length. reflexivity.
Qed.

(** ** Record accounting of the repository walk *)

Lemma counted_refl s : counted 0 s s.
Proof.
  repeat split; [lia|]. exists []. rewrite app_nil_r. reflexivity.
Qed.

Lemma counted_trans n m s1 s2 s3 :
  counted n s1 s2 -> counted m s2 s3 -> counted (n + m) s1 s3.
Proof.
  intros (Ht1 & Hc1 & e1 & He1) (Ht2 & Hc2 & e2 & He2).
  repeat split; [lia | congruence|].
  exists (e1 ++ e2). rewrite He2, He1, app_assoc. reflexivity.
Qed.

Lemma counted_set_totalFetched n s :
  counted n s (set_totalFetched (totalFetched s + n) s).
Proof.
  repeat split. exists []. simpl. rewrite app_nil_r. reflexivity.
Qed.

Lemma counted_push_error e s : counted 0 s (push_error e s).
Proof. repeat split; [simpl; lia|]. exists [e]. reflexivity. Qed.

Lemma limit_reached_iff config s :
  checkTotalRecordsLimit config s = true <->
  0 < totalRecords config /\ totalRecords config <= totalFetched s.
Proof.
  unfold checkTotalRecordsLimit.
  rewrite andb_true_iff, Z.ltb_lt, Z.leb_le. reflexivity.
Qed.

Lemma limit_not_reached_iff config s :
  checkTotalRecordsLimit config s = false <->
  totalRecords config <= 0 \/ totalFetched s < totalRecords config.
Proof.
  unfold checkTotalRecordsLimit.
  rewrite andb_false_iff, Z.ltb_ge, Z.leb_gt. reflexivity.
Qed.

Lemma len_app {A} (l k : list A) : len (l ++ k) = len l + len k.
Proof. unfold len. rewrite length_app. lia. Qed.

Lemma len_nonneg {A} (l : list A) : 0 <= len l.
Proof. unfold len. lia. Qed.

Lemma len_splice_last {A} excess (l : list A) :
  0 <= excess <= len l -> len (splice_last excess l) = len l - excess.
Proof.
  unfold splice_last, len. intros H. rewrite length_take. lia.
Qed.

Lemma remaining_within config s :
  0 < totalRecords config ->
  getRemainingRecords config s
  = Z.max 0 (totalRecords config - totalFetched s).
Proof.
  intros H. unfold getRemainingRecords.
  destruct (totalRecords config =? 0) eqn:E; [apply Z.eqb_eq in E; lia|].
  reflexivity.
Qed.

(** The last page of a listing that reaches the limit: the excess is cut
    from the end and the counter is set to the limit. *)
Lemma cut_counted {A} config (held page_items r : list A) s s' :
  checkTotalRecordsLimit config s = false ->
  checkTotalRecordsLimit config
    (set_totalFetched (totalFetched s + len page_items) s) = true ->
  (let s2 := set_totalFetched (totalFetched s + len page_items) s in
   let excess := totalFetched s2 - totalRecords config in
   if 0 <? excess
   then Return (splice_last excess (held ++ page_items))
               (set_totalFetched (totalRecords config) s2)
   else Return (held ++ page_items) s2) = Return r s' ->
  counted (len r - len held) s s' /\ totalFetched s' = totalRecords config.
Proof.
  cbv zeta. intros Hl Hl2 H.
  apply limit_not_reached_iff in Hl. apply limit_reached_iff in Hl2.
  pose proof (len_nonneg page_items) as Hn.
  pose proof (len_nonneg held) as Hh.
  cbn [totalFetched set_totalFetched] in *.
  destruct (0 <? totalFetched s + len page_items - totalRecords config) eqn:Hex;
    inversion H; subst; clear H.
  - apply Z.ltb_lt in Hex.
    rewrite len_splice_last by (rewrite len_app; lia).
    rewrite len_app. split; [|reflexivity].
    repeat split; [simpl; lia|].
    exists []. simpl. rewrite app_nil_r. reflexivity.
  - apply Z.ltb_ge in Hex. split; [|simpl; lia]. rewrite len_app.
    replace (len held + len page_items - len held) with (len page_items) by lia.
    apply counted_set_totalFetched.
Qed.

Lemma page_counted {A} (held page_items : list A) s :
  counted (len (held ++ page_items) - len held) s
    (set_totalFetched (totalFetched s + len page_items) s).
Proof.
  rewrite len_app.
  replace (len held + len page_items - len held) with (len page_items) by lia.
  apply counted_set_totalFetched.
Qed.

Lemma per_page_nonneg config s :
  0 <= Z.min 100 (getRemainingRecords config s).
Proof.
  unfold getRemainingRecords, MAX_SAFE_INTEGER.
  destruct (totalRecords config =? 0); lia.
Qed.

(** A page no longer than the [per_page] asked for fits in the limit. *)
Lemma page_within_limit config s n :
  0 < totalRecords config ->
  checkTotalRecordsLimit config s = false ->
  n <= Z.min 100 (getRemainingRecords config s) ->
  totalFetched s + n <= totalRecords config.
Proof.
  intros Hb Hl Hn. apply limit_not_reached_iff in Hl.
  rewrite remaining_within in Hn by exact Hb. lia.
Qed.

Lemma getUserRepositories_loop_counted
    config api fuel username page repos s r s' :
  getUserRepositories_loop config api fuel username page repos s = Return r s' ->
  counted (len r - len repos) s s' /\
  (honours_per_page api -> 0 < totalRecords config ->
   totalFetched s <= totalRecords config ->
   totalFetched s' <= totalRecords config).
Proof.
  revert page repos s. induction fuel as [|fuel IH]; intros page repos s H;
    simpl in H; [discriminate|].
  destruct (cancelled s || checkTotalRecordsLimit config s) eqn:Hgate.
  { inversion H; subst. rewrite Z.sub_diag. split; [apply counted_refl | auto]. }
  apply orb_false_iff in Hgate as [Hc Hl].
  unfold makeRequest in H.
  destruct (GET_user_repos api username page
              (Z.min 100 (getRemainingRecords config s)))
    as [st items|e] eqn:Hreq.
  2:{ inversion H; subst. rewrite Z.sub_diag.
      split; [apply counted_push_error | auto]. }
  destruct (st =? 200).
  2:{ inversion H; subst. rewrite Z.sub_diag.
      split; [apply counted_push_error | auto]. }
  destruct (len items =? 0).
  { inversion H; subst. rewrite Z.sub_diag. split; [apply counted_refl | auto]. }
  assert (Hfit : honours_per_page api -> 0 < totalRecords config ->
                 totalFetched s + len items <= totalRecords config).
  { intros [Hh _] Hb. apply page_within_limit; [exact Hb | exact Hl|].
    eapply Hh; [apply per_page_nonneg | eauto]. }
  destruct (len items <? 100).
  { inversion H; subst. split; [apply page_counted|]. simpl. auto. }
  destruct (checkTotalRecordsLimit config
              (set_totalFetched (totalFetched s + len items) s)) eqn:Hl2.
  { destruct (cut_counted config repos items r s s' Hl Hl2 H) as [Hcnt Htf].
    split; [exact Hcnt | intros; lia]. }
  apply IH in H as [Hcnt Hbudget]. split.
  - replace (len r - len repos)
      with ((len (repos ++ items) - len repos) + (len r - len (repos ++ items)))
      by lia.
    eapply counted_trans; [apply page_counted | exact Hcnt].
  - intros Hh Hb Htf. apply Hbudget; [exact Hh | exact Hb|]. simpl. auto.
Qed.

Lemma len_map {A B} (f : A -> B) (l : list A) : len (map f l) = len l.
Proof. unfold len. rewrite length_map. reflexivity. Qed.

Lemma getRepositoryCommits_loop_counted
    config api fuel owner repo author dateRange page commits s r s' :
  getRepositoryCommits_loop config api fuel owner repo author dateRange page
    commits s = Return r s' ->
  counted (len r - len commits) s s' /\
  (honours_per_page api -> 0 < totalRecords config ->
   totalFetched s <= totalRecords config ->
   totalFetched s' <= totalRecords config).
Proof.
  revert page commits s. induction fuel as [|fuel IH]; intros page commits s H;
    simpl in H; [discriminate|].
  destruct (cancelled s || checkTotalRecordsLimit config s) eqn:Hgate.
  { inversion H; subst. rewrite Z.sub_diag. split; [apply counted_refl | auto]. }
  apply orb_false_iff in Hgate as [Hc Hl].
  unfold makeRequest in H.
  destruct (GET_repo_commits api owner repo author page
              (Z.min 100 (getRemainingRecords config s))
              (since_until config dateRange))
    as [st items|e] eqn:Hreq.
  2:{ destruct (status_is e 409 || status_is e 404);
        inversion H; subst; rewrite Z.sub_diag;
        (split; [first [apply counted_refl | apply counted_push_error] | auto]). }
  destruct (st =? 200).
  2:{ cbn in H. inversion H; subst. rewrite Z.sub_diag.
      split; [apply counted_push_error | auto]. }
  destruct (len items =? 0).
  { inversion H; subst. rewrite Z.sub_diag. split; [apply counted_refl | auto]. }
  assert (Hfit : honours_per_page api -> 0 < totalRecords config ->
                 totalFetched s + len (map (directCommit owner repo) items)
                 <= totalRecords config).
  { intros [_ Hh] Hb. rewrite len_map.
    apply page_within_limit; [exact Hb | exact Hl|].
    eapply Hh; [apply per_page_nonneg | eauto]. }
  destruct (len items <? 100).
  { inversion H; subst. split; [apply page_counted|]. simpl. auto. }
  destruct (checkTotalRecordsLimit config
              (set_totalFetched
                 (totalFetched s + len (map (directCommit owner repo) items)) s))
    eqn:Hl2.
  { destruct (cut_counted config commits (map (directCommit owner repo) items)
                r s s' Hl Hl2 H) as [Hcnt Htf].
    split; [exact Hcnt | intros; lia]. }
  apply IH in H as [Hcnt Hbudget]. split.
  - replace (len r - len commits)
      with ((len (commits ++ map (directCommit owner repo) items) - len commits)
            + (len r - len (commits ++ map (directCommit owner repo) items)))
      by lia.
    eapply counted_trans; [apply page_counted | exact Hcnt].
  - intros Hh Hb Htf. apply Hbudget; [exact Hh | exact Hb|]. simpl. auto.
Qed.

Lemma walk_repositories_counted
    config api fuel user dateRange repos allCommits s r s' :
  walk_repositories config api fuel user dateRange repos allCommits s
    = Return r s' ->
  counted (len r - len allCommits) s s' /\
  (honours_per_page api -> 0 < totalRecords config ->
   totalFetched s <= totalRecords config ->
   totalFetched s' <= totalRecords config).
Proof.
  revert allCommits s. induction repos as [|x rest IH]; intros allCommits s H;
    simpl in H.
  { inversion H; subst. rewrite Z.sub_diag. split; [apply counted_refl | auto]. }
  destruct (cancelled s || checkTotalRecordsLimit config s).
  { inversion H; subst. rewrite Z.sub_diag. split; [apply counted_refl | auto]. }
  unfold getRepositoryCommits in H.
  destruct (getRepositoryCommits_loop config api fuel (owner_login x) (name x)
              user dateRange 1 [] s) as [repoCommits s1|e s1|] eqn:Hrepo;
    [|discriminate|discriminate].
  apply getRepositoryCommits_loop_counted in Hrepo as [Hcnt1 Hb1].
  change (len []) with 0 in Hcnt1. rewrite Z.sub_0_r in Hcnt1.
  destruct (checkTotalRecordsLimit config s1).
  - inversion H; subst. rewrite len_app.
    replace (len allCommits + len repoCommits - len allCommits)
      with (len repoCommits) by lia.
    split; [exact Hcnt1 | exact Hb1].
  - apply IH in H as [Hcnt2 Hb2]. split.
    + replace (len r - len allCommits)
        with (len repoCommits + (len r - len (allCommits ++ repoCommits)))
        by (rewrite len_app; lia).
      eapply counted_trans; eauto.
    + intros Hh Hb Htf. apply Hb2; auto.
Qed.

Lemma searchUserRepositoryCommits_within_limit
    config api fuel user dateRange s commits s' :
  honours_per_page api -> 0 < totalRecords config ->
  totalFetched s <= totalRecords config ->
  searchUserRepositoryCommits config api fuel user dateRange s
    = Return commits s' ->
  totalFetched s' <= totalRecords config.
Proof.
  intros Hh Hb Htf.
  unfold searchUserRepositoryCommits, bind, getUserRepositories.
  destruct (getUserRepositories_loop config api fuel user 1 [] s)
    as [repos s1|e s1|] eqn:Hrepos; [|discriminate|discriminate].
  intros Hwalk.
  apply getUserRepositories_loop_counted in Hrepos as [_ Hb1].
  apply walk_repositories_counted in Hwalk as [_ Hb2].
  auto.
Qed.

(** X4: the repository walk counts what it reads: when
    [searchUserRepositoryCommits] returns, the listing of the repositories
    has returned too, and [totalFetched] has grown by the number of
    repositories listed plus the number of commits returned; the
    cancellation flag is untouched and errors were only appended. If the
    service never answers with more entries than the [per_page] asked for,
    a positive record limit that was respected before the walk is respected
    after it, so the walk returns at most as many commits as were left. *)
Theorem searchUserRepositoryCommits_counted
    config api fuel user dateRange s commits s' :
  searchUserRepositoryCommits config api fuel user dateRange s
    = Return commits s' ->
  (exists repositories s1,
     getUserRepositories config api fuel user s = Return repositories s1 /\
     counted (len repositories) s s1 /\
     counted (len commits) s1 s' /\
     counted (len repositories + len commits) s s') /\
  (honours_per_page api -> 0 < totalRecords config ->
   totalFetched s <= totalRecords config ->
   totalFetched s' <= totalRecords config /\
   len commits <= totalRecords config - totalFetched s).
Proof.
  unfold searchUserRepositoryCommits, bind, getUserRepositories. intros H.
  destruct (getUserRepositories_loop config api fuel user 1 [] s)
    as [repos s1|e s1|] eqn:Hrepos; [|discriminate|discriminate].
  apply getUserRepositories_loop_counted in Hrepos as [Hcnt1 Hb1].
  apply walk_repositories_counted in H as [Hcnt2 Hb2].
  change (len []) with 0 in *. rewrite Z.sub_0_r in *.
  assert (Hall : counted (len repos + len commits) s s')
    by (eapply counted_trans; eauto).
  split.
  - exists repos, s1. repeat split; try assumption; try apply Hcnt1;
      try apply Hcnt2; apply Hall.
  - intros Hh Hb Htf. specialize (Hb1 Hh Hb Htf). specialize (Hb2 Hh Hb Hb1).
    split; [exact Hb2|].
    destruct Hall as [Htotal _]. pose proof (len_nonneg repos). lia.
Qed.

Lemma searchUserRepositoryCommits_counted_witness :
  exists commits s',
    searchUserRepositoryCommits budget50 sample_api 10 "octocat" None
      initial_state = Return commits s' /\
    totalFetched s' <= 50 /\ len commits <= 50 - 0.
Proof.
  destruct (searchUserRepositoryCommits budget50 sample_api 10 "octocat" None
              initial_state) as [commits s'|e s'|] eqn:Hrun;
    [|vm_compute in Hrun; discriminate..].
  exists commits, s'. split; [reflexivity|].
  apply (proj2 (searchUserRepositoryCommits_counted budget50 sample_api 10
                  "octocat" None initial_state commits s' Hrun)).
  - split; intros until items; intros Hpp Heq; inversion Heq; subst; clear Heq;
      unfold page_of, len; rewrite length_take; lia.
  - reflexivity.
  - simpl. lia.
Defined.

(** ** Pull-request search: state, limit and errors *)

Lemma searchPullRequestsForQuery_loop_unchanged
    config api fuel query created page pullRequests s :
  unchanged s
    (searchPullRequestsForQuery_loop config api fuel query created page
       pullRequests s).
Proof.
  revert page pullRequests. induction fuel as [|fuel IH];
    intros page pullRequests; simpl; [exact I|].
  destruct (cancelled s || checkTotalRecordsLimit config s); [reflexivity|].
  unfold makeRequest.
  destruct (GET_search_issues api query created page
              (Z.min 100 (getRemainingRecords config s))) as [st items|e].
  - destruct (st =? 200).
    + repeat match goal with
             | |- unchanged _ (if ?b then _ else _) => destruct b
             | |- unchanged _ (Return _ _) => reflexivity
             end.
      apply IH.
    + cbn. reflexivity.
  - destruct (status_is e 422 && includes "Only the first 1000" (error_message e));
      reflexivity.
Qed.

Lemma search_partitions_unchanged
    config api fuel query partitions allPullRequests s :
  unchanged s
    (search_partitions config api fuel query partitions allPullRequests s).
Proof.
  revert allPullRequests. induction partitions as [|p rest IH];
    intros allPullRequests; simpl; [reflexivity|].
  destruct (cancelled s || checkTotalRecordsLimit config s); [reflexivity|].
  unfold searchPullRequestsForQuery.
  pose proof (searchPullRequestsForQuery_loop_unchanged config api fuel query
                (Some p) 1 [] s) as Hq.
  destruct (searchPullRequestsForQuery_loop config api fuel query (Some p) 1 [] s)
    as [results s1|e s1|]; simpl in Hq; subst; [|reflexivity|exact I].
  repeat match goal with
         | |- unchanged _ (if ?b then _ else _) => destruct b
         | |- unchanged _ (Return _ _) => reflexivity
         end.
  apply IH.
Qed.

Lemma searchPullRequestsForUser_unchanged config api fuel baseQuery dateRange s :
  unchanged s (searchPullRequestsForUser config api fuel baseQuery dateRange s).
Proof.
  unfold searchPullRequestsForUser, searchPullRequestsForQuery.
  destruct dateRange as [range|];
    [destruct (negb (ignoreDateRange config))|];
    first [apply search_partitions_unchanged
          | apply searchPullRequestsForQuery_loop_unchanged].
Qed.

Lemma len_splice_from {A} n (l : list A) :
  0 <= n -> n < len l -> len (splice_from n l) = n.
Proof. unfold splice_from, len. intros H1 H2. rewrite length_take. lia. Qed.

Lemma remaining_nonneg config s : 0 <= getRemainingRecords config s.
Proof.
  unfold getRemainingRecords, MAX_SAFE_INTEGER.
  destruct (totalRecords config =? 0); lia.
Qed.

(** The merge counts what it keeps, and keeps no more than is left. *)
Lemma mergePullRequests_state config authorResults userResults s :
  exists pullRequests s',
    mergePullRequests config authorResults userResults s
      = Return pullRequests s' /\
    errors s' = errors s /\ cancelled s' = cancelled s /\
    (totalRecords config <= 0 -> s' = s) /\
    (0 < totalRecords config ->
     totalFetched s' = totalFetched s + len pullRequests /\
     len pullRequests <= getRemainingRecords config s /\
     (totalFetched s <= totalRecords config ->
      totalFetched s' <= totalRecords config)).
Proof.
  unfold mergePullRequests.
  pose proof (remaining_nonneg config s) as Hrem.
  destruct (0 <? totalRecords config) eqn:Hb;
    [apply Z.ltb_lt in Hb | apply Z.ltb_ge in Hb].
  - eexists _, _. split; [reflexivity|].
    split; [reflexivity|]. split; [reflexivity|]. split; [lia|]. intros _.
    set (u := uniquePullRequests (authorResults ++ userResults)).
    destruct (getRemainingRecords config s <? len u) eqn:E;
      [apply Z.ltb_lt in E | apply Z.ltb_ge in E]; cbn [totalFetched set_totalFetched].
    + rewrite len_splice_from by lia.
      split; [reflexivity|]. split; [lia|].
      intros Htf. rewrite remaining_within by lia. lia.
    + split; [reflexivity|]. split; [exact E|].
      intros Htf. rewrite remaining_within in E by lia. lia.
  - eexists _, _. split; [reflexivity|].
    split; [reflexivity|]. split; [reflexivity|]. split; [reflexivity | lia].
Qed.

Lemma searchPullRequestsWithPartitioning_within_limit
    config api fuel user dateRange s pullRequests s' :
  0 < totalRecords config -> totalFetched s <= totalRecords config ->
  searchPullRequestsWithPartitioning config api fuel user dateRange s
    = Return pullRequests s' ->
  totalFetched s' <= totalRecords config.
Proof.
  intros Hb Htf. unfold searchPullRequestsWithPartitioning, bind.
  pose proof (searchPullRequestsForUser_unchanged config api fuel
                ("author:" ++ user) dateRange s) as Ha.
  destruct (searchPullRequestsForUser config api fuel ("author:" ++ user)
              dateRange s) as [authorResults s1|e s1|];
    simpl in Ha; subst; [|discriminate|discriminate].
  pose proof (searchPullRequestsForUser_unchanged config api fuel
                ("user:" ++ user) dateRange s) as Hu.
  destruct (searchPullRequestsForUser config api fuel ("user:" ++ user)
              dateRange s) as [userResults s1|e s1|];
    simpl in Hu; subst; [|discriminate|discriminate].
  destruct (mergePullRequests_state config authorResults userResults s)
    as (prs & s1 & -> & _ & _ & _ & Hcount).
  intros H. inversion H; subst. apply (Hcount Hb). exact Htf.
Qed.

(** X5: the dual pull-request search writes the engine state in one place
    only, the merge. If it throws, the state is as before the search. If it
    returns, no error was recorded; without a record limit the state is
    unchanged, and with a positive limit the pull requests returned are
    counted, they are no more than the records that were left, and a limit
    respected before the search is respected after it. *)
Theorem searchPullRequestsWithPartitioning_state
    config api fuel user dateRange s :
  match searchPullRequestsWithPartitioning config api fuel user dateRange s with
  | Throw _ s' => s' = s
  | OutOfFuel => True
  | Return pullRequests s' =>
      errors s' = errors s /\ cancelled s' = cancelled s /\
      (totalRecords config <= 0 -> s' = s) /\
      (0 < totalRecords config ->
       totalFetched s' = totalFetched s + len pullRequests /\
       len pullRequests <= getRemainingRecords config s /\
       (totalFetched s <= totalRecords config ->
        totalFetched s' <= totalRecords config))
  end.
Proof.
  unfold searchPullRequestsWithPartitioning, bind.
  pose proof (searchPullRequestsForUser_unchanged config api fuel
                ("author:" ++ user) dateRange s) as Ha.
  destruct (searchPullRequestsForUser config api fuel ("author:" ++ user)
              dateRange s) as [authorResults s1|e s1|];
    simpl in Ha; subst; [|reflexivity|exact I].
  pose proof (searchPullRequestsForUser_unchanged config api fuel
                ("user:" ++ user) dateRange s) as Hu.
  destruct (searchPullRequestsForUser config api fuel ("user:" ++ user)
              dateRange s) as [userResults s1|e s1|];
    simpl in Hu; subst; [|reflexivity|exact I].
  destruct (mergePullRequests_state config authorResults userResults s)
    as (pullRequests & s' & -> & He & Hc & Hnone & Hcount).
  repeat split; try assumption; apply (Hcount ltac:(assumption)).
Qed.

Lemma searchPullRequestsWithPartitioning_state_witness :
  exists pullRequests s',
    searchPullRequestsWithPartitioning budget50 sample_api 10 "octocat" None
      initial_state = Return pullRequests s' /\
    totalFetched s' = totalFetched initial_state + len pullRequests.
Proof.
  pose proof (searchPullRequestsWithPartitioning_state budget50 sample_api 10
                "octocat" None initial_state) as H.
  destruct (searchPullRequestsWithPartitioning budget50 sample_api 10
              "octocat" None initial_state) as [pullRequests s'|e s'|] eqn:Hrun;
    [|vm_compute in Hrun; discriminate..].
  exists pullRequests, s'. split; [reflexivity|].
  apply H. reflexivity.
Defined.

(** The error that ends a search at the ceiling of the search API. *)
Lemma search_loop_error config api fuel query created page pullRequests s error :
  cancelled s = false ->
  checkTotalRecordsLimit config s = false ->
  GET_search_issues api query created page
    (Z.min 100 (getRemainingRecords config s)) = Rejected error ->
  searchPullRequestsForQuery_loop config api (S fuel) query created page
    pullRequests s
  = if status_is error 422
       && includes "Only the first 1000" (error_message error)
    then Return pullRequests s
    else Throw error s.
Proof.
  intros Hc Hl Hreq. simpl. rewrite Hc, Hl, Hreq. reflexivity.
Qed.

(** X6: a search without record limit gathers the full pages in order. When
    the page after them is refused with status 422 and a message containing
    "Only the first 1000", the search returns all the items gathered; when
    it fails with any other error, the search throws that error unmodified
    and the items gathered are lost. [length pages + 1] iterations are
    enough. *)
Theorem searchPullRequestsForQuery_pages_then_error
    config api query created error pages fuel page pullRequests s :
  totalRecords config = 0 ->
  cancelled s = false ->
  (forall i items, pages !! i = Some items ->
     len items = 100 /\
     GET_search_issues api query created (page + Z.of_nat i) 100
       = Resolved 200 items) ->
  GET_search_issues api query created (page + len pages) 100 = Rejected error ->
  (length pages < fuel)%nat ->
  searchPullRequestsForQuery_loop config api fuel query created page
    pullRequests s
  = if status_is error 422
       && includes "Only the first 1000" (error_message error)
    then Return (pullRequests ++ concat pages) s
    else Throw error s.
Proof.
  intros Hcfg Hc. revert fuel page pullRequests.
  induction pages as [|items pages IH];
    intros fuel page pullRequests Hpages Hlast Hfuel.
  - destruct fuel as [|fuel]; [simpl in Hfuel; lia|].
    unfold len in Hlast. simpl in Hlast. rewrite Z.add_0_r in Hlast.
    simpl concat. rewrite app_nil_r.
    apply search_loop_error;
      [exact Hc | apply no_limit_unlimited, Hcfg|].
    rewrite per_page_unlimited by exact Hcfg. exact Hlast.
  - destruct fuel as [|fuel]; [simpl in Hfuel; lia|].
    destruct (Hpages O items eq_refl) as [Hlen Hreq].
    rewrite Z.add_0_r in Hreq.
    cbn [searchPullRequestsForQuery_loop].
    rewrite Hc, (no_limit_unlimited config s Hcfg). cbn [orb].
    rewrite (per_page_unlimited config s Hcfg), Hreq.
    cbn [makeRequest Z.eqb Pos.eqb].
    rewrite Hlen. cbn [Z.eqb Z.ltb Z.compare Pos.compare Pos.compare_cont].
    rewrite no_limit_unlimited by exact Hcfg.
    rewrite IH.
    + simpl concat. rewrite app_assoc. reflexivity.
    + intros i its Hi. destruct (Hpages (S i) its Hi) as [Hl Hr].
      split; [exact Hl|]. rewrite <- Hr. f_equal. lia.
    + rewrite <- Hlast. f_equal. unfold len. simpl length. lia.
    + simpl in Hfuel. lia.
Qed.

Lemma searchPullRequestsForQuery_pages_then_error_witness :
  searchPullRequestsForQuery_loop unlimited capped_search_api 11
    "author:octocat is:pr" None 1 [] initial_state
  = Return ([] ++ concat (map search_page [1; 2; 3; 4; 5; 6; 7; 8; 9; 10]))
      initial_state.
Proof.
  apply (searchPullRequestsForQuery_pages_then_error unlimited
           capped_search_api "author:octocat is:pr" None search_ceiling_error
           (map search_page [1; 2; 3; 4; 5; 6; 7; 8; 9; 10])
           11 1 [] initial_state).
  - reflexivity.
  - reflexivity.
  - intros i items Hi.
    do 10 (destruct i as [|i]; [inversion Hi; subst; split; reflexivity|]).
    discriminate.
  - reflexivity.
  - simpl. lia.
Defined.

(** ** Pull-request commits and the whole run *)

Lemma getPullRequestCommits_listed api pr s :
  let '(owner, repo) := last_two (split_char "/" (repository_url pr)) in
  exists s',
    getPullRequestCommits api owner repo (number pr) s
      = Return (listed_commits api pr) s' /\
    totalFetched s' = totalFetched s /\ cancelled s' = cancelled s /\
    exists new_errors,
      errors s' = errors s ++ new_errors /\ (length new_errors <= 1)%nat.
Proof.
  unfold listed_commits.
  destruct (last_two (split_char "/" (repository_url pr))) as [owner repo].
  unfold getPullRequestCommits, try_catch, bind, ret, makeRequest.
  destruct (GET_pull_commits api owner repo (number pr)) as [st commits|e].
  - destruct (st =? 200).
    + exists s. repeat split.
      exists []. rewrite app_nil_r. split; [reflexivity | simpl; lia].
    + eexists. split; [reflexivity|].
      repeat split. eexists. split; [reflexivity | simpl; lia].
  - eexists. split; [reflexivity|].
    repeat split. eexists. split; [reflexivity | simpl; lia].
Qed.

Lemma fetch_pr_commits_totalFetched config api pullRequests allPrCommits s :
  cancelled s = false ->
  checkTotalRecordsLimit config s = false ->
  exists prCommits s',
    fetch_pr_commits config api pullRequests allPrCommits s
      = Return prCommits s' /\
    totalFetched s' = totalFetched s.
Proof.
  revert allPrCommits s. induction pullRequests as [|pr rest IH];
    intros acc s Hc Hl; simpl.
  - exists acc, s. split; reflexivity.
  - rewrite Hc, Hl. cbn [orb].
    pose proof (getPullRequestCommits_listed api pr s) as Hpr.
    destruct (last_two (split_char "/" (repository_url pr))) as [owner repo].
    destruct Hpr as (s1 & -> & Htf & Hcan & _).
    assert (Hc1 : cancelled s1 = false) by congruence.
    assert (Hl1 : checkTotalRecordsLimit config s1 = false).
    { unfold checkTotalRecordsLimit in *. rewrite Htf. exact Hl. }
    destruct (IH (acc ++ listed_commits api pr) s1 Hc1 Hl1)
      as (prCommits & s' & -> & Htf').
    exists prCommits, s'. split; [reflexivity | congruence].
Qed.

(** X7: once started, the loop over the pull requests asks for the commits
    of every pull request: it always returns, with the commits of all the
    listings that succeeded, in order; a listing that fails contributes no
    commit and one error at most. It never changes [totalFetched], so the
    record limit never stops it and never bounds what it gathers. *)
Theorem fetch_pr_commits_gathers_all config api pullRequests allPrCommits s :
  cancelled s = false ->
  checkTotalRecordsLimit config s = false ->
  exists s',
    fetch_pr_commits config api pullRequests allPrCommits s
      = Return (allPrCommits ++ concat (map (listed_commits api) pullRequests)) s'
    /\ totalFetched s' = totalFetched s /\ cancelled s' = cancelled s /\
    exists new_errors,
      errors s' = errors s ++ new_errors /\
      (length new_errors <= length pullRequests)%nat.
Proof.
  revert allPrCommits s. induction pullRequests as [|pr rest IH];
    intros acc s Hc Hl; simpl.
  - exists s. rewrite app_nil_r. repeat split.
    exists []. rewrite app_nil_r. split; [reflexivity | simpl; lia].
  - rewrite Hc, Hl. cbn [orb].
    pose proof (getPullRequestCommits_listed api pr s) as Hpr.
    destruct (last_two (split_char "/" (repository_url pr))) as [owner repo].
    destruct Hpr as (s1 & -> & Htf & Hcan & e1 & He1 & Hn1).
    assert (Hc1 : cancelled s1 = false) by congruence.
    assert (Hl1 : checkTotalRecordsLimit config s1 = false).
    { unfold checkTotalRecordsLimit in *. rewrite Htf. exact Hl. }
    destruct (IH (acc ++ listed_commits api pr) s1 Hc1 Hl1)
      as (s' & -> & Htf' & Hcan' & e2 & He2 & Hn2).
    exists s'. rewrite <- app_assoc.
    split; [reflexivity|]. split; [congruence|]. split; [congruence|].
    exists (e1 ++ e2). rewrite He2, He1, app_assoc, length_app.
    split; [reflexivity | lia].
Qed.

Lemma fetch_pr_commits_gathers_all_witness :
  match fetch_pr_commits budget50 sample_api
          [ sample_pr 101 1 hello_url; sample_pr 102 2 hello_url ] []
          {| totalFetched := 49; errors := []; cancelled := false |}
  with
  | Return commits s' => len commits = 22 /\ totalFetched s' = 49
  | _ => False
  end.
Proof.
  destruct (fetch_pr_commits_gathers_all budget50 sample_api
              [ sample_pr 101 1 hello_url; sample_pr 102 2 hello_url ] []
              {| totalFetched := 49; errors := []; cancelled := false |}
              eq_refl eq_refl) as (s' & -> & Htf & _).
  split; [reflexivity | exact Htf].
Defined.

Lemma validateUser_unchanged api username s :
  unchanged s (validateUser api username s).
Proof.
  unfold validateUser, try_catch, bind, makeRequest, ret, throw.
  destruct (GET_user api username) as [st u|e].
  - destruct (st =? 200); [destruct (String.eqb (login u) username)|];
      cbn; reflexivity.
  - destruct (status_is e 404); reflexivity.
Qed.

(** X8: [validateUser] never writes the engine state. It returns a user
    only when the request succeeded with status 200 and the [login] of the
    answer is exactly the name asked for; every failure is thrown as a new
    error that carries no status, with the message "User '...' not found"
    when the request failed with 404. *)
Theorem validateUser_outcomes api username s :
  match validateUser api username s with
  | Return user s' =>
      s' = s /\ login user = username /\
      GET_user api username = Resolved 200 user
  | Throw error s' =>
      s' = s /\ status error = None /\
      (forall e, GET_user api username = Rejected e -> status e = Some 404 ->
         error_message error = ("User '" ++ username ++ "' not found")%string)
  | OutOfFuel => False
  end.
Proof.
  unfold validateUser, try_catch, bind, makeRequest, ret, throw.
  destruct (GET_user api username) as [st u|e].
  - destruct (st =? 200) eqn:Est.
    + apply Z.eqb_eq in Est. subst st.
      destruct (String.eqb (login u) username) eqn:El.
      * apply String.eqb_eq in El. repeat split. exact El.
      * cbn. repeat split. intros e He. discriminate.
    + cbn. repeat split. intros e He. discriminate.
  - destruct (status_is e 404) eqn:E404.
    + repeat split.
    + repeat split. intros e' He' Hst. inversion He'; subst e'.
      unfold status_is in E404. rewrite Hst in E404. discriminate.
Qed.

Lemma validateUser_outcomes_witness :
  exists user,
    validateUser sample_api "octocat" initial_state = Return user initial_state /\
    login user = "octocat"%string.
Proof.
  pose proof (validateUser_outcomes sample_api "octocat" initial_state) as H.
  destruct (validateUser sample_api "octocat" initial_state)
    as [user s'|e s'|] eqn:Hrun; [|vm_compute in Hrun; discriminate|contradiction].
  destruct H as (-> & Hlogin & _). exists user. split; [reflexivity | exact Hlogin].
Defined.

Lemma validateUser_ok api username user s :
  GET_user api username = Resolved 200 user ->
  login user = username ->
  validateUser api username s = Return user s.
Proof.
  intros Hreq Hlogin.
  unfold validateUser, try_catch, bind, makeRequest, ret.
  rewrite Hreq. change (200 =? 200) with true. cbv iota.
  rewrite Hlogin, String.eqb_refl. reflexivity.
Qed.

Lemma searchUserRepositoryCommits_stopped config api fuel user dateRange s :
  cancelled s || checkTotalRecordsLimit config s = true ->
  searchUserRepositoryCommits config api (S fuel) user dateRange s = Return [] s.
Proof.
  intros Hgate.
  unfold searchUserRepositoryCommits, bind, getUserRepositories.
  cbn [getUserRepositories_loop]. rewrite Hgate. reflexivity.
Qed.

(** X9: a run that starts cancelled, or with the record limit already
    reached, validates the user and then issues no other request: it ends
    with no commit and the state it started from. *)
Theorem analyzeUserCommits_stopped_at_start config api fuel s user :
  cancelled s = true \/ checkTotalRecordsLimit config s = true ->
  GET_user api (searchUser config) = Resolved 200 user ->
  login user = searchUser config ->
  analyzeUserCommits config api (S fuel) s = Return [] s.
Proof.
  intros Hstop Hreq Hlogin.
  assert (Hgate : cancelled s || checkTotalRecordsLimit config s = true).
  { destruct Hstop as [-> | ->]; [reflexivity | apply orb_true_r]. }
  unfold analyzeUserCommits. unfold bind at 1.
  rewrite (validateUser_ok api _ user s Hreq Hlogin).
  unfold bind at 1.
  rewrite (searchUserRepositoryCommits_stopped config api fuel _ _ s Hgate).
  replace (negb (cancelled s) && negb (checkTotalRecordsLimit config s))
    with false; [reflexivity|].
  destruct (cancelled s); [reflexivity|]. simpl in Hgate. rewrite Hgate.
  reflexivity.
Qed.

Lemma analyzeUserCommits_stopped_at_start_witness :
  analyzeUserCommits budget50 sample_api 1
    {| totalFetched := 0; errors := []; cancelled := true |}
  = Return [] {| totalFetched := 0; errors := []; cancelled := true |}.
Proof.
  apply (analyzeUserCommits_stopped_at_start budget50 sample_api 0
           {| totalFetched := 0; errors := []; cancelled := true |}
           {| login := "octocat" |});
    [left; reflexivity | reflexivity | reflexivity].
Defined.

(** X10: when the service never answers a listing with more entries than
    the [per_page] asked for, a positive record limit that bounds
    [totalFetched] at the start of a run bounds it at the end: the figure
    reported as records fetched never exceeds the limit. *)
Theorem analyzeUserCommits_counts_within_limit config api fuel s commits s' :
  honours_per_page api ->
  0 < totalRecords config ->
  totalFetched s <= totalRecords config ->
  analyzeUserCommits config api fuel s = Return commits s' ->
  totalFetched s' <= totalRecords config.
Proof.
  intros Hh Hb Htf. unfold analyzeUserCommits. unfold bind at 1.
  pose proof (validateUser_unchanged api (searchUser config) s) as Hv.
  destruct (validateUser api (searchUser config) s) as [u s1|e s1|];
    [|discriminate|discriminate].
  simpl in Hv. subst s1. unfold bind at 1.
  match goal with
  | |- match searchUserRepositoryCommits ?c ?a ?f ?u ?d ?s with _ => _ end = _ -> _ =>
      destruct (searchUserRepositoryCommits c a f u d s)
        as [directCommits s2|e s2|] eqn:Hwalk; [|discriminate|discriminate];
      set (dateRange := d) in *
  end.
  pose proof (searchUserRepositoryCommits_within_limit _ _ _ _ _ _ _ _
                Hh Hb Htf Hwalk) as Htf2.
  destruct (negb (cancelled s2) && negb (checkTotalRecordsLimit config s2));
    [|intros H; inversion H; subst; exact Htf2].
  unfold bind at 1.
  destruct (searchPullRequestsWithPartitioning config api fuel
              (searchUser config) dateRange s2)
    as [pullRequests s3|e s3|] eqn:Hsearch; [|discriminate|discriminate].
  pose proof (searchPullRequestsWithPartitioning_within_limit _ _ _ _ _ _ _ _
                Hb Htf2 Hsearch) as Htf3.
  destruct ((0 <? len pullRequests) && negb (cancelled s3)
            && negb (checkTotalRecordsLimit config s3)) eqn:Hgate;
    [|intros H; inversion H; subst; exact Htf3].
  apply andb_true_iff in Hgate as [Hgate Hl3].
  apply andb_true_iff in Hgate as [_ Hc3].
  apply negb_true_iff in Hl3, Hc3.
  unfold bind, ret.
  destruct (fetch_pr_commits_totalFetched config api pullRequests [] s3 Hc3 Hl3)
    as (prCommits & s4 & -> & Htf4).
  intros H. inversion H; subst. lia.
Qed.

Lemma analyzeUserCommits_counts_within_limit_witness :
  exists commits s',
    analyzeUserCommits budget50 sample_api 10 initial_state = Return commits s' /\
    totalFetched s' <= 50.
Proof.
  destruct (analyzeUserCommits budget50 sample_api 10 initial_state)
    as [commits s'|e s'|] eqn:Hrun; [|vm_compute in Hrun; discriminate..].
  exists commits, s'. split; [reflexivity|].
  apply (analyzeUserCommits_counts_within_limit budget50 sample_api 10
           initial_state commits s'); [| reflexivity | simpl; lia | exact Hrun].
  split; intros until items; intros Hpp Heq; inversion Heq; subst; clear Heq;
    unfold page_of, len; rewrite length_take; lia.
Defined.

(** ** Request executor: every outcome *)

Section RetryOutcomes.

Import GitHubDataEngine.

Context {Data : Type}.

(** X11: [GitHubDataEngine.makeRequest] ends without a result and without
    an error, its caller receiving [undefined], in one case only: the
    first two attempts failed with the rate limit or a status of 400 or
    more, and the third attempt met the rate limit. *)
Theorem makeRequest_returns_nothing_iff count delay (server : nat -> Reply Data) :
  outcome (GitHubDataEngine.makeRequest count delay server) = Undefined <->
  exists e0 now0 e1 now1 e2 now2,
    server O = Failed e0 now0 /\ retryable e0 = true /\
    server 1%nat = Failed e1 now1 /\ retryable e1 = true /\
    server 2%nat = Failed e2 now2 /\ rate_limited e2 = true.
Proof.
  unfold GitHubDataEngine.makeRequest. cbn [outcome].
  rewrite retry_loop_unrolled. unfold retryable. split.
  - destruct (server O) as [st0 d0|e0 now0]; [discriminate|].
    destruct (server 1%nat) as [st1 d1|e1 now1];
      [destruct (rate_limited e0), (status_ge_400 e0); discriminate|].
    destruct (server 2%nat) as [st2 d2|e2 now2];
      [destruct (rate_limited e0), (status_ge_400 e0),
         (rate_limited e1), (status_ge_400 e1); discriminate|].
    intros H. exists e0, now0, e1, now1, e2, now2.
    destruct (rate_limited e0), (status_ge_400 e0),
      (rate_limited e1), (status_ge_400 e1), (rate_limited e2);
      try discriminate; repeat split; reflexivity.
  - intros (e0 & now0 & e1 & now1 & e2 & now2 & -> & H0 & -> & H1 & -> & H2).
    rewrite H2.
    destruct (rate_limited e0), (status_ge_400 e0),
      (rate_limited e1), (status_ge_400 e1);
      try discriminate; reflexivity.
Qed.

(** X12: [GitHubDataEngine.makeRequest] returns the data of the first
    successful attempt among the first three, provided every attempt before
    it failed with the rate limit or a status of 400 or more, and then it
    has issued exactly that many requests; it returns data in no other
    case. *)
Theorem makeRequest_returns_first_success count delay (server : nat -> Reply Data) :
  let run := GitHubDataEngine.makeRequest count delay server in
  (forall k st d,
      (k <= 2)%nat -> server k = Ok st d ->
      (forall j, (j < k)%nat ->
         exists e now, server j = Failed e now /\ retryable e = true) ->
      outcome run = Returned d /\ requests (trace run) = S k) /\
  (forall d,
      outcome run = Returned d ->
      exists k st,
        (k <= 2)%nat /\ server k = Ok st d /\
        forall j, (j < k)%nat ->
          exists e now, server j = Failed e now /\ retryable e = true).
Proof.
  cbv zeta. unfold GitHubDataEngine.makeRequest. cbn [outcome trace].
  rewrite retry_loop_unrolled. unfold retryable. split.
  - intros k st d Hk Hok Hbefore.
    rewrite requests_app, requests_pause.
    destruct k as [|[|[|k]]]; [| | |lia].
    + rewrite Hok. split; reflexivity.
    + destruct (Hbefore O) as (e0 & now0 & -> & H0); [lia|].
      rewrite Hok.
      destruct (rate_limited e0), (status_ge_400 e0);
        try discriminate; split; reflexivity.
    + destruct (Hbefore O) as (e0 & now0 & -> & H0); [lia|].
      destruct (Hbefore 1%nat) as (e1 & now1 & -> & H1); [lia|].
      rewrite Hok.
      destruct (rate_limited e0), (status_ge_400 e0),
        (rate_limited e1), (status_ge_400 e1);
        try discriminate; split; reflexivity.
  - intros d.
    destruct (server O) as [st0 d0|e0 now0] eqn:E0.
    { intros H. inversion H; subst. exists O, st0.
      split; [lia|]. split; [exact E0|]. intros j Hj. lia. }
    destruct (server 1%nat) as [st1 d1|e1 now1] eqn:E1.
    { intros H. exists 1%nat, st1. split; [lia|].
      destruct (rate_limited e0) eqn:R0, (status_ge_400 e0) eqn:S0;
        try discriminate; inversion H; subst;
        (split; [exact E1|]); intros [|j] Hj; try lia;
        exists e0, now0; rewrite R0, ?S0; (split; [exact E0 | reflexivity]). }
    destruct (server 2%nat) as [st2 d2|e2 now2] eqn:E2.
    { intros H. exists 2%nat, st2. split; [lia|].
      destruct (rate_limited e0) eqn:R0, (status_ge_400 e0) eqn:S0,
        (rate_limited e1) eqn:R1, (status_ge_400 e1) eqn:S1;
        try discriminate; inversion H; subst;
        (split; [exact E2|]); intros [|[|j]] Hj; try lia;
        first
          [ exists e0, now0; rewrite R0, ?S0; (split; [exact E0 | reflexivity])
          | exists e1, now1; rewrite R1, ?S1; (split; [exact E1 | reflexivity]) ]. }
    intros H.
    destruct (rate_limited e0), (status_ge_400 e0),
      (rate_limited e1), (status_ge_400 e1), (rate_limited e2);
      discriminate.
Qed.

End RetryOutcomes.

Lemma makeRequest_returns_nothing_iff_witness :
  GitHubDataEngine.outcome
    (GitHubDataEngine.makeRequest 0 6
       (scripted [ GitHubDataEngine.Failed server_error 0;
                   GitHubDataEngine.Failed quota_exhausted 1000;
                   GitHubDataEngine.Failed quota_exhausted 1002000 ]))
  = GitHubDataEngine.Undefined.
Proof.
  apply (proj2 (makeRequest_returns_nothing_iff 0 6 _)).
  exists server_error, 0, quota_exhausted, 1000, quota_exhausted, 1002000.
  repeat split; reflexivity.
Defined.

Lemma makeRequest_returns_first_success_witness :
  let run :=
    GitHubDataEngine.makeRequest 0 6
      (scripted [ GitHubDataEngine.Failed server_error 0;
                  GitHubDataEngine.Failed quota_exhausted 1000 ]) in
  GitHubDataEngine.outcome run = GitHubDataEngine.Returned "data"%string /\
  GitHubDataEngine.requests (GitHubDataEngine.trace run) = 3%nat.
Proof.
  apply (proj1 (makeRequest_returns_first_success 0 6 _) 2%nat 200);
    [lia | reflexivity|].
  intros [|[|j]] Hj; [| |lia].
  - exists server_error, 0. split; reflexivity.
  - exists quota_exhausted, 1000. split; reflexivity.
Defined.

(** ** Date partitions of [GitHubDataEngine] *)

Module PartitionFacts.
Import GitHubDataEngine.

Lemma days_in_month_range y m : 28 <= days_in_month y m <= 31.
Proof.
  unfold days_in_month.
  repeat match goal with
         | |- context [if ?b then _ else _] => destruct b
         end; lia.
Qed.

(** Without clock change [setMonth] moves by the whole days of the local
    month. *)
Lemma addMonth_steady tz first last day :
  no_clock_change tz first last -> first <= day -> day + 31 <= last ->
  exists k, 28 <= k <= 31 /\ addMonth tz (parseDate day) = parseDate (day + k).
Proof.
  intros (offset & Hsteady) Hfirst Hlast. unfold addMonth, LocalTime.
  destruct (Hsteady (parseDate day)) as [-> _];
    [unfold parseDate, msPerDay in *; lia|].
  destruct (year_month ((parseDate day + offset) / msPerDay)) as [y m].
  pose proof (days_in_month_range y m) as Hk.
  exists (days_in_month y m). split; [exact Hk|].
  unfold UTC.
  replace (parseDate day + offset + days_in_month y m * msPerDay)
    with (parseDate (day + days_in_month y m) + offset)
    by (unfold parseDate; lia).
  destruct (Hsteady (parseDate (day + days_in_month y m))) as [_ ->];
    [unfold parseDate, msPerDay in *; lia|].
  lia.
Qed.

(** Every type moves the end of the partition by whole days. *)
Lemma partition_step_steady tz first last partitionType day :
  no_clock_change tz first last -> first <= day -> day + 31 <= last ->
  exists k,
    1 <= k <= 31 /\
    partition_step tz partitionType (parseDate day) = parseDate (day + k) /\
    (partitionType = "daily"%string -> k = 1) /\
    (partitionType <> "daily"%string -> partitionType <> "monthly"%string ->
     k = 7).
Proof.
  intros Hfix Hfirst Hlast. unfold partition_step.
  destruct (String.eqb partitionType "daily") eqn:Ed.
  { exists 1. rewrite (addDays_steady tz first last) by (assumption || lia).
    apply String.eqb_eq in Ed. repeat split; try lia. congruence. }
  apply String.eqb_neq in Ed.
  destruct (String.eqb partitionType "weekly") eqn:Ew.
  { exists 7. rewrite (addDays_steady tz first last) by (assumption || lia).
    repeat split; try lia. congruence. }
  destruct (String.eqb partitionType "monthly") eqn:Em.
  { apply String.eqb_eq in Em.
    destruct (addMonth_steady tz first last day Hfix Hfirst Hlast)
      as (k & Hk & ->).
    exists k. repeat split; try lia; congruence. }
  exists 7. rewrite (addDays_steady tz first last) by (assumption || lia).
  repeat split; try lia. congruence.
Qed.

(** One iteration where the clock does not change: the partition ends [k]
    days after its start, or on the end date, and the next one starts the
    day after. *)
Lemma generate_loop_step tz first last partitionType fuel current end' :
  no_clock_change tz first last -> first <= current -> end' + 31 <= last ->
  current < end' ->
  exists k,
    1 <= k <= 31 /\
    (partitionType = "daily"%string -> k = 1) /\
    (partitionType <> "daily"%string -> partitionType <> "monthly"%string ->
     k = 7) /\
    let partitionEnd := if end' <? current + k then end' else current + k in
    generate_loop tz (S fuel) partitionType (parseDate current) (parseDate end')
    = match generate_loop tz fuel partitionType (parseDate (partitionEnd + 1))
              (parseDate end') with
      | Some partitions =>
          Some ({| start := current; end_ := partitionEnd |} :: partitions)
      | None => None
      end.
Proof.
  intros Hsteady Hfirst Hlast Hlt.
  destruct (partition_step_steady tz first last partitionType current Hsteady)
    as (k & Hk & Hstep & Hdaily & Hweekly); [lia | lia |].
  exists k. split; [exact Hk|]. split; [exact Hdaily|].
  split; [exact Hweekly|]. cbv zeta. cbn [generate_loop].
  rewrite parseDate_ltb, (proj2 (Z.ltb_lt _ _) Hlt), Hstep, parseDate_min.
  assert (Hpe : current < (if end' <? current + k then end' else current + k)
                <= end').
  { destruct (end' <? current + k) eqn:E;
      [apply Z.ltb_lt in E | apply Z.ltb_ge in E]; lia. }
  rewrite (addDays_steady tz first last) by (assumption || lia).
  rewrite !isoDate_parseDate. reflexivity.
Qed.

Lemma generate_loop_stop tz partitionType fuel current end' :
  end' <= current ->
  generate_loop tz (S fuel) partitionType (parseDate current) (parseDate end')
  = Some [].
Proof.
  intros Hge. cbn [generate_loop].
  rewrite parseDate_ltb, (proj2 (Z.ltb_ge _ _) Hge). reflexivity.
Qed.

Lemma generate_loop_shape tz first last partitionType fuel current end' :
  no_clock_change tz first last -> first <= current -> end' + 31 <= last ->
  (Z.to_nat (end' - current) < fuel)%nat ->
  exists partitions,
    generate_loop tz fuel partitionType (parseDate current) (parseDate end')
      = Some partitions /\
    contiguous partitions /\
    Forall (fun p => current <= start p <= end_ p /\ end_ p <= end') partitions /\
    (forall d, current <= d < end' -> covered partitions d) /\
    (end' <= current -> partitions = []) /\
    (current < end' ->
     exists p rest, partitions = p :: rest /\ start p = current).
Proof.
  intros Hsteady. revert current.
  induction fuel as [|fuel IH]; intros current Hfirst Hlast Hfuel; [lia|].
  destruct (Z_lt_dec current end') as [Hlt|Hge].
  - destruct (generate_loop_step tz first last partitionType fuel current end'
                Hsteady Hfirst Hlast Hlt) as (k & Hk & _ & _ & Hrun).
    cbv zeta in Hrun. rewrite Hrun. clear Hrun.
    set (pe := if end' <? current + k then end' else current + k).
    assert (Hpe : current < pe <= end').
    { unfold pe. destruct (end' <? current + k) eqn:E;
        [apply Z.ltb_lt in E | apply Z.ltb_ge in E]; lia. }
    destruct (IH (pe + 1)) as (rest & -> & Hc & Hw & Hd & Hstop & Hhead);
      [lia | lia | lia |].
    eexists. split; [reflexivity|]. repeat split.
    + destruct (Z_lt_dec (pe + 1) end') as [Hmore|Hdone].
      * destruct (Hhead Hmore) as (q & rest' & -> & Hq).
        split; [exact Hq | exact Hc].
      * rewrite Hstop by lia. exact I.
    + constructor; [simpl; lia|].
      eapply Forall_impl; [exact Hw|]. simpl. intros p Hp. lia.
    + intros d Hd'. unfold covered. apply Exists_cons.
      destruct (Z_le_dec d pe) as [Hle|Hgt].
      * left. unfold covers. simpl. lia.
      * right. apply Hd. lia.
    + intros Hle. lia.
    + intros _. eexists _, _. split; reflexivity.
  - rewrite generate_loop_stop by lia.
    eexists. split; [reflexivity|]. repeat split.
    + constructor.
    + intros d Hd. lia.
    + intros Hlt. lia.
Qed.

(** With a step of seven days the loop is that of
    [AllUserCommit.createDatePartitions]. *)
Lemma generate_loop_weekly tz first last partitionType fuel current end' :
  no_clock_change tz first last -> first <= current -> end' + 31 <= last ->
  partitionType <> "daily"%string -> partitionType <> "monthly"%string ->
  (Z.to_nat (end' - current) < fuel)%nat ->
  generate_loop tz fuel partitionType (parseDate current) (parseDate end')
  = Some (partition_loop current end').
Proof.
  intros Hsteady Hfirst Hlast Hd Hm. revert current Hfirst.
  induction fuel as [|fuel IH]; intros current Hfirst Hfuel; [lia|].
  rewrite partition_loop_step.
  destruct (Z_lt_dec current end') as [Hlt|Hge].
  - destruct (generate_loop_step tz first last partitionType fuel current end'
                Hsteady Hfirst Hlast Hlt) as (k & _ & _ & Hk & Hrun).
    rewrite (Hk Hd Hm) in Hrun. cbv zeta in Hrun. rewrite Hrun. clear Hrun.
    rewrite (proj2 (Z.ltb_lt _ _) Hlt). cbv zeta.
    destruct (end' <? current + 7) eqn:E;
      [apply Z.ltb_lt in E | apply Z.ltb_ge in E].
    + rewrite IH by lia.
      rewrite (partition_loop_step (end' + 1)), (partition_loop_step (current + 8)).
      rewrite (proj2 (Z.ltb_ge (end' + 1) end')) by lia.
      rewrite (proj2 (Z.ltb_ge (current + 8) end')) by lia.
      reflexivity.
    + rewrite IH by lia.
      replace (current + 7 + 1) with (current + 8) by lia. reflexivity.
  - rewrite generate_loop_stop by lia.
    rewrite (proj2 (Z.ltb_ge _ _)) by lia. reflexivity.
Qed.

Lemma generate_loop_daily tz first last fuel current end' :
  no_clock_change tz first last -> first <= current -> end' + 31 <= last ->
  (Z.to_nat (end' - current) < fuel)%nat ->
  exists partitions,
    generate_loop tz fuel "daily" (parseDate current) (parseDate end')
      = Some partitions /\
    Forall (fun p => end_ p = start p + 1) partitions /\
    (current <= end' -> len partitions = (end' - current + 1) / 2).
Proof.
  intros Hsteady Hfirst Hlast. revert current Hfirst.
  induction fuel as [|fuel IH]; intros current Hfirst Hfuel; [lia|].
  destruct (Z_lt_dec current end') as [Hlt|Hge].
  - destruct (generate_loop_step tz first last "daily" fuel current end'
                Hsteady Hfirst Hlast Hlt) as (k & _ & Hk & _ & Hrun).
    rewrite (Hk eq_refl) in Hrun. cbv zeta in Hrun. rewrite Hrun. clear Hrun.
    rewrite (proj2 (Z.ltb_ge end' (current + 1))) by lia.
    destruct (IH (current + 1 + 1)) as (rest & Hrest & Hall & Hn); [lia | lia |].
    rewrite Hrest. eexists. split; [reflexivity|].
    split; [constructor; [reflexivity | exact Hall]|].
    intros _. unfold len in *. cbn [length]. rewrite Nat2Z.inj_succ.
    destruct (Z_le_dec (current + 1 + 1) end') as [Hle|Hgt].
    + rewrite Hn by exact Hle.
      replace (end' - current + 1)
        with (end' - (current + 1 + 1) + 1 + 1 * 2) by lia.
      rewrite Z.div_add by lia. lia.
    + assert (end' = current + 1) by lia. subst end'.
      destruct fuel as [|fuel]; [lia|].
      rewrite generate_loop_stop in Hrest by lia.
      injection Hrest as <-.
      replace (current + 1 - current + 1) with 2 by lia. reflexivity.
  - rewrite generate_loop_stop by lia.
    eexists. split; [reflexivity|]. split; [constructor|].
    intros Hle. assert (end' = current) by lia. subst.
    rewrite Z.sub_diag. reflexivity.
Qed.

End PartitionFacts.

(** X13: where the process time zone has no clock change from the start
    date to 31 days after the end date, for every partition type,
    [GitHubDataEngine.generateDatePartitions] returns partitions that are
    contiguous, lie inside the range and cover every day of the range
    before the end date; a range whose start is not before its end gets no
    partition. As many iterations as the range has days are enough. *)
Theorem generateDatePartitions_shape tz fuel startDate endDate partitionType :
  no_clock_change tz startDate (endDate + 31) ->
  (Z.to_nat (endDate - startDate) < fuel)%nat ->
  exists partitions,
    GitHubDataEngine.generateDatePartitions tz fuel startDate endDate
      partitionType = Some partitions /\
    contiguous partitions /\
    Forall (fun p => startDate <= start p <= end_ p /\ end_ p <= endDate)
           partitions /\
    (forall d, startDate <= d < endDate -> covered partitions d) /\
    (endDate <= startDate -> partitions = []).
Proof.
  intros Hsteady Hfuel. unfold GitHubDataEngine.generateDatePartitions.
  destruct (PartitionFacts.generate_loop_shape tz startDate (endDate + 31)
              partitionType fuel startDate endDate Hsteady)
    as (partitions & Hrun & Hc & Hw & Hd & Hstop & _); [lia | lia | exact Hfuel |].
  exists partitions. repeat split; assumption.
Qed.

Lemma generateDatePartitions_shape_witness :
  exists partitions,
    GitHubDataEngine.generateDatePartitions new_york 100 day_2024_01_01
      (day_2024_01_01 + 35) "monthly" = Some partitions /\
    covered partitions (day_2024_01_01 + 32).
Proof.
  destruct (generateDatePartitions_shape new_york 100 day_2024_01_01
              (day_2024_01_01 + 35) "monthly")
    as (partitions & Hrun & _ & _ & Hd & _).
  - apply new_york_winter; lia.
  - vm_compute. lia.
  - exists partitions. split; [exact Hrun|].
    apply Hd. unfold day_2024_01_01. lia.
Defined.

(** X14: where the process time zone has no clock change from the start
    date to 31 days after the end date, with the type "weekly", and with
    any type other than "daily" and "monthly",
    [GitHubDataEngine.generateDatePartitions] cuts a range into exactly the
    partitions of [AllUserCommit.createDatePartitions]. *)
Theorem generateDatePartitions_weekly tz fuel startDate endDate partitionType :
  no_clock_change tz startDate (endDate + 31) ->
  partitionType <> "daily"%string -> partitionType <> "monthly"%string ->
  (Z.to_nat (endDate - startDate) < fuel)%nat ->
  GitHubDataEngine.generateDatePartitions tz fuel startDate endDate
    partitionType
  = Zoned.createDatePartitions tz fuel startDate endDate /\
  Zoned.createDatePartitions tz fuel startDate endDate
  = Some (createDatePartitions startDate endDate).
Proof.
  intros Hsteady Hd Hm Hfuel.
  unfold GitHubDataEngine.generateDatePartitions, Zoned.createDatePartitions.
  rewrite (PartitionFacts.generate_loop_weekly tz startDate (endDate + 31))
    by (assumption || lia).
  rewrite (partition_loop_steady tz startDate (endDate + 31))
    by (assumption || lia).
  split; reflexivity.
Qed.

Lemma generateDatePartitions_weekly_witness :
  GitHubDataEngine.generateDatePartitions new_york 10 day_2024_01_01
    (day_2024_01_01 + 9) "weekly"
  = Zoned.createDatePartitions new_york 10 day_2024_01_01 (day_2024_01_01 + 9).
Proof.
  apply generateDatePartitions_weekly.
  - apply new_york_winter; lia.
  - discriminate.
  - discriminate.
  - vm_compute. lia.
Defined.

(** X15: where the process time zone has no clock change from the start
    date to 31 days after the end date, with the type "daily" every
    partition spans two days, its end being the day after its start, so
    that a range of [n] days' difference is cut into [(n + 1) / 2]
    partitions. *)
Theorem generateDatePartitions_daily tz fuel startDate endDate :
  no_clock_change tz startDate (endDate + 31) ->
  (Z.to_nat (endDate - startDate) < fuel)%nat ->
  exists partitions,
    GitHubDataEngine.generateDatePartitions tz fuel startDate endDate "daily"
      = Some partitions /\
    Forall (fun p => end_ p = start p + 1) partitions /\
    (startDate <= endDate -> len partitions = (endDate - startDate + 1) / 2).
Proof.
  intros Hsteady Hfuel.
  apply (PartitionFacts.generate_loop_daily tz startDate (endDate + 31));
    (assumption || lia).
Qed.

Lemma generateDatePartitions_daily_witness :
  exists partitions,
    GitHubDataEngine.generateDatePartitions new_york 10 day_2024_01_01
      (day_2024_01_01 + 6) "daily" = Some partitions /\
    len partitions = 3.
Proof.
  destruct (generateDatePartitions_daily new_york 10 day_2024_01_01
              (day_2024_01_01 + 6)) as (partitions & Hrun & _ & Hn).
  - apply new_york_winter; lia.
  - vm_compute. lia.
  - exists partitions. split; [exact Hrun|].
    rewrite Hn by (unfold day_2024_01_01; lia). reflexivity.
Defined.

(** Where the clock changes the daily partitions do not keep that shape: in
    New York the partition that starts on 2024-03-10 ends the same day. *)
Lemma generateDatePartitions_new_york :
  GitHubDataEngine.generateDatePartitions new_york 10 (day_2024_01_01 + 69)
    (day_2024_01_01 + 73) "daily"
  = Some [ {| start := day_2024_01_01 + 69; end_ := day_2024_01_01 + 69 |};
           {| start := day_2024_01_01 + 70; end_ := day_2024_01_01 + 71 |};
           {| start := day_2024_01_01 + 72; end_ := day_2024_01_01 + 73 |} ].
Proof. vm_compute. reflexivity. Qed.

(** ** The merge of [GitHubDataEngine.fetchPullRequests] *)

Section FirstOccurrences.

Context {A K : Type} `{Countable K}.
Variable key : A -> K.
Variable same : A -> A -> bool.
Hypothesis same_key : forall x y, same x y = true <-> key y = key x.

Lemma existsb_same_seen x pre :
  existsb (same x) pre = true <-> key x ∈ key <$> pre.
Proof.
  rewrite existsb_exists, list_elem_of_fmap. split.
  - intros (y & Hy & Hs). exists y. apply same_key in Hs.
    split; [congruence | apply list_elem_of_In, Hy].
  - intros (y & Hk & Hy). exists y. split; [apply list_elem_of_In, Hy|].
    apply same_key. congruence.
Qed.

Lemma filter_index_first_by pre l :
  filter_index (fun index x => index =? findIndex (same x) (pre ++ l))
    (len pre) l
  = first_by key (key <$> pre) l.
Proof.
  revert pre. induction l as [|x l IH]; intros pre; cbn [filter_index first_by];
    [reflexivity|].
  replace (pre ++ x :: l) with ((pre ++ [x]) ++ l)
    by (rewrite <- app_assoc; reflexivity).
  replace (len pre + 1) with (len (pre ++ [x]))
    by (unfold len; rewrite length_app; simpl; lia).
  rewrite IH, fmap_app. cbn [fmap list_fmap].
  replace ((pre ++ [x]) ++ l) with (pre ++ x :: l)
    by (rewrite <- app_assoc; reflexivity).
  rewrite findIndex_app.
  destruct (existsb (same x) pre) eqn:E.
  - pose proof (findIndex_range (same x) pre).
    destruct (len pre =? findIndex (same x) pre) eqn:E';
      [apply Z.eqb_eq in E'; lia|].
    apply existsb_same_seen in E.
    destruct (decide (key x ∈ key <$> pre)); [reflexivity | contradiction].
  - cbn [findIndex].
    rewrite (proj2 (same_key x x) eq_refl).
    change (0 <? 0) with false. cbv iota.
    rewrite Z.add_0_r, Z.eqb_refl.
    destruct (decide (key x ∈ key <$> pre)) as [Hin|]; [|reflexivity].
    apply existsb_same_seen in Hin. congruence.
Qed.

Lemma first_by_keys seen l k :
  k ∈ key <$> first_by key seen l <-> k ∈ key <$> l /\ k ∉ seen.
Proof.
  revert seen. induction l as [|x l IH]; intros seen; cbn [first_by].
  - rewrite fmap_nil, elem_of_nil. tauto.
  - destruct (decide (key x ∈ seen)) as [Hin|Hn].
    + rewrite IH, fmap_cons, elem_of_cons, elem_of_app, list_elem_of_singleton.
      destruct (decide (k = key x)) as [->|]; tauto.
    + rewrite !fmap_cons, !elem_of_cons, IH, elem_of_app,
        list_elem_of_singleton.
      destruct (decide (k = key x)) as [->|]; tauto.
Qed.

Lemma first_by_NoDup seen l : NoDup (key <$> first_by key seen l).
Proof.
  revert seen. induction l as [|x l IH]; intros seen; cbn [first_by];
    [apply NoDup_nil_2|].
  destruct (decide (key x ∈ seen)); [apply IH|].
  rewrite fmap_cons. apply NoDup_cons. split; [|apply IH].
  rewrite first_by_keys, elem_of_app, list_elem_of_singleton. tauto.
Qed.

Lemma first_by_first seen l x :
  x ∈ first_by key seen l ->
  exists l1 l2, l = l1 ++ x :: l2 /\
    forall y, y ∈ l1 -> key y <> key x.
Proof.
  revert seen. induction l as [|a l IH]; intros seen; cbn [first_by].
  - intros Hx. inversion Hx.
  - assert (Hrec : x ∈ first_by key (seen ++ [key a]) l ->
              exists l1 l2, a :: l = l1 ++ x :: l2 /\
                forall y, y ∈ l1 -> key y <> key x).
    { intros Hx.
      assert (Hk : key x ∈ key <$> first_by key (seen ++ [key a]) l)
        by (apply list_elem_of_fmap_2, Hx).
      apply first_by_keys in Hk as [_ Hk].
      destruct (IH _ Hx) as (l1 & l2 & -> & Hq).
      exists (a :: l1), l2. split; [reflexivity|].
      intros y Hy. apply elem_of_cons in Hy as [->|Hy]; [|apply Hq, Hy].
      intros Heq. apply Hk. rewrite elem_of_app, list_elem_of_singleton.
      right. congruence. }
    destruct (decide (key a ∈ seen)); [exact Hrec|].
    intros Hx. apply elem_of_cons in Hx as [->|Hx]; [|exact (Hrec Hx)].
    exists [], l. split; [reflexivity|]. intros y Hy. inversion Hy.
Qed.

Lemma first_by_size l :
  length (first_by key [] l) = size (list_to_set (key <$> l) : gset K).
Proof.
  rewrite <- (length_fmap key).
  rewrite <- (size_list_to_set (C := gset K)) by apply first_by_NoDup.
  f_equal. apply set_eq. intros k.
  rewrite !elem_of_list_to_set, first_by_keys, elem_of_nil. tauto.
Qed.

End FirstOccurrences.

Lemma uniquePRs_first_by combinedResults :
  GitHubDataEngine.uniquePRs combinedResults
  = first_by pr_id [] combinedResults.
Proof.
  unfold GitHubDataEngine.uniquePRs.
  apply (filter_index_first_by pr_id (fun pr p => pr_id p =? pr_id pr)
           (fun x y => Z.eqb_eq (pr_id y) (pr_id x)) [] combinedResults).
Qed.

(** X16: the merge of [GitHubDataEngine.fetchPullRequests] deduplicates the
    results of the two queries by pull-request [id]: the entries it appends
    have pairwise distinct ids, each is the first entry of the combined
    results with its id, their number is the number of distinct ids in the
    two result sets, and the counter of fetched records grows by that
    number. *)
Theorem combineResults_dedups_by_id
    allPullRequests authorResults userResults totalRecordsFetched :
  exists unique,
    GitHubDataEngine.combineResults allPullRequests authorResults userResults
      totalRecordsFetched
    = (allPullRequests ++ unique, totalRecordsFetched + len unique) /\
    NoDup (pr_id <$> unique) /\
    (forall pr, pr ∈ unique ->
       exists l1 l2, authorResults ++ userResults = l1 ++ pr :: l2 /\
         forall q, q ∈ l1 -> pr_id q <> pr_id pr) /\
    length unique
    = size (list_to_set (pr_id <$> authorResults)
              ∪ list_to_set (pr_id <$> userResults) : gset Z).
Proof.
  exists (GitHubDataEngine.uniquePRs (authorResults ++ userResults)).
  split; [reflexivity|]. rewrite uniquePRs_first_by.
  split; [apply first_by_NoDup|]. split.
  - intros pr Hpr. eapply first_by_first; eauto.
  - rewrite first_by_size, fmap_app, list_to_set_app_L. reflexivity.
Qed.

(** ** Meta tags of the command line *)

Lemma split_char_none c s : has_char c s = false -> split_char c s = [s].
Proof.
  induction s as [|a s IH]; simpl; [reflexivity|].
  intros H. apply orb_false_iff in H as [Ha Hs].
  rewrite Ha, (IH Hs). reflexivity.
Qed.

Lemma split_char_first c k rest :
  has_char c k = false ->
  split_char c (k ++ String c rest) = k :: split_char c rest.
Proof.
  induction k as [|a k IH]; simpl.
  - intros _. rewrite Ascii.eqb_refl. reflexivity.
  - intros H. apply orb_false_iff in H as [Ha Hk].
    rewrite Ha, (IH Hk). reflexivity.
Qed.

Lemma split_char_nonempty c s : split_char c s <> [].
Proof.
  destruct s as [|a s]; simpl; [discriminate|].
  destruct (Ascii.eqb a c); [discriminate|].
  destruct (split_char c s); discriminate.
Qed.

Lemma parseMetaTags_snoc tags tag :
  parseMetaTags (tags ++ [tag]) = setMetaTag (parseMetaTags tags) tag.
Proof. unfold parseMetaTags. rewrite fold_left_app. reflexivity. Qed.

Lemma setMetaTag_pair metaTags key value more :
  has_char "=" key = false -> has_char "=" value = false ->
  key <> ""%string -> value <> ""%string -> key <> "__proto__"%string ->
  (setMetaTag metaTags (key ++ "=" ++ value) = <[ key := value ]> metaTags) /\
  (setMetaTag metaTags (key ++ "=" ++ value ++ "=" ++ more)
   = <[ key := value ]> metaTags).
Proof.
  intros Hk Hv Hk0 Hv0 Hp.
  assert (E1 : String.eqb key "" = false) by (apply String.eqb_neq, Hk0).
  assert (E2 : String.eqb value "" = false) by (apply String.eqb_neq, Hv0).
  assert (E3 : String.eqb key "__proto__" = false) by (apply String.eqb_neq, Hp).
  unfold setMetaTag. split.
  - change (key ++ "=" ++ value)%string with (key ++ String "=" value)%string.
    rewrite split_char_first by exact Hk.
    rewrite split_char_none by exact Hv.
    rewrite E1, E2, E3. reflexivity.
  - change (key ++ "=" ++ value ++ "=" ++ more)%string
      with (key ++ String "=" (value ++ String "=" more))%string.
    rewrite split_char_first by exact Hk.
    rewrite split_char_first by exact Hv.
    rewrite E1, E2, E3. reflexivity.
Qed.

(** X17: a tag [key=value] with a non-empty key and value that contain no
    [=] sets the property [key] to [value], replacing what an earlier tag
    gave it and leaving every other property; when the tag goes on with a
    second [=], the value stops there and the rest of the tag is dropped. *)
Theorem parseMetaTags_last_tag_wins tags key value more :
  has_char "=" key = false -> has_char "=" value = false ->
  key <> ""%string -> value <> ""%string -> key <> "__proto__"%string ->
  parseMetaTags (tags ++ [(key ++ "=" ++ value)%string]) !! key = Some value /\
  (forall other, other <> key ->
     parseMetaTags (tags ++ [(key ++ "=" ++ value)%string]) !! other
     = parseMetaTags tags !! other) /\
  parseMetaTags (tags ++ [(key ++ "=" ++ value ++ "=" ++ more)%string])
  = parseMetaTags (tags ++ [(key ++ "=" ++ value)%string]).
Proof.
  intros Hk Hv Hk0 Hv0 Hp.
  destruct (setMetaTag_pair (parseMetaTags tags) key value more
              Hk Hv Hk0 Hv0 Hp) as [E1 E2].
  rewrite !parseMetaTags_snoc, E1, E2. split; [|split].
  - apply lookup_insert_eq.
  - intros other Hne. apply lookup_insert_ne. congruence.
  - reflexivity.
Qed.

Lemma parseMetaTags_last_tag_wins_witness :
  parseMetaTags (["team=core"; "env=dev"]%string
                 ++ [("team" ++ "=" ++ "infra")%string])
    !! "team"%string = Some "infra"%string.
Proof.
  apply (parseMetaTags_last_tag_wins ["team=core"; "env=dev"]%string
           "team" "infra" ""); [reflexivity | reflexivity | discriminate..].
Defined.

(** X18: a tag is ignored, the result being that of the other tags, when it
    contains no [=], when its key (the text before the first [=]) is empty,
    when its value (the text between the first and the second [=]) is
    empty, and when its key is [__proto__]. *)
Theorem parseMetaTags_ignores tags tag :
  has_char "=" tag = false \/
  (exists rest, tag = String "=" rest) \/
  (exists key rest, has_char "=" key = false /\
     (tag = key ++ "=" \/ tag = key ++ "==" ++ rest)%string) \/
  (exists rest, tag = "__proto__=" ++ rest)%string ->
  parseMetaTags (tags ++ [tag]) = parseMetaTags tags.
Proof.
  intros Hcase. rewrite parseMetaTags_snoc. unfold setMetaTag.
  destruct Hcase as [Hno | [(rest & ->) | [(key & rest & Hk & Htag) | (rest & ->)]]].
  - rewrite split_char_none by exact Hno. reflexivity.
  - simpl. destruct (split_char "=" rest); reflexivity.
  - destruct Htag as [-> | ->].
    + change (key ++ "=")%string with (key ++ String "=" "")%string.
      rewrite split_char_first by exact Hk. simpl.
      rewrite andb_false_r. reflexivity.
    + change (key ++ "==" ++ rest)%string
        with (key ++ String "=" (String "=" rest))%string.
      rewrite split_char_first by exact Hk. simpl.
      rewrite andb_false_r. reflexivity.
  - change ("__proto__=" ++ rest)%string
      with ("__proto__" ++ String "=" rest)%string.
    rewrite split_char_first by reflexivity.
    pose proof (split_char_nonempty "=" rest) as Hne.
    destruct (split_char "=" rest) as [|value more]; [contradiction|].
    simpl. destruct (negb (String.eqb value "")); reflexivity.
Qed.

Lemma parseMetaTags_ignores_witness :
  parseMetaTags (["team=core"%string] ++ ["verbose"%string])
  = parseMetaTags ["team=core"%string].
Proof.
  apply parseMetaTags_ignores. left. reflexivity.
Defined.

(** ** The report: groups and summary *)

Lemma sum_of_snoc f l c : sum_of f (l ++ [c]) = sum_of f l + f c.
Proof. unfold sum_of. rewrite fold_left_app. reflexivity. Qed.

Lemma filter_snoc {A} (p : A -> bool) l x :
  List.filter p (l ++ [x]) = List.filter p l ++ (if p x then [x] else []).
Proof. rewrite List.filter_app. reflexivity. Qed.

Lemma is_type_total c :
  (is_type direct c = true /\ is_type pull_request c = false) \/
  (is_type direct c = false /\ is_type pull_request c = true).
Proof. unfold is_type. destruct (type (commit c)); auto. Qed.

Lemma count_by_type l :
  len (List.filter (is_type direct) l)
  + len (List.filter (is_type pull_request) l) = len l.
Proof.
  unfold len. induction l as [|c l IH]; simpl; [reflexivity|].
  destruct (is_type_total c) as [[-> ->] | [-> ->]]; simpl; lia.
Qed.

Lemma groupCommitsByRepository_snoc searchUser commits c :
  groupCommitsByRepository searchUser (commits ++ [c])
  = match groupCommitsByRepository searchUser commits with
    | Some grouped => addToRepositoryGroup searchUser grouped c
    | None => None
    end.
Proof. unfold groupCommitsByRepository. rewrite fold_left_app. reflexivity. Qed.

(** What a group of a repository holds. *)
Lemma addToRepositoryGroup_groups searchUser commits grouped c grouped' r :
  let group_of (commits : list ReportCommit)
               (grouped : gmap string RepositoryGroup) :=
    let mine := repository_commits r commits in
    match grouped !! r with
    | None => mine = []
    | Some g =>
        mine <> [] /\
        group_commits g = mine /\
        group_direct g = len (List.filter (is_type direct) mine) /\
        group_pull_request g = len (List.filter (is_type pull_request) mine) /\
        group_direct g + group_pull_request g = len mine /\
        totalAdditions g = sum_of additions_of mine /\
        totalDeletions g = sum_of deletions_of mine /\
        totalFiles g = sum_of files_of mine /\
        group_userId g = searchUser
    end in
  group_of commits grouped ->
  addToRepositoryGroup searchUser grouped c = Some grouped' ->
  group_of (commits ++ [c]) grouped'.
Proof.
  cbv zeta. intros IH Hadd. unfold addToRepositoryGroup in Hadd.
  destruct (inherited (repository (commit c))); [discriminate|].
  injection Hadd as <-.
  unfold repository_commits in *. rewrite filter_snoc.
  destruct (String.eqb (repository (commit c)) r) eqn:E.
  - apply String.eqb_eq in E. subst r. rewrite lookup_insert_eq.
    remember (List.filter
                (fun c0 => String.eqb (repository (commit c0))
                             (repository (commit c))) commits) as mine.
    assert (Hsnoc : mine ++ [c] <> []) by (destruct mine; discriminate).
    split; [exact Hsnoc|].
    rewrite !filter_snoc, !sum_of_snoc, <- (count_by_type (mine ++ [c])).
    destruct (grouped !! repository (commit c)) as [g|].
    + destruct IH as (_ & -> & -> & -> & _ & -> & -> & -> & ->).
      cbn [group_direct group_pull_request group_commits totalAdditions
           totalDeletions totalFiles group_userId].
      rewrite !filter_snoc, !len_app. unfold is_type.
      destruct (type (commit c)); repeat split;
        try reflexivity; unfold len; simpl; lia.
    + rewrite IH.
      cbn [group_direct group_pull_request group_commits totalAdditions
           totalDeletions totalFiles group_userId].
      unfold is_type, len, sum_of.
      destruct (type (commit c)) eqn:Et; simpl; rewrite Et; simpl;
        repeat split; reflexivity.
  - apply String.eqb_neq in E. rewrite lookup_insert_ne by exact E.
    rewrite app_nil_r. exact IH.
Qed.

Lemma groupCommitsByRepository_group_of searchUser commits grouped r :
  groupCommitsByRepository searchUser commits = Some grouped ->
  let mine := repository_commits r commits in
  match grouped !! r with
  | None => mine = []
  | Some g =>
      mine <> [] /\
      group_commits g = mine /\
      group_direct g = len (List.filter (is_type direct) mine) /\
      group_pull_request g = len (List.filter (is_type pull_request) mine) /\
      group_direct g + group_pull_request g = len mine /\
      totalAdditions g = sum_of additions_of mine /\
      totalDeletions g = sum_of deletions_of mine /\
      totalFiles g = sum_of files_of mine /\
      group_userId g = searchUser
  end.
Proof.
  revert grouped. induction commits as [|c commits IH] using rev_ind;
    intros grouped Hrun.
  - injection Hrun as <-. reflexivity.
  - rewrite groupCommitsByRepository_snoc in Hrun.
    destruct (groupCommitsByRepository searchUser commits) as [before|];
      [|discriminate].
    exact (addToRepositoryGroup_groups searchUser commits before c grouped r
             (IH before eq_refl) Hrun).
Qed.

(** X19: [groupCommitsByRepository] fails with a [TypeError] exactly when
    the repository name of some commit is a property every object inherits
    ([constructor], [toString], ...). Otherwise it has a group for a
    repository exactly when the collection has a commit of that repository;
    the group holds the commits of the repository in the order of the
    collection, its two counters are the numbers of direct and of
    pull-request commits among them and add up to their number, and its
    totals are the sums of their additions, deletions and files. *)
Theorem groupCommitsByRepository_groups searchUser commits :
  match groupCommitsByRepository searchUser commits with
  | None =>
      Exists (fun c => inherited (repository (commit c)) = true) commits
  | Some grouped =>
      Forall (fun c => inherited (repository (commit c)) = false) commits /\
      forall r,
        let mine := repository_commits r commits in
        match grouped !! r with
        | None => mine = []
        | Some g =>
            mine <> [] /\
            group_commits g = mine /\
            group_direct g = len (List.filter (is_type direct) mine) /\
            group_pull_request g
            = len (List.filter (is_type pull_request) mine) /\
            group_direct g + group_pull_request g = len mine /\
            totalAdditions g = sum_of additions_of mine /\
            totalDeletions g = sum_of deletions_of mine /\
            totalFiles g = sum_of files_of mine /\
            group_userId g = searchUser
        end
  end.
Proof.
  destruct (groupCommitsByRepository searchUser commits) as [grouped|] eqn:Hrun.
  - split; [|intros r; exact (groupCommitsByRepository_group_of
                               searchUser commits grouped r Hrun)].
    revert grouped Hrun. induction commits as [|c commits IH] using rev_ind;
      intros grouped Hrun; [constructor|].
    rewrite groupCommitsByRepository_snoc in Hrun.
    destruct (groupCommitsByRepository searchUser commits) as [before|];
      [|discriminate].
    apply Forall_app. split; [exact (IH before eq_refl)|].
    repeat constructor. unfold addToRepositoryGroup in Hrun.
    destruct (inherited (repository (commit c))); [discriminate | reflexivity].
  - induction commits as [|c commits IH] using rev_ind; [discriminate|].
    rewrite groupCommitsByRepository_snoc in Hrun. apply Exists_app.
    destruct (groupCommitsByRepository searchUser commits) as [before|];
      [|left; exact (IH eq_refl)].
    right. constructor. unfold addToRepositoryGroup in Hrun.
    destruct (inherited (repository (commit c))); [reflexivity | discriminate].
Qed.

Lemma groupCommitsByRepository_groups_witness :
  match groupCommitsByRepository "octocat" sample_report_commits with
  | Some grouped =>
      match grouped !! "octo/app"%string with
      | Some g =>
          group_direct g = 1 /\ group_pull_request g = 1 /\
          totalAdditions g = 8
      | None => False
      end
  | None => False
  end.
Proof.
  pose proof (groupCommitsByRepository_groups "octocat" sample_report_commits)
    as H.
  destruct (groupCommitsByRepository "octocat" sample_report_commits)
    as [grouped|].
  - destruct H as [_ H]. specialize (H "octo/app"%string). cbv zeta in H.
    destruct (grouped !! "octo/app"%string) as [g|];
      [|vm_compute in H; discriminate].
    destruct H as (_ & _ & Hd & Hp & _ & Ha & _).
    rewrite Hd, Hp, Ha. vm_compute. repeat split; reflexivity.
  - vm_compute in H. repeat (inversion H as [? ? E|? ? E]; subst;
                             [discriminate|clear H; rename E into H]).
    inversion H.
Defined.

Lemma groupCommitsByPullRequest_snoc searchUser commits c :
  groupCommitsByPullRequest searchUser (commits ++ [c])
  = addToPullRequestGroup searchUser
      (groupCommitsByPullRequest searchUser commits) c.
Proof. unfold groupCommitsByPullRequest. rewrite fold_left_app. reflexivity. Qed.

(** X20: [groupCommitsByPullRequest] files a commit only when its type is
    [pull_request] and its pull-request number is set and not zero, under
    the key made of its repository and that number. A key has a group
    exactly when such a commit exists; the group holds these commits in the
    order of the collection, takes its repository and number from the first
    of them, and its totals are the sums of their additions, deletions and
    files. *)
Theorem groupCommitsByPullRequest_groups searchUser commits key :
  let mine := pull_request_commits key commits in
  match groupCommitsByPullRequest searchUser commits !! key with
  | None => mine = []
  | Some g =>
      pr_commits g = mine /\
      Forall (fun c => type (commit c) = pull_request /\
                       pullRequestKey c = key) mine /\
      (exists first rest,
          mine = first :: rest /\
          pr_repository g = repository (commit first) /\
          pr_pullRequest g = pullRequest (commit first)) /\
      pr_totalAdditions g = sum_of additions_of mine /\
      pr_totalDeletions g = sum_of deletions_of mine /\
      pr_totalFiles g = sum_of files_of mine /\
      pr_userId g = searchUser
  end.
Proof.
  cbv zeta. induction commits as [|c commits IH] using rev_ind.
  - reflexivity.
  - rewrite groupCommitsByPullRequest_snoc. unfold addToPullRequestGroup.
    unfold pull_request_commits in *. rewrite filter_snoc.
    destruct (in_pull_request c) eqn:Hin.
    2:{ cbn [andb]. rewrite app_nil_r. exact IH. }
    cbn [andb].
    destruct (String.eqb (pullRequestKey c) key) eqn:E.
    + apply String.eqb_eq in E. subst key. rewrite lookup_insert_eq.
      assert (Hc : type (commit c) = pull_request /\
                   pullRequestKey c = pullRequestKey c).
      { split; [|reflexivity]. unfold in_pull_request in Hin.
        destruct (type (commit c)); [discriminate | reflexivity]. }
      remember (List.filter
                  (fun c0 => in_pull_request c0
                             && String.eqb (pullRequestKey c0)
                                  (pullRequestKey c)) commits) as mine.
      rewrite !sum_of_snoc.
      destruct (groupCommitsByPullRequest searchUser commits
                  !! pullRequestKey c) as [g|].
      * destruct IH as (-> & Hall & (first & rest & Hm & Hr & Hp)
                           & -> & -> & -> & ->).
        cbn [pr_repository pr_pullRequest pr_userId pr_commits
             pr_totalAdditions pr_totalDeletions pr_totalFiles].
        repeat split; try reflexivity.
        -- apply Forall_app. split; [exact Hall | repeat constructor].
           apply Hc.
        -- exists first, (rest ++ [c]). rewrite Hm. repeat split; assumption.
      * rewrite IH.
        cbn [pr_repository pr_pullRequest pr_userId pr_commits
             pr_totalAdditions pr_totalDeletions pr_totalFiles].
        repeat split; try reflexivity.
        -- repeat constructor. apply Hc.
        -- exists c, []. repeat split.
    + apply String.eqb_neq in E. rewrite lookup_insert_ne by exact E.
      rewrite app_nil_r. exact IH.
Qed.

Lemma groupCommitsByPullRequest_groups_witness :
  match groupCommitsByPullRequest "octocat" sample_report_commits
          !! "octo/lib#7"%string with
  | Some g =>
      pr_repository g = "octo/lib"%string /\ pr_pullRequest g = Some 7 /\
      length (pr_commits g) = 1%nat
  | None => False
  end.
Proof.
  pose proof (groupCommitsByPullRequest_groups "octocat" sample_report_commits
                "octo/lib#7"%string) as H.
  cbv zeta in H.
  destruct (groupCommitsByPullRequest "octocat" sample_report_commits
              !! "octo/lib#7"%string) as [g|];
    [|vm_compute in H; discriminate].
  destruct H as (Hc & _ & (first & rest & Hm & Hr & Hp) & _).
  rewrite Hc, Hr, Hp.
  vm_compute in Hm. injection Hm as <- <-. vm_compute.
  repeat split; reflexivity.
Defined.

Lemma repository_commits_nonempty r commits :
  repository_commits r commits <> [] <->
  r ∈ map (fun c => repository (commit c)) commits.
Proof.
  unfold repository_commits. induction commits as [|c commits IH]; simpl.
  - rewrite elem_of_nil. tauto.
  - rewrite elem_of_cons.
    destruct (String.eqb (repository (commit c)) r) eqn:E.
    + apply String.eqb_eq in E. split; [auto | discriminate].
    + apply String.eqb_neq in E. rewrite IH. split; [auto|].
      intros [Heq | Hin]; [congruence | exact Hin].
Qed.

Lemma groupCommitsByRepository_dom searchUser commits grouped :
  groupCommitsByRepository searchUser commits = Some grouped ->
  dom grouped = list_to_set (map (fun c => repository (commit c)) commits).
Proof.
  intros Hrun. apply set_eq. intros r.
  rewrite elem_of_dom, elem_of_list_to_set, <- repository_commits_nonempty.
  pose proof (groupCommitsByRepository_group_of searchUser commits grouped r
                Hrun) as H.
  cbv zeta in H.
  destruct (grouped !! r) as [g|].
  - destruct H as [Hne _]. split; [intros _; exact Hne | eauto].
  - rewrite H. split; [intros [x Hx]; discriminate | congruence].
Qed.

(** X21: the figures of the report agree with each other: the total number
    of commits is the number of direct commits plus the number of
    pull-request commits, and, when [groupCommitsByRepository] returns, the
    number of unique repositories is the number of its groups. *)
Theorem report_summary_consistent searchUser commits s grouped :
  groupCommitsByRepository searchUser commits = Some grouped ->
  let figures := summary commits s in
  totalCommits figures = directCommits figures + pullRequestCommits figures /\
  uniqueRepositories figures = Z.of_nat (size grouped).
Proof.
  intros Hrun. cbv zeta. unfold summary.
  cbn [totalCommits directCommits pullRequestCommits uniqueRepositories].
  split; [symmetry; apply count_by_type|].
  rewrite <- (groupCommitsByRepository_dom searchUser commits grouped Hrun).
  rewrite size_dom. reflexivity.
Qed.

Lemma report_summary_consistent_witness :
  uniqueRepositories (summary sample_report_commits initial_state) = 2.
Proof.
  assert (Hrun : groupCommitsByRepository "octocat" sample_report_commits
                 = Some (default ∅ (groupCommitsByRepository "octocat"
                                      sample_report_commits)))
    by (vm_compute; reflexivity).
  rewrite (proj2 (report_summary_consistent _ _ initial_state _ Hrun)).
  vm_compute. reflexivity.
Defined.
